(** * Click configuration-string parsing (lib/confparse.cc)

    A shallow embedding of the scanner, the scalar and address parsers, the
    argument binding engine and the unparsers of [confparse.cc], and the
    properties of them that the specification states.

    Conventions.
    - A Click [String] is a [list byte]; [char_at s i] is the C expression
      [s[i]] read as an unsigned character code.
    - C [int] and [unsigned] values are integers in [Z]; 32-bit wrap-around
      is written out with [u32] and [s32] where the source can reach it.
    - A loop whose index only moves forward gets a [nat] budget that is at
      least the length of the text it walks over. *)

From Stdlib Require Import String Ascii.
From Stdlib Require Import Strings.Byte.
From Stdlib Require Import ZArith List Bool Lia.
Import ListNotations.
Local Open Scope Z_scope.

(** ** Strings and characters *)

Definition Str := list byte.

Definition lit (s : string) : Str := list_byte_of_string s.

Definition code (b : byte) : Z := Z.of_N (Byte.to_N b).

(** The conversion [(char)c] of an [int] to a character. *)
Definition chr (z : Z) : byte :=
  match Byte.of_N (Z.to_N (z mod 256)) with
  | Some b => b
  | None => x00
  end.

Definition ch (b : byte) : Z := code b.
Arguments ch b%_byte.

Definition DQUOTE : Z := 34.
Definition SQUOTE : Z := 39.
Definition BEL : Z := 7.
Definition BS : Z := 8.
Definition TAB : Z := 9.
Definition NL : Z := 10.
Definition VT : Z := 11.
Definition FF : Z := 12.
Definition CR : Z := 13.
Definition SPACE : Z := 32.

Definition slen (s : Str) : Z := Z.of_nat (length s).

(** The byte [s[i]]; a read outside the text yields the terminating NUL. *)
Definition byte_at (s : Str) (i : Z) : byte :=
  if i <? 0 then x00 else nth (Z.to_nat i) s x00.

Definition char_at (s : Str) (i : Z) : Z := code (byte_at s i).

(** [String::substring(pos, len)]: the text is clipped to the string. *)
Definition substring (s : Str) (pos len : Z) : Str :=
  if (pos <? 0) || (len <=? 0) then []
  else firstn (Z.to_nat len) (skipn (Z.to_nat pos) s).

(** [String::substring(pos)]: the rest of the string from [pos]. *)
Definition substring_from (s : Str) (pos : Z) : Str :=
  substring s pos (slen s - pos).

Definition isspace (c : Z) : bool :=
  (c =? SPACE) || ((TAB <=? c) && (c <=? CR)).

Definition isdigit (c : Z) : bool := (ch "0" <=? c) && (c <=? ch "9").

Definition isxdigit (c : Z) : bool :=
  isdigit c || ((ch "A" <=? c) && (c <=? ch "F"))
            || ((ch "a" <=? c) && (c <=? ch "f")).

Definition isalnum (c : Z) : bool :=
  isdigit c || ((ch "A" <=? c) && (c <=? ch "Z"))
            || ((ch "a" <=? c) && (c <=? ch "z")).

Definition u32 (z : Z) : Z := z mod 2 ^ 32.

Definition s32 (z : Z) : Z := (z + 2 ^ 31) mod 2 ^ 32 - 2 ^ 31.

(** A [for] loop with an empty body: move [pos] forward while [p pos]. *)
Fixpoint advance (fuel : nat) (p : Z -> bool) (pos : Z) : Z :=
  match fuel with
  | O => pos
  | S fuel' => if p pos then advance fuel' p (pos + 1) else pos
  end.

(** ** Scanner *)

Definition cp_is_space (str : Str) : bool :=
  forallb (fun b => isspace (code b)) str.

Definition cp_eat_space (str : Str) : Str :=
  let i := advance (length str)
             (fun i => (i <? slen str) && isspace (char_at str i)) 0 in
  substring_from str i.

Definition xvalue (x : Z) : Z :=
  if (ch "0" <=? x) && (x <=? ch "9") then x - ch "0"
  else if (ch "A" <=? x) && (x <=? ch "F") then x - ch "A" + 10
  else if (ch "a" <=? x) && (x <=? ch "f") then x - ch "a" + 10
  else -1.

(** The test [s[i] == '/' && i < len - 1 && (s[i+1] == '/' || s[i+1] == '*')]
    that the scanner repeats before each call of [skip_comment]. *)
Definition comment_start (s : Str) (i len : Z) : bool :=
  (char_at s i =? ch "/") && (i <? len - 1)
  && ((char_at s (i + 1) =? ch "/") || (char_at s (i + 1) =? ch "*")).

Definition skip_comment (s : Str) (pos len : Z) : Z :=
  if char_at s (pos + 1) =? ch "/" then
    let pos := advance (length s)
                 (fun p => (p <? len - 1) && negb (char_at s p =? NL)
                           && negb (char_at s p =? CR)) (pos + 2) in
    let pos := if (pos <? len - 1) && (char_at s pos =? CR)
                  && (char_at s (pos + 1) =? NL)
               then pos + 1 else pos in
    pos + 1
  else
    let pos := advance (length s)
                 (fun p => (p <? len - 2)
                           && (negb (char_at s p =? ch "*")
                               || negb (char_at s (p + 1) =? ch "/")))
                 (pos + 2) in
    pos + 2.

Fixpoint skip_backslash_angle_loop (fuel : nat) (s : Str) (pos len : Z) : Z :=
  match fuel with
  | O => len
  | S fuel' =>
      if pos <? len then
        if char_at s pos =? ch ">" then pos + 1
        else if comment_start s pos len
        then skip_backslash_angle_loop fuel' s (skip_comment s pos len) len
        else skip_backslash_angle_loop fuel' s (pos + 1) len
      else len
  end.

Definition skip_backslash_angle (s : Str) (pos len : Z) : Z :=
  skip_backslash_angle_loop (length s) s (pos + 2) len.

Fixpoint skip_double_quote_loop (fuel : nat) (s : Str) (pos len : Z) : Z :=
  match fuel with
  | O => len
  | S fuel' =>
      if pos <? len then
        if (pos <? len - 1) && (char_at s pos =? ch "\") then
          if char_at s (pos + 1) =? ch "<"
          then skip_double_quote_loop fuel' s (skip_backslash_angle s pos len) len
          else skip_double_quote_loop fuel' s (pos + 2) len
        else if char_at s pos =? DQUOTE then pos + 1
        else skip_double_quote_loop fuel' s (pos + 1) len
      else len
  end.

Definition skip_double_quote (s : Str) (pos len : Z) : Z :=
  skip_double_quote_loop (length s) s (pos + 1) len.

Fixpoint skip_single_quote_loop (fuel : nat) (s : Str) (pos len : Z) : Z :=
  match fuel with
  | O => len
  | S fuel' =>
      if pos <? len then
        if char_at s pos =? SQUOTE then pos + 1
        else skip_single_quote_loop fuel' s (pos + 1) len
      else len
  end.

Definition skip_single_quote (s : Str) (pos len : Z) : Z :=
  skip_single_quote_loop (length s) s (pos + 1) len.

(** The first loop of [partial_uncomment]: skip initial spaces and
    comments. *)
Fixpoint skip_initial (fuel : nat) (s : Str) (i len : Z) : Z :=
  match fuel with
  | O => i
  | S fuel' =>
      if i <? len then
        if comment_start s i len
        then skip_initial fuel' s (skip_comment s i len - 1 + 1) len
        else if negb (isspace (char_at s i)) then i
        else skip_initial fuel' s (i + 1) len
      else i
  end.

(** The state of the second loop of [partial_uncomment]. *)
Record uncomment_state := {
  uc_i : Z;
  uc_left : Z;
  uc_right : Z;
  uc_closed : bool;
  uc_sa : Str
}.

Fixpoint accumulate (fuel : nat) (str : Str) (len : Z) (comma_pos : bool)
    (st : uncomment_state) : uncomment_state :=
  match fuel with
  | O => st
  | S fuel' =>
      let i := uc_i st in
      if i <? len then
        if isspace (char_at str i) then
          accumulate fuel' str len comma_pos
            {| uc_i := i + 1; uc_left := uc_left st; uc_right := uc_right st;
               uc_closed := uc_closed st; uc_sa := uc_sa st |}
        else if comment_start str i len then
          accumulate fuel' str len comma_pos
            {| uc_i := skip_comment str i len; uc_left := uc_left st;
               uc_right := uc_right st; uc_closed := true; uc_sa := uc_sa st |}
        else if (char_at str i =? ch ",") && comma_pos then st
        else
          let sa := if uc_closed st
                    then uc_sa st
                         ++ substring str (uc_left st) (uc_right st - uc_left st)
                         ++ [chr SPACE]
                    else uc_sa st in
          let left := if uc_closed st then i else uc_left st in
          let i' :=
            if char_at str i =? SQUOTE then skip_single_quote str i len
            else if char_at str i =? DQUOTE then skip_double_quote str i len
            else if (char_at str i =? ch "\") && (i <? len - 1)
                    && (char_at str (i + 1) =? ch "<")
            then skip_backslash_angle str i len
            else i + 1 in
          accumulate fuel' str len comma_pos
            {| uc_i := i'; uc_left := left; uc_right := i';
               uc_closed := false; uc_sa := sa |}
      else st
  end.

(** [partial_uncomment(str, i, comma_pos)]; [comma_pos] tells whether the
    pointer is non-null, and the second component is the value the source
    writes through it. *)
Definition partial_uncomment (str : Str) (i : Z) (comma_pos : bool)
  : Str * Z :=
  let len := slen str in
  let i := skip_initial (length str) str i len in
  let st := accumulate (length str) str len comma_pos
              {| uc_i := i; uc_left := i; uc_right := i;
                 uc_closed := false; uc_sa := [] |} in
  let tail := substring str (uc_left st) (uc_right st - uc_left st) in
  (match uc_sa st with
   | [] => tail
   | _ => uc_sa st ++ tail
   end, uc_i st).

Definition cp_uncomment (str : Str) : Str :=
  fst (partial_uncomment str 0 false).

Fixpoint cp_argvec_loop (fuel : nat) (conf : Str) (i : Z) (first_arg : bool)
    (args : list Str) : list Str :=
  match fuel with
  | O => args
  | S fuel' =>
      if i <=? slen conf then
        let '(arg, i) := partial_uncomment conf i true in
        let args := if negb (Z.of_nat (length arg) =? 0) || (i <? slen conf)
                       || negb first_arg
                    then args ++ [arg] else args in
        cp_argvec_loop fuel' conf (i + 1) false args
      else args
  end.

(** [cp_argvec(conf, args)] appends to [args]. *)
Definition cp_argvec (conf : Str) (args : list Str) : list Str :=
  if slen conf =? 0 then args
  else cp_argvec_loop (S (length conf)) conf 0 true args.


(** ** Unquoting and quoting *)

(** The octal case of [process_backslash]: at most three digits. *)
Fixpoint octal_loop (fuel : nat) (s : Str) (len i c d : Z) : Z * Z :=
  match fuel with
  | O => (i, c)
  | S fuel' =>
      if (i <? len) && (ch "0" <=? char_at s i) && (char_at s i <=? ch "7")
         && (d <? 3)
      then octal_loop fuel' s len (i + 1) (c * 8 + char_at s i - ch "0") (d + 1)
      else (i, c)
  end.

(** The [\x] case: any number of hexadecimal digits. *)
Fixpoint hex_loop (fuel : nat) (s : Str) (len i c : Z) : Z * Z :=
  match fuel with
  | O => (i, c)
  | S fuel' =>
      if i <? len then
        let x := char_at s i in
        if (ch "0" <=? x) && (x <=? ch "9")
        then hex_loop fuel' s len (i + 1) (s32 (c * 16 + x - ch "0"))
        else if (ch "A" <=? x) && (x <=? ch "F")
        then hex_loop fuel' s len (i + 1) (s32 (c * 16 + x - ch "A" + 10))
        else if (ch "a" <=? x) && (x <=? ch "f")
        then hex_loop fuel' s len (i + 1) (s32 (c * 16 + x - ch "a" + 10))
        else (i, c)
      else (i, c)
  end.

(** The [\<] case: pairs of hexadecimal digits up to the closing [>]. *)
Fixpoint angle_loop (fuel : nat) (s : Str) (len i c d : Z) (sa : Str)
  : Z * Str :=
  match fuel with
  | O => (len, sa)
  | S fuel' =>
      if i <? len then
        let x := char_at s i in
        let digit (v : Z) :=
          let c := c * 16 + v in
          if d + 1 =? 2
          then angle_loop fuel' s len (i + 1) 0 0 (sa ++ [chr c])
          else angle_loop fuel' s len (i + 1) c (d + 1) sa in
        if x =? ch ">" then (i + 1, sa)
        else if (ch "0" <=? x) && (x <=? ch "9") then digit (x - ch "0")
        else if (ch "A" <=? x) && (x <=? ch "F") then digit (x - ch "A" + 10)
        else if (ch "a" <=? x) && (x <=? ch "f") then digit (x - ch "a" + 10)
        else if comment_start s i len
        then angle_loop fuel' s len (skip_comment s i len - 1 + 1) c d sa
        else angle_loop fuel' s len (i + 1) c d sa
      else (len, sa)
  end.

(** [process_backslash(s, i, len, sa)]: the position after the escape and
    the accumulator with what the escape stands for. *)
Definition process_backslash (s : Str) (i len : Z) (sa : Str) : Z * Str :=
  let x := char_at s (i + 1) in
  if x =? CR
  then (if (i <? len - 2) && (char_at s (i + 2) =? NL) then i + 3 else i + 2, sa)
  else if x =? NL then (i + 2, sa)
  else if x =? ch "a" then (i + 2, sa ++ [chr BEL])
  else if x =? ch "b" then (i + 2, sa ++ [chr BS])
  else if x =? ch "f" then (i + 2, sa ++ [chr FF])
  else if x =? ch "n" then (i + 2, sa ++ [chr NL])
  else if x =? ch "r" then (i + 2, sa ++ [chr CR])
  else if x =? ch "t" then (i + 2, sa ++ [chr TAB])
  else if x =? ch "v" then (i + 2, sa ++ [chr VT])
  else if (ch "0" <=? x) && (x <=? ch "7") then
    let '(i, c) := octal_loop 3 s len (i + 1) 0 0 in
    (i, sa ++ [chr c])
  else if x =? ch "x" then
    let '(i, c) := hex_loop (length s) s len (i + 2) 0 in
    (i, sa ++ [chr c])
  else if x =? ch "<" then angle_loop (length s) s len (i + 2) 0 0 sa
  else (i + 2, sa ++ [byte_at s (i + 1)]).

(** The loop of [cp_unquote]; the result is the final [(i, start, sa)]. *)
Fixpoint unquote_loop (fuel : nat) (str : Str) (len i start quote_state : Z)
    (sa : Str) : Z * Z * Str :=
  match fuel with
  | O => (i, start, sa)
  | S fuel' =>
      if i <? len then
        let x := char_at str i in
        if (x =? DQUOTE) || (x =? SQUOTE) then
          if quote_state =? 0 then
            let sa := if start <? i
                      then sa ++ substring str start (i - start) else sa in
            unquote_loop fuel' str len (i + 1) (i + 1) x sa
          else if quote_state =? x then
            let sa := if start <? i
                      then sa ++ substring str start (i - start) else sa in
            unquote_loop fuel' str len (i + 1) (i + 1) 0 sa
          else unquote_loop fuel' str len (i + 1) start quote_state sa
        else if x =? ch "\" then
          if (i <? len - 1)
             && ((quote_state =? DQUOTE)
                 || ((quote_state =? 0) && (char_at str (i + 1) =? ch "<")))
          then
            let '(start, sa) :=
              process_backslash str i len (sa ++ substring str start (i - start)) in
            unquote_loop fuel' str len (start - 1 + 1) start quote_state sa
          else unquote_loop fuel' str len (i + 1) start quote_state sa
        else unquote_loop fuel' str len (i + 1) start quote_state sa
      else (i, start, sa)
  end.

Definition cp_unquote (in_str : Str) : Str :=
  let str := fst (partial_uncomment in_str 0 false) in
  let len := slen str in
  let '(i, start, sa) := unquote_loop (length str) str len 0 0 0 [] in
  if start =? 0 then str
  else sa ++ substring str start (i - start).

(** The loop of [cp_quote]; the result is the final [(start, sa)]. *)
Fixpoint quote_loop (fuel : nat) (str : Str) (allow_newlines : bool)
    (i start : Z) (sa : Str) : Z * Str :=
  match fuel with
  | O => (start, sa)
  | S fuel' =>
      if negb (i <? slen str) then (start, sa) else
      let u := char_at str i in
      let flush := sa ++ substring str start (i - start) in
      if (u =? ch "\") || (u =? DQUOTE) || (u =? ch "$") then
        quote_loop fuel' str allow_newlines (i + 1) (i + 1)
          (flush ++ [chr (ch "\"); byte_at str i])
      else if u =? TAB then
        quote_loop fuel' str allow_newlines (i + 1) (i + 1)
          (flush ++ lit "\t")
      else if u =? CR then
        quote_loop fuel' str allow_newlines (i + 1) (i + 1)
          (flush ++ lit "\r")
      else if u =? NL then
        if negb allow_newlines
        then quote_loop fuel' str allow_newlines (i + 1) (i + 1)
               (flush ++ lit "\n")
        else quote_loop fuel' str allow_newlines (i + 1) start sa
      else if (u <? 32) || (127 <=? u) then
        quote_loop fuel' str allow_newlines (i + 1) (i + 1)
          (flush ++ [chr (ch "\"); chr (ch "0" + Z.shiftr u 6);
                     chr (ch "0" + Z.land (Z.shiftr u 3) 7);
                     chr (ch "0" + Z.land u 7)])
      else quote_loop fuel' str allow_newlines (i + 1) start sa
  end.

Definition cp_quote (str : Str) (allow_newlines : bool) : Str :=
  match str with
  | [] => [chr DQUOTE; chr DQUOTE]
  | _ =>
      let len := slen str in
      let '(start, sa) :=
        quote_loop (length str) str allow_newlines 0 0 [chr DQUOTE] in
      sa ++ substring str start (len - start) ++ [chr DQUOTE]
  end.


(** ** Integers *)

(** The values of [cp_errno]. *)
Inductive CpErrno := CPE_OK | CPE_FORMAT | CPE_NEGATIVE | CPE_OVERFLOW
                   | CPE_INVALID.

Definition errno_eqb (a b : CpErrno) : bool :=
  match a, b with
  | CPE_OK, CPE_OK | CPE_FORMAT, CPE_FORMAT | CPE_NEGATIVE, CPE_NEGATIVE
  | CPE_OVERFLOW, CPE_OVERFLOW | CPE_INVALID, CPE_INVALID => true
  | _, _ => false
  end.

(** The digit loop of [cp_unsigned]: the final [(i, val, cp_errno)]. *)
Fixpoint unsigned_loop (fuel : nat) (s : Str) (len base i val : Z)
    (cp_errno : CpErrno) : Z * Z * CpErrno :=
  match fuel with
  | O => (i, val, cp_errno)
  | S fuel' =>
      if i <? len then
        let x := char_at s i in
        let new_val := u32 (val * base) in
        let next (new_val : Z) :=
          unsigned_loop fuel' s len base (i + 1) new_val
            (if new_val <? val then CPE_OVERFLOW else cp_errno) in
        if (ch "0" <=? x) && (x <=? ch "9") && (x - ch "0" <? base)
        then next (u32 (new_val + (x - ch "0")))
        else if (ch "A" <=? x) && (x <=? ch "Z") && (x - ch "A" + 10 <? base)
        then next (u32 (new_val + (x - ch "A" + 10)))
        else if (ch "a" <=? x) && (x <=? ch "z") && (x - ch "a" + 10 <? base)
        then next (u32 (new_val + (x - ch "a" + 10)))
        else (i, val, cp_errno)
      else (i, val, cp_errno)
  end.

(** [cp_unsigned(str, base, &return_value)] run with [cp_errno] holding
    [e]: the value written when the call returns true, and [cp_errno]
    afterwards. *)
Definition cp_unsigned (str : Str) (base : Z) (e : CpErrno)
  : option Z * CpErrno :=
  let len := slen str in
  let i := 0 in
  let i := if (i <? len) && (char_at str i =? ch "+") then i + 1 else i in
  let '(i, base) :=
    if ((base <=? 0) || (base =? 16)) && (i <? len - 1)
       && (char_at str i =? ch "0")
       && ((char_at str (i + 1) =? ch "x") || (char_at str (i + 1) =? ch "X"))
    then (i + 2, 16)
    else if (base <=? 0) && (char_at str i =? ch "0") then (i, 8)
    else if base <=? 0 then (i, 10)
    else (i, base) in
  if i =? len then (None, e)
  else
    let '(i, val, e) := unsigned_loop (length str) str len base i 0 CPE_OK in
    if negb (i =? len) then (None, e)
    else (Some (if errno_eqb e CPE_OK then val else 4294967295), e).

(** [cp_unsigned(str, &return_value)]. *)
Definition cp_unsigned_auto (str : Str) (e : CpErrno) : option Z * CpErrno :=
  cp_unsigned str 0 e.

(** [cp_integer(str, base, &return_value)]. *)
Definition cp_integer (str : Str) (base : Z) (e : CpErrno)
  : option Z * CpErrno :=
  if slen str =? 0 then (None, e)
  else
    let negative := char_at str 0 =? ch "-" in
    let '(ok, e) :=
      if negative then cp_unsigned (substring_from str 1) base e
      else cp_unsigned str base e in
    match ok with
    | None => (None, e)
    | Some value =>
        if errno_eqb e CPE_OVERFLOW then (Some 2147483647, e)
        else if negb negative && (2147483648 <=? value)
        then (Some 2147483647, CPE_OVERFLOW)
        else if negative && (2147483648 <? value)
        then (Some (s32 2147483648), CPE_OVERFLOW)
        else if negative then (Some (s32 (u32 (- value))), e)
        else (Some (s32 value), e)
    end.

(** [cp_integer(str, &return_value)]. *)
Definition cp_integer_auto (str : Str) (e : CpErrno) : option Z * CpErrno :=
  cp_integer str (-1) e.

(** ** Fixed-point reals *)

(** [for (c = from; c < stop1 && c < stop2; c++) acc = 10*acc + *c - '0'] *)
Fixpoint digits_loop (fuel : nat) (s : Str) (c stop1 stop2 acc : Z) : Z :=
  match fuel with
  | O => acc
  | S fuel' =>
      if (c <? stop1) && (c <? stop2)
      then digits_loop fuel' s (c + 1) stop1 stop2
             (s32 (10 * acc + char_at s c - ch "0"))
      else acc
  end.

(** A loop of the fraction part of [cp_real10]:
    [for (; c < stop && frac_digits > 0; c++, frac_digits--)], with the
    body [frac_part = 10*frac_part + *c - '0'] when [read] is set and an
    empty body otherwise. *)
Fixpoint frac_loop (fuel : nat) (s : Str) (read : bool)
    (c stop frac_digits frac_part : Z) : Z * Z * Z :=
  match fuel with
  | O => (c, frac_digits, frac_part)
  | S fuel' =>
      if (c <? stop) && (0 <? frac_digits)
      then frac_loop fuel' s read (c + 1) stop (frac_digits - 1)
             (if read then s32 (10 * frac_part + char_at s c - ch "0")
              else frac_part)
      else (c, frac_digits, frac_part)
  end.

(** The exponent digits of [cp_real10]: the final [(s, exponent)]. *)
Fixpoint exponent_loop (fuel : nat) (str : Str) (s last exponent : Z)
  : Z * Z :=
  match fuel with
  | O => (s, exponent)
  | S fuel' =>
      if (s <? last) && isdigit (char_at str s)
      then exponent_loop fuel' str (s + 1) last
             (s32 (10 * exponent + char_at str s - ch "0"))
      else (s, exponent)
  end.

(** [cp_real10(str, frac_digits, &int_part, &frac_part)]; pointers into the
    text are offsets from [str.data()]. *)
Definition cp_real10_parts (str : Str) (frac_digits : Z)
  : option (Z * Z) * CpErrno :=
  let last := slen str in
  let s := 0 in
  if s =? last then (None, CPE_FORMAT)
  else if 9 <? frac_digits then (None, CPE_INVALID)
  else
    let negative := char_at str s =? ch "-" in
    let s := if (char_at str s =? ch "-") || (char_at str s =? ch "+")
             then s + 1 else s in
    let int_s := s in
    let s := advance (length str)
               (fun s => (s <? last) && isdigit (char_at str s)) s in
    let int_e := s in
    let '(s, frac_s, frac_e) :=
      if (s <? last) && (char_at str s =? ch ".") then
        let frac_s := s + 1 in
        let s := advance (length str)
                   (fun s => (s <? last) && isdigit (char_at str s)) frac_s in
        (s, frac_s, s)
      else (s, s, s) in
    if (int_s =? int_e) && (frac_s =? frac_e) then (None, CPE_FORMAT)
    else
      let exp_result :=
        if (s <? last) && ((char_at str s =? ch "E") || (char_at str s =? ch "e"))
        then
          let s := s + 1 in
          if s =? last then None
          else
            let negexp := char_at str s =? ch "-" in
            let s := if (char_at str s =? ch "-") || (char_at str s =? ch "+")
                     then s + 1 else s in
            if (last <=? s) || negb (isdigit (char_at str s)) then None
            else
              let '(s, exponent) := exponent_loop (length str) str s last 0 in
              Some (s, if negexp then s32 (- exponent) else exponent)
        else Some (s, 0) in
      match exp_result with
      | None => (None, CPE_FORMAT)
      | Some (s, exponent) =>
          let int_part :=
            digits_loop (length str) str int_s int_e (int_e + exponent) 0 in
          let int_part :=
            digits_loop (length str) str frac_s frac_e (frac_s + exponent)
              int_part in
          let int_part :=
            Z.iter (frac_s + exponent - frac_e) (fun p => s32 (10 * p))
              int_part in
          let int_part := if negative then s32 (- int_part) else int_part in
          let '(c, frac_digits, frac_part) :=
            frac_loop 9 str false (int_e + exponent) int_s frac_digits 0 in
          let '(c, frac_digits, frac_part) :=
            frac_loop 9 str true c int_e frac_digits frac_part in
          let c := frac_s + (if 0 <? exponent then exponent else 0) in
          let '(c, frac_digits, frac_part) :=
            frac_loop 9 str true c frac_e frac_digits frac_part in
          let frac_part :=
            Z.iter frac_digits (fun p => s32 (10 * p)) frac_part in
          let frac_part := if negative then s32 (- frac_part) else frac_part in
          if negb (s =? slen str) then (None, CPE_FORMAT)
          else (Some (int_part, frac_part), CPE_OK)
      end.

(** The nine rounds of the conversion loop of [cp_unsigned_real2]. *)
Fixpoint real2_round (n : nat) (two fraction frac_part : Z) : Z :=
  match n with
  | O => fraction
  | S n' =>
      let digit := u32 (Z.rem frac_part 10) in
      real2_round n' two
        (s32 (u32 (u32 fraction + u32 (digit * two)) / 10))
        (Z.quot frac_part 10)
  end.

(** [cp_unsigned_real2(str, frac_bits, &return_value)]. *)
Definition cp_unsigned_real2 (str : Str) (frac_bits : Z)
  : option Z * CpErrno :=
  if 29 <=? frac_bits then (None, CPE_INVALID)
  else
    match cp_real10_parts str 9 with
    | (None, _) => (None, CPE_FORMAT)
    | (Some (int_part, frac_part), _) =>
        if (int_part <? 0) || (frac_part <? 0) then (None, CPE_NEGATIVE)
        else if s32 (s32 (Z.shiftl 1 (32 - frac_bits)) - 1) <? int_part
        then (None, CPE_OVERFLOW)
        else
          let two := u32 (Z.shiftl 2 frac_bits) in
          let fraction := real2_round 9 two 0 frac_part in
          let fraction := Z.quot (s32 (fraction + 1)) 2 in
          (Some (u32 (s32 (s32 (Z.shiftl int_part frac_bits)) + fraction)),
           CPE_OK)
    end.

(** ** Network addresses *)

(** The named-address lookup service [AddressInfo] of the router, which is
    not part of this file: each query gives the bytes it writes when it
    answers true. *)
Record AddressInfo := {
  query_ip : Str -> option (list Z);
  query_ip6 : Str -> option (list Z);
  query_ip6_prefix : Str -> option (list Z * Z)
}.

(** [a[i]] for an array of bytes or of shorts. *)
Definition elt (a : list Z) (i : Z) : Z :=
  if i <? 0 then 0 else nth (Z.to_nat i) a 0.

(** [a[i] = v]; the source never writes outside the array except where
    noted at the call. *)
Fixpoint upd_nat (a : list Z) (i : nat) (v : Z) : list Z :=
  match a, i with
  | [], _ => []
  | _ :: t, O => v :: t
  | h :: t, S i' => h :: upd_nat t i' v
  end.

Definition upd (a : list Z) (i v : Z) : list Z :=
  if i <? 0 then a else upd_nat a (Z.to_nat i) v.

(** The digits of one octet in [cp_ip_address]: the final [(pos, part)]. *)
Fixpoint octet_loop (fuel : nat) (s : Str) (len pos part : Z) : Z * Z :=
  match fuel with
  | O => (pos, part)
  | S fuel' =>
      if (pos <? len) && isdigit (char_at s pos) && (part <=? 255)
      then octet_loop fuel' s len (pos + 1) (part * 10 + char_at s pos - ch "0")
      else (pos, part)
  end.

(** The loop over the four octets: [None] is the jump to [bad]. *)
Fixpoint ip_octets (n : nat) (s : Str) (len d pos : Z) (value : list Z)
  : option (Z * list Z) :=
  match n with
  | O => Some (pos, value)
  | S n' =>
      let pos := if negb (d =? 0) && (pos <? len) && (char_at s pos =? ch ".")
                 then pos + 1 else pos in
      if (len <=? pos) || negb (isdigit (char_at s pos)) then None
      else
        let '(pos, part) := octet_loop (length s) s len pos 0 in
        if 255 <? part then None
        else ip_octets n' s len (d + 1) pos (upd value d part)
  end.

Section Addresses.

Variable ai : AddressInfo.

(** [cp_ip_address(str, return_value, context)]. *)
Definition cp_ip_address (str : Str) : option (list Z) :=
  let len := slen str in
  match ip_octets 4 str len 0 0 [0; 0; 0; 0] with
  | Some (pos, value) =>
      if pos =? len then Some value else query_ip ai str
  | None => query_ip ai str
  end.

Definition bad_ip6_address (str : Str) : option (list Z) := query_ip6 ai str.

(** The digits of one group in [cp_ip6_address]: the final [(pos, part)]. *)
Fixpoint group_loop (fuel : nat) (s : Str) (len pos part : Z) : Z * Z :=
  match fuel with
  | O => (pos, part)
  | S fuel' =>
      if (pos <? len) && isxdigit (char_at s pos) && (part <=? 65535)
      then group_loop fuel' s len (pos + 1)
             (u32 (Z.shiftl part 4 + xvalue (char_at s pos)))
      else (pos, part)
  end.

(** What the loop over the groups of [cp_ip6_address] leaves behind. *)
Record ip6_scan := {
  sc_d : Z;
  sc_pos : Z;
  sc_coloncolon : Z;
  sc_last_part_pos : Z;
  sc_parts : list Z
}.

(** The start of a round of the loop of [cp_ip6_address]: a [::] is
    passed once, and otherwise a colon that a digit follows once a group
    has been read.  The result is the new [(coloncolon, pos)]. *)
Definition skip_colons (s : Str) (len d pos coloncolon : Z) : Z * Z :=
  if (coloncolon <? 0) && (pos <? len - 1) && (char_at s pos =? ch ":")
     && (char_at s (pos + 1) =? ch ":")
  then (d, pos + 2)
  else if negb (d =? 0) && (pos <? len - 1) && (char_at s pos =? ch ":")
          && isxdigit (char_at s (pos + 1))
  then (coloncolon, pos + 1)
  else (coloncolon, pos).

(** The loop [for (d = 0; d < 8; d++)]; [None] is the early
    [return bad_ip6_address(...)] on a group above [0xFFFF]. *)
Fixpoint ip6_groups (n : nat) (s : Str) (len : Z) (st : ip6_scan)
  : option ip6_scan :=
  match n with
  | O => Some st
  | S n' =>
      let d := sc_d st in
      let '(cc, pos) := skip_colons s len d (sc_pos st) (sc_coloncolon st) in
      if (len <=? pos) || negb (isxdigit (char_at s pos)) then
        Some {| sc_d := d; sc_pos := pos; sc_coloncolon := cc;
                sc_last_part_pos := sc_last_part_pos st;
                sc_parts := sc_parts st |}
      else
        let '(pos', part) := group_loop (length s) s len pos 0 in
        if 65535 <? part then None
        else ip6_groups n' s len
               {| sc_d := d + 1; sc_pos := pos'; sc_coloncolon := cc;
                  sc_last_part_pos := pos;
                  sc_parts := upd (sc_parts st) d part |}
  end.

(** [for (int x = d - 1; x >= coloncolon; x--) parts[x + num_zeros] = parts[x]] *)
Fixpoint shift_parts (fuel : nat) (parts : list Z) (x cc num_zeros : Z)
  : list Z :=
  match fuel with
  | O => parts
  | S fuel' =>
      if cc <=? x
      then shift_parts fuel' (upd parts (x + num_zeros) (elt parts x))
             (x - 1) cc num_zeros
      else parts
  end.

(** [for (int x = coloncolon; x < coloncolon + num_zeros; x++) parts[x] = 0] *)
Fixpoint zero_parts (fuel : nat) (parts : list Z) (x stop : Z) : list Z :=
  match fuel with
  | O => parts
  | S fuel' =>
      if x <? stop then zero_parts fuel' (upd parts x 0) (x + 1) stop
      else parts
  end.

(** The sixteen bytes written from the eight groups. *)
Definition ip6_bytes (parts : list Z) : list Z :=
  flat_map (fun p => [Z.land (Z.shiftr p 8) 255; Z.land p 255]) parts.

(** [cp_ip6_address(str, return_value, context)].  The array [parts] is
    not initialised in the source; every entry is written before it is
    read.  With [d = 0] and a text starting with a dot that the lookup
    service knows, the source writes [parts[-1]]; [upd] leaves the array
    alone there. *)
Definition cp_ip6_address (str : Str) : option (list Z) :=
  let len := slen str in
  match ip6_groups 8 str len
          {| sc_d := 0; sc_pos := 0; sc_coloncolon := -1;
             sc_last_part_pos := 0; sc_parts := repeat 0 8 |} with
  | None => bad_ip6_address str
  | Some st =>
      let d := sc_d st in
      let pos := sc_pos st in
      let coloncolon := sc_coloncolon st in
      let parts := sc_parts st in
      let '(d, pos, parts) :=
        if (pos <? len) && (d <=? 7) && (char_at str pos =? ch ".") then
          match cp_ip_address (substring_from str (sc_last_part_pos st)) with
          | Some ip4a =>
              let parts := upd parts (d - 1)
                             (Z.shiftl (elt ip4a 0) 8 + elt ip4a 1) in
              let parts := upd parts d
                             (Z.shiftl (elt ip4a 2) 8 + elt ip4a 3) in
              (d + 1, len, parts)
          | None => (d, pos, parts)
          end
        else (d, pos, parts) in
      if ((d <? 8) && (coloncolon <? 0)) || ((d =? 8) && (0 <=? coloncolon))
      then bad_ip6_address str
      else
        let parts :=
          if d <? 8 then
            let num_zeros := 8 - d in
            let parts := shift_parts 8 parts (d - 1) coloncolon num_zeros in
            zero_parts 8 parts coloncolon (coloncolon + num_zeros)
          else parts in
        if pos <? len then bad_ip6_address str
        else Some (ip6_bytes parts)
  end.

(** [bad_ip6_prefix(str, return_value, return_bits, allow_bare_address)]. *)
Definition bad_ip6_prefix (str : Str) (allow_bare_address : bool)
  : option (list Z * Z) :=
  match query_ip6_prefix ai str with
  | Some r => Some r
  | None =>
      if allow_bare_address then
        match query_ip6 ai str with
        | Some v => Some (v, 128)
        | None => None
        end
      else None
  end.

(** [String::find_right(c)]: the last position of [c], or [-1]. *)
Fixpoint find_right_from (s : Str) (c : Z) (i : Z) (found : Z) : Z :=
  match s with
  | [] => found
  | b :: t => find_right_from t c (i + 1) (if code b =? c then i else found)
  end.

Definition find_right (s : Str) (c : Z) : Z := find_right_from s c 0 (-1).

(** [for (; pos < 16 && mask[pos] == 255; pos++) relevant_bits += 8] *)
Fixpoint mask_ones (fuel : nat) (mask : list Z) (pos bits : Z) : Z * Z :=
  match fuel with
  | O => (pos, bits)
  | S fuel' =>
      if (pos <? 16) && (elt mask pos =? 255)
      then mask_ones fuel' mask (pos + 1) (bits + 8)
      else (pos, bits)
  end.

(** [for (int i = 0; i < 8; i++) if (comp_plus_1 == (1 << (8-i))) ...]:
    the final [(pos, relevant_bits)]. *)
Fixpoint mask_partial (fuel : nat) (comp_plus_1 i pos bits : Z) : Z * Z :=
  match fuel with
  | O => (pos, bits)
  | S fuel' =>
      if i <? 8 then
        if comp_plus_1 =? Z.shiftl 1 (8 - i) then (pos + 1, bits + i)
        else mask_partial fuel' comp_plus_1 (i + 1) pos bits
      else (pos, bits)
  end.

(** [for (; pos < 16 && mask[pos] == 0; pos++) pos++] *)
Fixpoint mask_zeros (fuel : nat) (mask : list Z) (pos : Z) : Z :=
  match fuel with
  | O => pos
  | S fuel' =>
      if (pos <? 16) && (elt mask pos =? 0)
      then mask_zeros fuel' mask (pos + 1 + 1)
      else pos
  end.

(** The check of a mask given as an address in [cp_ip6_prefix]: the bit
    count, or [None] for the immediate [return false]. *)
Definition mask_bits (mask : list Z) : option Z :=
  let '(pos, bits) := mask_ones 16 mask 0 0 in
  let '(pos, bits) :=
    if pos <? 16 then
      let comp_plus_1 := Z.land (Z.lnot (elt mask pos)) 255 + 1 in
      mask_partial 8 comp_plus_1 0 pos bits
    else (pos, bits) in
  let pos := mask_zeros 16 mask pos in
  if pos <? 16 then None else Some bits.

(** [cp_ip6_prefix(str, return_value, return_bits, allow_bare_address,
    context)]. *)
Definition cp_ip6_prefix (str : Str) (allow_bare_address : bool)
  : option (list Z * Z) :=
  let slash := find_right str (ch "/") in
  if (slash <? 0) && negb allow_bare_address
  then bad_ip6_prefix str allow_bare_address
  else
    let ip_part := if 0 <=? slash then substring str 0 slash else str in
    let mask_part := if 0 <=? slash then substring_from str (slash + 1)
                     else [] in
    match cp_ip6_address ip_part with
    | None => bad_ip6_prefix str allow_bare_address
    | Some value =>
        if allow_bare_address && (slen mask_part =? 0) then Some (value, 64)
        else
          match cp_ip6_address mask_part with
          | Some mask =>
              match mask_bits mask with
              | None => None
              | Some bits => Some (value, bits)
              end
          | None =>
              match cp_integer_auto mask_part CPE_OK with
              | (Some bits, _) =>
                  if (0 <=? bits) && (bits <=? 128) then Some (value, bits)
                  else bad_ip6_prefix str allow_bare_address
              | (None, _) => bad_ip6_prefix str allow_bare_address
              end
          end
    end.

End Addresses.

(** A router that knows no names. *)
Definition no_names : AddressInfo :=
  {| query_ip := fun _ => None; query_ip6 := fun _ => None;
     query_ip6_prefix := fun _ => None |}.

(** ** Unparsing *)

(** The decimal digits [StringAccum] writes for an [unsigned]; [fuel]
    bounds the number of digits. *)
Fixpoint decimal_loop (fuel : nat) (n : Z) (acc : Str) : Str :=
  match fuel with
  | O => acc
  | S fuel' =>
      let acc := chr (ch "0" + n mod 10) :: acc in
      if n / 10 =? 0 then acc else decimal_loop fuel' (n / 10) acc
  end.

Definition unparse_unsigned (n : Z) : Str := decimal_loop 20 n [].

(** The [while] loop that scales [inaccuracy_rounder]. *)
Fixpoint rounder_loop (fuel : nat) (one r : Z) : Z :=
  match fuel with
  | O => r
  | S fuel' => if u32 (r * 10) <? one then rounder_loop fuel' one (u32 (r * 10))
               else r
  end.

(** The [do ... while] loop of [cp_unparse_real2]. *)
Fixpoint real2_digits (fuel : nat) (frac_bits one rounder real allowable : Z)
    (sa : Str) : Str :=
  match fuel with
  | O => sa
  | S fuel' =>
      let real := if one <? allowable
                  then u32 (real + u32 (Z.shiftr one 1 - rounder)) else real in
      let sa := sa ++ [chr (ch "0" + Z.shiftr real frac_bits)] in
      let real := u32 (10 * Z.land real (one - 1)) in
      let allowable := u32 (allowable * 10) in
      if allowable <? real
      then real2_digits fuel' frac_bits one rounder real allowable sa
      else sa
  end.

(** [cp_unparse_real2(unsigned real, int frac_bits)]. *)
Definition cp_unparse_real2 (real frac_bits : Z) : Str :=
  let int_part := Z.shiftr real frac_bits in
  let sa := unparse_unsigned int_part in
  let one := u32 (Z.shiftl 1 frac_bits) in
  let real := Z.land real (u32 (one - 1)) in
  if real =? 0 then sa
  else
    let sa := sa ++ lit "." in
    let real := u32 (10 * real + 5) in
    let rounder := rounder_loop 32 one 5 in
    real2_digits 64 frac_bits one rounder real 10 sa.


(** ** Keywords *)

(** The scan of [cp_keyword]: [None] when a character that no keyword
    holds is met, else the position of the first space or the length. *)
Fixpoint keyword_scan (fuel : nat) (s : Str) (len i : Z) : option Z :=
  match fuel with
  | O => Some i
  | S fuel' =>
      if i <? len then
        let x := char_at s i in
        if (x =? SPACE) || (x =? FF) || (x =? NL) || (x =? CR) || (x =? TAB)
           || (x =? VT)
        then Some i
        else if (x =? ch "_") || (x =? ch ".") || (x =? ch ":")
        then keyword_scan fuel' s len (i + 1)
        else if negb (isalnum x) then None
        else keyword_scan fuel' s len (i + 1)
      else Some i
  end.

(** [cp_keyword(str, &keyword, &rest)]; [want_rest] tells whether [rest] is
    non-null.  The result is [(keyword, rest)]. *)
Definition cp_keyword (str : Str) (want_rest : bool) : option (Str * Str) :=
  let len := slen str in
  match keyword_scan (length str) str len 0 with
  | None => None
  | Some i =>
      if (i =? 0) || (negb want_rest && (i <? len)) then None
      else
        let keyword := substring str 0 i in
        if want_rest then
          let i := advance (length str)
                     (fun i => (i <? len) && isspace (char_at str i)) i in
          Some (keyword, substring_from str i)
        else Some (keyword, [])
  end.

(** ** Argument types and the registry *)

(** The [extra] requirement of an argument type ([cpArgNormal] is 0). *)
Inductive ArgExtra := cpArgNormal | cpArgStore2 | cpArgExtraInt.

Definition extra_eqb (a b : ArgExtra) : bool :=
  match a, b with
  | cpArgNormal, cpArgNormal | cpArgStore2, cpArgStore2
  | cpArgExtraInt, cpArgExtraInt => true
  | _, _ => false
  end.

Definition cpiEnd : Z := 0.
Definition cpiOptional : Z := 1.
Definition cpiUnmixedKeywords : Z := 2.
Definition cpiMixedKeywords : Z := 3.
Definition cpiIgnore : Z := 4.
Definition cpiIgnoreRest : Z := 5.
Definition cpiArgument : Z := 6.
Definition cpiString : Z := 7.
Definition cpiWord : Z := 8.
Definition cpiBool : Z := 9.
Definition cpiByte : Z := 10.
Definition cpiShort : Z := 11.
Definition cpiUnsignedShort : Z := 12.
Definition cpiInteger : Z := 13.
Definition cpiUnsigned : Z := 14.
Definition cpiReal2 : Z := 15.
Definition cpiNonnegReal2 : Z := 16.
Definition cpiReal10 : Z := 17.
Definition cpiNonnegReal10 : Z := 18.
Definition cpiMilliseconds : Z := 19.
Definition cpiTimeval : Z := 20.
Definition cpiIPAddress : Z := 21.
Definition cpiIPPrefix : Z := 22.
Definition cpiIPAddressOrPrefix : Z := 23.
Definition cpiIPAddressSet : Z := 24.
Definition cpiEthernetAddress : Z := 25.
Definition cpiElement : Z := 26.
Definition cpiIP6Address : Z := 27.
Definition cpiIP6Prefix : Z := 28.
Definition cpiIP6AddressOrPrefix : Z := 29.
Definition cpiDesCblock : Z := 30.

(** A function pointer is the address of the function. *)
Definition funptr := Z.

(** [struct cp_argtype]; the [next] link is the tail of the bucket's
    list. *)
Record cp_argtype := {
  at_name : Str;
  at_parse : funptr;
  at_store : funptr;
  at_extra : ArgExtra;
  at_description : Str;
  at_internal : Z;
  at_use_count : Z
}.

Definition NARGTYPE_HASH : Z := 128.

(** [argtype_hash]: the chain of each bucket. *)
Definition Registry := Z -> list cp_argtype.

Definition str_eqb (a b : Str) : bool :=
  if list_eq_dec Byte.byte_eq_dec a b then true else false.

Definition argtype_bucket (command : Str) : Z :=
  match command with
  | [] => 0
  | b :: _ => (code b mod 32 + slen command * 32) mod NARGTYPE_HASH
  end.

Definition find_argtype (reg : Registry) (command : Str) : option cp_argtype :=
  find (fun t => str_eqb (at_name t) command) (reg (argtype_bucket command)).

Definition set_bucket (reg : Registry) (bucket : Z) (chain : list cp_argtype)
  : Registry :=
  fun b => if b =? bucket then chain else reg b.

(** [cp_register_argtype(name, desc, extra, parse, store, internal)]: the
    result and the registry afterwards (allocation does not fail). *)
Definition cp_register_argtype (reg : Registry) (name desc : Str)
    (extra : ArgExtra) (parse store : funptr) (internal : Z) : Z * Registry :=
  let bucket := argtype_bucket name in
  match find_argtype reg name with
  | Some t =>
      let bump (u : cp_argtype) :=
        if str_eqb (at_name u) name
        then {| at_name := at_name u; at_parse := at_parse u;
                at_store := at_store u; at_extra := at_extra u;
                at_description := at_description u;
                at_internal := at_internal u;
                at_use_count := at_use_count u + 1 |}
        else u in
      let reg := set_bucket reg bucket (map bump (reg bucket)) in
      if negb (str_eqb desc (at_description t))
         || negb (extra_eqb extra (at_extra t))
         || negb (parse =? at_parse t) || negb (store =? at_store t)
         || negb (internal =? at_internal t)
      then (-1, reg) else (0, reg)
  | None =>
      let t := {| at_name := name; at_parse := parse; at_store := store;
                  at_extra := extra; at_description := desc;
                  at_internal := internal; at_use_count := 1 |} in
      (0, set_bucket reg bucket (t :: reg bucket))
  end.

(** The union [v] of a [cp_value], by the member last written. *)
Inductive cp_union :=
| V_i (i : Z)
| V_u (u : Z)
| V_b (b : bool)
| V_is (sec usec : Z)
| V_address (bytes : list Z)
| V_element (e : Z).

(** Reading [v.i]: an [unsigned] is read back as the [int] of the same
    bits; after another member the model reads 0. *)
Definition v_i (v : cp_union) : Z :=
  match v with
  | V_i i => i
  | V_u u => s32 u
  | V_b b => if b then 1 else 0
  | _ => 0
  end.

Definition v_u (v : cp_union) : Z :=
  match v with
  | V_u u => u
  | V_i i => u32 i
  | V_b b => if b then 1 else 0
  | _ => 0
  end.

(** [struct cp_value]; pointers to the caller's storage are addresses. *)
Record cp_value := {
  argtype : option cp_argtype;
  keyword : option Str;
  description : Str;
  extra : Z;
  store : Z;
  store2 : Z;
  v : cp_union;
  v_string : Str
}.

Definition set_argtype (x : cp_value) (t : option cp_argtype) : cp_value :=
  {| argtype := t; keyword := keyword x; description := description x;
     extra := extra x; store := store x; store2 := store2 x; v := v x;
     v_string := v_string x |}.

Definition set_keyword (x : cp_value) (k : option Str) : cp_value :=
  {| argtype := argtype x; keyword := k; description := description x;
     extra := extra x; store := store x; store2 := store2 x; v := v x;
     v_string := v_string x |}.

Definition set_v (x : cp_value) (u : cp_union) : cp_value :=
  {| argtype := argtype x; keyword := keyword x; description := description x;
     extra := extra x; store := store x; store2 := store2 x; v := u;
     v_string := v_string x |}.

Definition set_v_string (x : cp_value) (s : Str) : cp_value :=
  {| argtype := argtype x; keyword := keyword x; description := description x;
     extra := extra x; store := store x; store2 := store2 x; v := v x;
     v_string := s |}.

Definition blank_value : cp_value :=
  {| argtype := None; keyword := None; description := []; extra := 0;
     store := 0; store2 := 0; v := V_i 0; v_string := [] |}.

(** [cp_values[i]] and the update of one entry of the array. *)
Definition value_at (vals : list cp_value) (i : Z) : cp_value :=
  if i <? 0 then blank_value else nth (Z.to_nat i) vals blank_value.

Fixpoint modify_nat (vals : list cp_value) (i : nat) (f : cp_value -> cp_value)
  : list cp_value :=
  match vals, i with
  | [], _ => []
  | x :: t, O => f x :: t
  | x :: t, S i' => x :: modify_nat t i' f
  end.

Definition modify (vals : list cp_value) (i : Z) (f : cp_value -> cp_value)
  : list cp_value :=
  if i <? 0 then vals else modify_nat vals (Z.to_nat i) f.

Definition CP_VALUES_SIZE : Z := 80.

Definition kwSuccess : Z := 0.
Definition kwDupKeyword : Z := -1.
Definition kwNoKeyword : Z := -2.
Definition kwUnkKeyword : Z := -3.

(** The search [for (int i = npositional; i < nvalues; i++)] of
    [assign_keyword_argument]: the slot whose keyword is [kw]. *)
Fixpoint keyword_slot (fuel : nat) (vals : list cp_value) (kw : Str)
    (i nvalues : Z) : option Z :=
  match fuel with
  | O => None
  | S fuel' =>
      if i <? nvalues then
        match keyword (value_at vals i) with
        | Some k => if str_eqb kw k then Some i
                    else keyword_slot fuel' vals kw (i + 1) nvalues
        | None => keyword_slot fuel' vals kw (i + 1) nvalues
        end
      else None
  end.

(** [assign_keyword_argument(arg, npositional, nvalues)] on the array
    [cp_values]: the result code and the array afterwards. *)
Definition assign_keyword_argument (vals : list cp_value) (arg : Str)
    (npositional nvalues : Z) : Z * list cp_value :=
  match cp_keyword arg true with
  | None => (kwNoKeyword, vals)
  | Some (kw, rest) =>
      if slen rest =? 0 then (kwNoKeyword, vals)
      else
        match keyword_slot (Z.to_nat (nvalues - npositional)) vals kw
                npositional nvalues with
        | Some i =>
            (kwSuccess,
             modify vals i (fun x => set_v_string (set_v x (V_i 1)) rest))
        | None => (kwUnkKeyword, vals)
        end
  end.

(** [add_keyword_error(sa, err, arg, argname, argno)]. *)
Definition add_keyword_error (sa : Str) (err : Z) (arg argname : Str)
    (argno : Z) : Str :=
  if 0 <=? err then sa
  else
    let sa := if 0 <? slen sa then sa ++ lit ", " else sa in
    if err =? kwNoKeyword
    then sa ++ lit "<" ++ argname ++ lit " " ++ unparse_unsigned (argno + 1)
            ++ lit ">"
    else
      let kw := match cp_keyword arg true with
                | Some (kw, _) => kw
                | None => []
                end in
      let sa := sa ++ kw in
      if err =? kwDupKeyword then sa ++ lit " (duplicate keyword)" else sa.

(** ** The binding engine *)

(** One argument of the variadic call.  [va_arg] at the wrong type or
    past the end is undefined in C; the model reads a null pointer or a
    zero there, which a well-formed call never meets. *)
Inductive va_item :=
| VaStr (s : option Str)
| VaInt (n : Z)
| VaPtr (p : Z).

Definition va_arg_str (val : list va_item) : option Str * list va_item :=
  match val with
  | VaStr s :: t => (s, t)
  | _ :: t => (None, t)
  | [] => (None, [])
  end.

Definition va_arg_int (val : list va_item) : Z * list va_item :=
  match val with
  | VaInt n :: t => (n, t)
  | _ :: t => (0, t)
  | [] => (0, [])
  end.

Definition va_arg_ptr (val : list va_item) : Z * list va_item :=
  match val with
  | VaPtr p :: t => (p, t)
  | _ :: t => (0, t)
  | [] => (0, [])
  end.

(** The error sink: the messages it was given, oldest first.
    [errh->nerrors()] is their number and [errh->error(...)] adds one and
    returns [-1]. *)
Definition ErrorHandler := list Str.

Definition nerrors (errh : ErrorHandler) : Z := Z.of_nat (length errh).

Definition error (errh : ErrorHandler) (msg : Str) : ErrorHandler :=
  errh ++ [msg].

(** The locals of [cp_va_parsev] that the declaration loop sets. *)
Record spec_state := {
  nvalues : Z;
  nrequired : Z;
  npositional : Z;
  mixed_keywords : bool;
  ignore_rest : bool;
  values : list cp_value;
  spec_errh : ErrorHandler
}.

(** The loop [while (1)] over the declarations; [inl] is the early
    [return errh->error("too many arguments ...")]. *)
Fixpoint read_spec (fuel : nat) (reg : Registry) (val : list va_item)
    (st : spec_state) : ErrorHandler + spec_state :=
  match fuel with
  | O => inr st
  | S fuel' =>
      if nvalues st =? CP_VALUES_SIZE - 1
      then inl (error (spec_errh st) (lit "too many arguments to cp_va_parsev!"))
      else
        let n := nvalues st in
        let vals :=
          modify (values st) n (fun x => set_keyword (set_argtype x None) None) in
        let '(kw, val, stop) :=
          if 0 <=? npositional st then
            let '(k, val) := va_arg_str val in
            (k, val, match k with None => true | Some _ => false end)
          else (None, val, false) in
        let vals := modify vals n (fun x => set_keyword x kw) in
        let done (errh : ErrorHandler) (nreq : Z) (rest : bool) :=
          inr {| nvalues := n; nrequired := nreq;
                 npositional := npositional st;
                 mixed_keywords := mixed_keywords st; ignore_rest := rest;
                 values := vals; spec_errh := errh |} in
        if stop then done (spec_errh st) (nrequired st) (ignore_rest st)
        else
          let '(command_name, val) := va_arg_str val in
          match command_name with
          | None => done (spec_errh st) (nrequired st) (ignore_rest st)
          | Some command_name =>
              match find_argtype reg command_name with
              | None =>
                  done (error (spec_errh st)
                          (lit "unknown argument type `" ++ command_name
                           ++ lit "'!"))
                       (nrequired st) (ignore_rest st)
              | Some t =>
                  let nreq := if nrequired st <? 0 then n else nrequired st in
                  if at_internal t =? cpiOptional then
                    read_spec fuel' reg val
                      {| nvalues := n; nrequired := nreq;
                         npositional := npositional st;
                         mixed_keywords := mixed_keywords st;
                         ignore_rest := ignore_rest st;
                         values := vals; spec_errh := spec_errh st |}
                  else if (at_internal t =? cpiUnmixedKeywords)
                          || (at_internal t =? cpiMixedKeywords) then
                    read_spec fuel' reg val
                      {| nvalues := n; nrequired := nreq;
                         npositional := if npositional st <? 0 then n
                                        else npositional st;
                         mixed_keywords := at_internal t =? cpiMixedKeywords;
                         ignore_rest := ignore_rest st;
                         values := vals; spec_errh := spec_errh st |}
                  else if at_internal t =? cpiIgnore then
                    read_spec fuel' reg val
                      {| nvalues := n + 1; nrequired := nrequired st;
                         npositional := npositional st;
                         mixed_keywords := mixed_keywords st;
                         ignore_rest := ignore_rest st;
                         values := modify vals n
                                     (fun x => set_argtype x (Some t));
                         spec_errh := spec_errh st |}
                  else if at_internal t =? cpiIgnoreRest then
                    done (spec_errh st) nreq true
                  else
                    let '(desc, val) := va_arg_str val in
                    let desc := match desc with Some d => d | None => [] end in
                    let '(ex, val) :=
                      if extra_eqb (at_extra t) cpArgExtraInt
                      then let '(x, val) := va_arg_int val in (Some x, val)
                      else (None, val) in
                    let '(st1, val) := va_arg_ptr val in
                    let '(st2, val) :=
                      if extra_eqb (at_extra t) cpArgStore2
                      then let '(x, val) := va_arg_ptr val in (Some x, val)
                      else (None, val) in
                    let fill (x : cp_value) :=
                      {| argtype := Some t; keyword := keyword x;
                         description := desc;
                         extra := match ex with Some e => e | None => extra x end;
                         store := st1;
                         store2 := match st2 with Some q => q
                                                | None => store2 x end;
                         v := V_i 0; v_string := v_string x |} in
                    read_spec fuel' reg val
                      {| nvalues := n + 1; nrequired := nrequired st;
                         npositional := npositional st;
                         mixed_keywords := mixed_keywords st;
                         ignore_rest := ignore_rest st;
                         values := modify vals n fill;
                         spec_errh := spec_errh st |}
              end
          end
  end.

(** The loop that assigns the arguments to positions: the final
    [(npositional_supplied, keyword_error_sa, cp_values)]. *)
Fixpoint assign_arguments (args : list Str) (i : Z) (argname : Str)
    (npos nvals : Z) (mixed ignore : bool)
    (supplied : Z) (kerr : Str) (vals : list cp_value)
  : Z * Str * list cp_value :=
  match args with
  | [] => (supplied, kerr, vals)
  | arg :: args' =>
      let continue := assign_arguments args' (i + 1) argname npos nvals
                        mixed ignore in
      if npos <=? supplied then
        let '(result, vals) := assign_keyword_argument vals arg npos nvals in
        if result =? kwDupKeyword
        then continue supplied (add_keyword_error kerr result arg argname i) vals
        else if (result =? kwSuccess) || ignore then continue supplied kerr vals
        else if result =? kwNoKeyword then continue (supplied + 1) kerr vals
        else continue supplied (add_keyword_error kerr result arg argname i) vals
      else
        let '(result, vals') :=
          if mixed then assign_keyword_argument vals arg npos nvals
          else (kwNoKeyword, vals) in
        if mixed && (0 <=? result) then continue supplied kerr vals'
        else if mixed && (result =? kwDupKeyword)
        then continue supplied (add_keyword_error kerr result arg argname i) vals'
        else
          continue (supplied + 1) kerr
            (modify vals' supplied (fun x => set_v_string x arg))
  end.

(** [for (i = from; i < stop; i++)] joining the keywords of the slots. *)
Fixpoint keywords_list (fuel : nat) (vals : list cp_value) (i npos nvals : Z)
    (sa : Str) : Str :=
  match fuel with
  | O => sa
  | S fuel' =>
      if i <? nvals then
        let sa := if npos <? i then sa ++ lit ", " else sa in
        let sa := sa ++ match keyword (value_at vals i) with
                        | Some k => k
                        | None => []
                        end in
        keywords_list fuel' vals (i + 1) npos nvals sa
      else sa
  end.

(** The usage signature of the arity error. *)
Fixpoint signature_loop (fuel : nat) (vals : list cp_value) (separator : Str)
    (i nreq npos : Z) (sa : Str) : Str :=
  match fuel with
  | O => sa
  | S fuel' =>
      if i <? npos then
        let sa := if i =? nreq
                  then sa ++ (if 0 <? nreq then lit " [" else lit "[")
                  else sa in
        let sa := if negb (i =? 0) then sa ++ separator else sa in
        let sa := sa ++ match argtype (value_at vals i) with
                        | Some t => at_description t
                        | None => lit "??"
                        end in
        signature_loop fuel' vals separator (i + 1) nreq npos sa
      else sa
  end.

Definition usage_signature (vals : list cp_value) (separator : Str)
    (nreq npos nvals : Z) (ignore : bool) : Str :=
  let sa := signature_loop (Z.to_nat npos) vals separator 0 nreq npos [] in
  let sa := if ignore then sa ++ lit "..." else sa in
  let sa := if nreq <? npos then sa ++ lit "]" else sa in
  if npos <? nvals then
    (if negb (npos =? 0) then sa ++ separator else sa) ++ lit "[keywords]"
  else sa.

(** [for (i = from; i < stop; i++)] clearing [argtype] where [unused]. *)
Fixpoint clear_loop (fuel : nat) (vals : list cp_value) (i stop : Z)
    (unused : cp_value -> bool) : list cp_value :=
  match fuel with
  | O => vals
  | S fuel' =>
      if i <? stop then
        clear_loop fuel'
          (if unused (value_at vals i)
           then modify vals i (fun x => set_argtype x None) else vals)
          (i + 1) stop unused
      else vals
  end.

(** What [cp_va_parsev] has established when the parse phase starts. *)
Record bound_state := {
  b_nvalues : Z;
  b_npositional : Z;
  b_values : list cp_value;
  b_errh : ErrorHandler
}.

(** [cp_va_parsev] up to the comment [// parse arguments]: [inl] is an
    early return with the sink it leaves. *)
Definition bind_arguments (cp_values : option (list cp_value))
    (reg : Registry) (args : list Str) (argname separator : Str)
    (keywords_only : bool) (errh : ErrorHandler) (val : list va_item)
  : ErrorHandler + bound_state :=
  match cp_values with
  | None => inl (error errh (lit "out of memory in cp_va_parse"))
  | Some vals =>
      let st0 :=
        {| nvalues := 0;
           nrequired := if keywords_only then 0 else -1;
           npositional := if keywords_only then 0 else -1;
           mixed_keywords := false;
           ignore_rest := keywords_only;
           values := vals; spec_errh := errh |} in
      match read_spec (S (length val)) reg val st0 with
      | inl errh => inl errh
      | inr st =>
          let nvals := nvalues st in
          let nreq := if nrequired st <? 0 then nvals else nrequired st in
          let npos := if npositional st <? 0 then nvals else npositional st in
          let errh := spec_errh st in
          let '(supplied, kerr, vals) :=
            assign_arguments args 0 argname npos nvals (mixed_keywords st)
              (ignore_rest st) 0 [] (values st) in
          if (0 <? slen kerr) && negb keywords_only then
            let kws := keywords_list (Z.to_nat (nvals - npos)) vals npos npos
                         nvals [] in
            inl (error errh
                   (lit "bad keyword(s) " ++ kerr ++ [chr NL]
                    ++ lit "(valid keywords are " ++ kws ++ lit ")"))
          else if (supplied <? nreq) || (npos <? supplied) then
            let sig := usage_signature vals separator nreq npos nvals
                         (ignore_rest st) in
            let whoops := if npos <? supplied then lit "too many"
                          else lit "too few" in
            if 0 <? slen sig then
              inl (error errh
                     (whoops ++ lit " " ++ argname ++ lit "s; expected `"
                      ++ sig ++ lit "'"))
            else
              inl (error errh (lit "expected empty " ++ argname ++ lit " list"))
          else
            let vals := clear_loop (Z.to_nat (npos - supplied)) vals supplied
                          npos (fun _ => true) in
            let vals := clear_loop (Z.to_nat (nvals - npos)) vals npos nvals
                          (fun x => v_i (v x) =? 0) in
            inr {| b_nvalues := nvals; b_npositional := npos;
                   b_values := vals; b_errh := errh |}
      end
  end.

Section Engine.

(** The router element that owns the call, and the caller's storage. *)
Variables Element Mem : Type.

(** What the code behind a parse or store function pointer does: a parse
    function gives the value it leaves in [*v], the messages it sends to
    the sink and the [cp_errno] it leaves; a store function changes the
    caller's storage. *)
Variable call_parse :
  funptr -> cp_value -> Str -> Str -> Element -> CpErrno
  -> cp_value * list Str * CpErrno.
Variable call_store : funptr -> cp_value -> Element -> Mem -> Mem.

(** One run of a parse loop: [label i x] is the [argname] handed to the
    parse function of slot [i].  The result also lists, for each slot
    parsed, the messages its parse function sent. *)
Fixpoint parse_loop (fuel : nat) (context : Element) (label : Z -> cp_value -> Str)
    (i stop : Z) (vals : list cp_value) (e : CpErrno)
    (reports : list (Z * list Str))
  : list cp_value * CpErrno * list (Z * list Str) :=
  match fuel with
  | O => (vals, e, reports)
  | S fuel' =>
      if i <? stop then
        let x := value_at vals i in
        match argtype x with
        | Some t =>
            let '(x', msgs, e') :=
              call_parse (at_parse t) x (v_string x) (label i x) context e in
            parse_loop fuel' context label (i + 1) stop
              (modify vals i (fun _ => x')) e' (reports ++ [(i, msgs)])
        | None => parse_loop fuel' context label (i + 1) stop vals e reports
        end
      else (vals, e, reports)
  end.

(** The parse phase: both loops. *)
Definition parse_arguments (context : Element) (argname : Str)
    (b : bound_state) (e : CpErrno)
  : list cp_value * CpErrno * list (Z * list Str) :=
  let '(vals, e, reports) :=
    parse_loop (Z.to_nat (b_npositional b)) context
      (fun i _ => argname ++ lit " " ++ unparse_unsigned (i + 1))
      0 (b_npositional b) (b_values b) e [] in
  parse_loop (Z.to_nat (b_nvalues b - b_npositional b)) context
    (fun _ x => lit "keyword "
                ++ match keyword x with Some k => k | None => [] end)
    (b_npositional b) (b_nvalues b) vals e reports.

(** The commit loop: the storage afterwards and the slots stored, in the
    order of the calls. *)
Fixpoint store_loop (fuel : nat) (context : Element) (vals : list cp_value)
    (i nvals : Z) (mem : Mem) (stored : list Z) : Mem * list Z :=
  match fuel with
  | O => (mem, stored)
  | S fuel' =>
      if i <? nvals then
        match argtype (value_at vals i) with
        | Some t =>
            store_loop fuel' context vals (i + 1) nvals
              (call_store (at_store t) (value_at vals i) context mem)
              (stored ++ [i])
        | None => store_loop fuel' context vals (i + 1) nvals mem stored
        end
      else (mem, stored)
  end.

(** What a call of [cp_va_parsev] leaves. *)
Record parsev_result := {
  retval : Z;
  errh_out : ErrorHandler;
  mem_out : Mem;
  stored : list Z
}.

(** [cp_va_parsev(args, context, argname, separator, keywords_only, errh,
    val)], run on the array [cp_values], the registry [reg], the caller's
    storage [mem] and [cp_errno] holding [e]. *)
Definition cp_va_parsev (cp_values : option (list cp_value)) (reg : Registry)
    (e : CpErrno) (mem : Mem)
    (args : list Str) (context : Element) (argname separator : Str)
    (keywords_only : bool) (errh : ErrorHandler) (val : list va_item)
  : parsev_result :=
  let nerrors_in := nerrors errh in
  match bind_arguments cp_values reg args argname separator keywords_only
          errh val with
  | inl errh' =>
      {| retval := -1; errh_out := errh'; mem_out := mem; stored := [] |}
  | inr b =>
      let '(vals, e, reports) := parse_arguments context argname b e in
      let errh' := b_errh b ++ concat (map snd reports) in
      if negb (nerrors errh' =? nerrors_in) then
        {| retval := -1; errh_out := errh'; mem_out := mem; stored := [] |}
      else
        let '(mem', stored) :=
          store_loop (Z.to_nat (b_nvalues b)) context vals 0 (b_nvalues b)
            mem [] in
        {| retval := Z.of_nat (length stored); errh_out := errh';
           mem_out := mem'; stored := stored |}
  end.

End Engine.

(** ** The built-in argument types *)

Definition cp_is_word (str : Str) : bool :=
  forallb (fun b => negb ((code b =? DQUOTE) || (code b =? SQUOTE)
                          || (code b =? ch ",") || (code b <=? 32)
                          || (127 <=? code b))) str
  && (0 <? slen str).

(** The scan of [cp_string]: the position where the word ends. *)
Fixpoint string_scan (fuel : nat) (s : Str) (len i : Z) : Z :=
  match fuel with
  | O => i
  | S fuel' =>
      if i <? len then
        let x := char_at s i in
        if (x =? SPACE) || (x =? FF) || (x =? NL) || (x =? CR) || (x =? TAB)
           || (x =? VT)
        then i
        else if x =? DQUOTE
        then string_scan fuel' s len (skip_double_quote s i len - 1 + 1)
        else if x =? SQUOTE
        then string_scan fuel' s len (skip_single_quote s i len - 1 + 1)
        else if (x =? ch "\") && (i <? len - 1) && (char_at s (i + 1) =? ch "<")
        then string_scan fuel' s len (skip_backslash_angle s i len - 1 + 1)
        else string_scan fuel' s len (i + 1)
      else i
  end.

(** [cp_string(str, &return_value)] with [rest] null. *)
Definition cp_string (str : Str) : option Str :=
  let len := slen str in
  let i := string_scan (length str) str len 0 in
  if (i =? 0) || negb (i =? len) then None
  else Some (cp_unquote (substring str 0 i)).

(** [cp_word(str, &return_value)] with [rest] null. *)
Definition cp_word (str : Str) : option Str :=
  match cp_string str with
  | None => None
  | Some word => if negb (cp_is_word word) then None else Some word
  end.

Definition cp_bool (str : Str) : option bool :=
  if str_eqb str (lit "0") then Some false
  else if str_eqb str (lit "1") then Some true
  else if str_eqb str (lit "false") then Some false
  else if str_eqb str (lit "true") then Some true
  else if str_eqb str (lit "no") then Some false
  else if str_eqb str (lit "yes") then Some true
  else None.

(** The text [printf] writes for [%d]. *)
Definition unparse_int (n : Z) : Str :=
  if n <? 0 then lit "-" ++ unparse_unsigned (- n) else unparse_unsigned n.

(** The addresses of [default_parsefunc] and [default_storefunc]. *)
Definition default_parsefunc_ptr : funptr := 1.
Definition default_storefunc_ptr : funptr := 2.

(** A cell of the caller's storage, by the type of the pointer the store
    function writes through. *)
Inductive cell :=
| C_bool (b : bool)
| C_uchar (c : Z)
| C_short (n : Z)
| C_ushort (n : Z)
| C_int (n : Z)
| C_unsigned (n : Z)
| C_timeval (sec usec : Z)
| C_String (s : Str)
| C_bytes (bytes : list Z)
| C_element (e : Z).

(** The caller's storage: the writes made, latest first. *)
Definition Memory := list (Z * cell).

Definition mem_write (p : Z) (c : cell) (mem : Memory) : Memory :=
  (p, c) :: mem.

Section Defaults.

(** The cases of [default_parsefunc] and [default_storefunc] for the types
    whose parsers are not part of this development (reals in base 10,
    times, IPv4 prefixes and sets, Ethernet addresses, elements, and the
    address types that are parsed without a context) are taken as given. *)
Variable other_parse :
  cp_value -> Str -> Str -> CpErrno -> cp_value * list Str * CpErrno.
Variable other_store : cp_value -> Memory -> Memory.

Definition takes (argname what desc : Str) : Str :=
  argname ++ lit " takes " ++ what ++ lit " (" ++ desc ++ lit ")".

(** The label [handle_signed] of [default_parsefunc]. *)
Definition handle_signed (x : cp_value) (t : cp_argtype) (arg argname : Str)
    (underflower overflower : Z) (e : CpErrno)
  : cp_value * list Str * CpErrno :=
  let desc := description x in
  match cp_integer_auto arg e with
  | (None, e) => (x, [takes argname (at_description t) desc], e)
  | (Some i, e) =>
      let x := set_v x (V_i i) in
      if errno_eqb e CPE_OVERFLOW
      then (x, [lit "integer overflow on " ++ argname ++ lit " (" ++ desc
                ++ lit ")"], e)
      else if i <? underflower
      then (x, [argname ++ lit " (" ++ desc ++ lit ") must be >= "
                ++ unparse_int underflower], e)
      else if s32 overflower <? i
      then (x, [argname ++ lit " (" ++ desc ++ lit ") must be <= "
                ++ unparse_unsigned overflower], e)
      else (x, [], e)
  end.

(** The label [handle_unsigned] of [default_parsefunc]. *)
Definition handle_unsigned (x : cp_value) (t : cp_argtype) (arg argname : Str)
    (overflower : Z) (e : CpErrno) : cp_value * list Str * CpErrno :=
  let desc := description x in
  match cp_unsigned_auto arg e with
  | (None, e) => (x, [takes argname (at_description t) desc], e)
  | (Some u, e) =>
      let x := set_v x (V_u u) in
      if errno_eqb e CPE_OVERFLOW
      then (x, [lit "integer overflow on " ++ argname ++ lit " (" ++ desc
                ++ lit ")"], e)
      else if overflower <? u
      then (x, [argname ++ lit " (" ++ desc ++ lit ") must be <= "
                ++ unparse_unsigned overflower], e)
      else (x, [], e)
  end.

(** [default_parsefunc(v, arg, errh, argname, context)]. *)
Definition default_parsefunc (x : cp_value) (arg argname : Str) (e : CpErrno)
  : cp_value * list Str * CpErrno :=
  let desc := description x in
  match argtype x with
  | None => (x, [], e)
  | Some t =>
      let tag := at_internal t in
      if tag =? cpiArgument then (set_v_string x arg, [], e)
      else if tag =? cpiString then
        match cp_string arg with
        | Some w => (set_v_string x w, [], e)
        | None => (x, [takes argname (lit "string") desc], e)
        end
      else if tag =? cpiWord then
        match cp_word arg with
        | Some w => (set_v_string x w, [], e)
        | None => (x, [takes argname (lit "word") desc], e)
        end
      else if tag =? cpiBool then
        match cp_bool arg with
        | Some b => (set_v x (V_b b), [], e)
        | None => (x, [takes argname (lit "bool") desc], e)
        end
      else if tag =? cpiByte then handle_unsigned x t arg argname 255 e
      else if tag =? cpiShort
      then handle_signed x t arg argname (-32768) 32767 e
      else if tag =? cpiUnsignedShort
      then handle_unsigned x t arg argname 65535 e
      else if tag =? cpiInteger
      then handle_signed x t arg argname (-2147483648) 2147483647 e
      else if tag =? cpiUnsigned
      then handle_unsigned x t arg argname 4294967295 e
      else if tag =? cpiNonnegReal2 then
        match cp_unsigned_real2 arg (extra x) with
        | (Some u, e) => (set_v x (V_u u), [], e)
        | (None, e) =>
            (x,
             [if errno_eqb e CPE_NEGATIVE
              then argname ++ lit " (" ++ desc ++ lit ") must be >= 0"
              else if errno_eqb e CPE_OVERFLOW
              then lit "overflow on " ++ argname ++ lit " (" ++ desc ++ lit ")"
              else if errno_eqb e CPE_INVALID
              then argname ++ lit " (" ++ desc ++ lit ") is an invalid real"
              else takes argname (lit "real") desc], e)
        end
      else if (tag =? cpiOptional) || (tag =? cpiUnmixedKeywords)
              || (tag =? cpiMixedKeywords) || (tag =? cpiIgnore)
              || (tag =? cpiIgnoreRest) || (tag =? cpiEnd) || (tag <? 0)
              || (cpiDesCblock <? tag)
      then (x, [], e)
      else other_parse x arg argname e
  end.

(** [default_storefunc(v, context)]. *)
Definition default_storefunc (x : cp_value) (mem : Memory) : Memory :=
  match argtype x with
  | None => mem
  | Some t =>
      let tag := at_internal t in
      if tag =? cpiBool
      then mem_write (store x)
             (C_bool (match v x with V_b b => b
                                   | u => negb (v_i u =? 0) end)) mem
      else if tag =? cpiByte
      then mem_write (store x) (C_uchar (v_i (v x) mod 256)) mem
      else if tag =? cpiShort
      then mem_write (store x)
             (C_short ((v_i (v x) + 32768) mod 65536 - 32768)) mem
      else if tag =? cpiUnsignedShort
      then mem_write (store x) (C_ushort (v_u (v x) mod 65536)) mem
      else if (tag =? cpiInteger) || (tag =? cpiReal2) || (tag =? cpiReal10)
              || (tag =? cpiNonnegReal10) || (tag =? cpiMilliseconds)
      then mem_write (store x) (C_int (v_i (v x))) mem
      else if (tag =? cpiUnsigned) || (tag =? cpiNonnegReal2)
      then mem_write (store x) (C_unsigned (v_u (v x))) mem
      else if (tag =? cpiString) || (tag =? cpiWord) || (tag =? cpiArgument)
      then mem_write (store x) (C_String (v_string x)) mem
      else if (tag =? cpiTimeval) || (tag =? cpiIPAddress)
              || (tag =? cpiIP6Address) || (tag =? cpiEthernetAddress)
              || (tag =? cpiDesCblock) || (tag =? cpiIPPrefix)
              || (tag =? cpiIPAddressOrPrefix) || (tag =? cpiIP6Prefix)
              || (tag =? cpiIP6AddressOrPrefix) || (tag =? cpiIPAddressSet)
              || (tag =? cpiElement)
      then other_store x mem
      else mem
  end.

(** The code behind each function pointer of the built-in types. *)
Definition builtin_parse (p : funptr) (x : cp_value) (arg argname : Str)
    (context : unit) (e : CpErrno) : cp_value * list Str * CpErrno :=
  if p =? default_parsefunc_ptr then default_parsefunc x arg argname e
  else (x, [], e).

Definition builtin_store (p : funptr) (x : cp_value) (context : unit)
    (mem : Memory) : Memory :=
  if p =? default_storefunc_ptr then default_storefunc x mem else mem.

End Defaults.

(** [cp_va_static_initialize]: the registry with the built-in types. *)
Definition builtin_types : list (string * string * ArgExtra * Z) :=
  [ ("OPTIONAL", "<optional arguments marker>", cpArgNormal, cpiOptional);
    ("UNMIXED_KEYWORDS", "<unmixed keyword arguments marker>", cpArgNormal,
     cpiUnmixedKeywords);
    ("MIXED_KEYWORDS", "<intermixed keyword arguments marker>", cpArgNormal,
     cpiMixedKeywords);
    ("KEYWORDS", "<keyword arguments marker>", cpArgNormal, cpiMixedKeywords);
    ("IGNORE", "<ignored argument>", cpArgNormal, cpiIgnore);
    ("IGNORE_REST", "<ignore rest marker>", cpArgNormal, cpiIgnoreRest);
    ("arg", "??", cpArgNormal, cpiArgument);
    ("string", "string", cpArgNormal, cpiString);
    ("word", "word", cpArgNormal, cpiWord);
    ("bool", "bool", cpArgNormal, cpiBool);
    ("byte", "byte", cpArgNormal, cpiByte);
    ("short", "short", cpArgNormal, cpiShort);
    ("u_short", "unsigned short", cpArgNormal, cpiUnsignedShort);
    ("int", "int", cpArgNormal, cpiInteger);
    ("u_int", "unsigned", cpArgNormal, cpiUnsigned);
    ("real2", "real", cpArgExtraInt, cpiReal2);
    ("u_real2", "unsigned real", cpArgExtraInt, cpiNonnegReal2);
    ("real10", "real", cpArgExtraInt, cpiReal10);
    ("u_real10", "unsigned real", cpArgExtraInt, cpiNonnegReal10);
    ("msec", "time in seconds", cpArgNormal, cpiMilliseconds);
    ("timeval", "seconds since the epoch", cpArgNormal, cpiTimeval);
    ("ip_addr", "IP address", cpArgNormal, cpiIPAddress);
    ("ip_prefix", "IP address prefix", cpArgStore2, cpiIPPrefix);
    ("ip_addr_or_prefix", "IP address or prefix", cpArgStore2,
     cpiIPAddressOrPrefix);
    ("ip_addr_set", "set of IP addresses", cpArgNormal, cpiIPAddressSet);
    ("ether_addr", "Ethernet address", cpArgNormal, cpiEthernetAddress);
    ("element", "element name", cpArgNormal, cpiElement);
    ("ip6_addr", "IPv6 address", cpArgNormal, cpiIP6Address);
    ("ip6_prefix", "IPv6 address prefix", cpArgStore2, cpiIP6Prefix);
    ("ip6_addr_or_prefix", "IPv6 address or prefix", cpArgStore2,
     cpiIP6AddressOrPrefix) ]%string.

Definition cp_va_static_initialize : Registry * option (list cp_value) :=
  (fold_left
     (fun reg '(name, desc, ex, tag) =>
        snd (cp_register_argtype reg (lit name) (lit desc) ex
               default_parsefunc_ptr default_storefunc_ptr tag))
     builtin_types (fun _ => []),
   Some (repeat blank_value (Z.to_nat CP_VALUES_SIZE))).

(** [cp_va_parse(conf, context, errh, ...)] on the built-in types, from
    the state that [cp_va_static_initialize] leaves. *)
Definition cp_va_parse (other_parse : cp_value -> Str -> Str -> CpErrno
                                      -> cp_value * list Str * CpErrno)
    (other_store : cp_value -> Memory -> Memory)
    (conf : list Str) (errh : ErrorHandler) (val : list va_item)
  : parsev_result Memory :=
  cp_va_parsev unit Memory (builtin_parse other_parse)
    (builtin_store other_store)
    (snd cp_va_static_initialize) (fst cp_va_static_initialize) CPE_OK []
    conf tt (lit "argument") (lit ", ") false errh val.

Definition no_other_parse (x : cp_value) (arg argname : Str) (e : CpErrno)
  : cp_value * list Str * CpErrno := (x, [], e).

Definition no_other_store (x : cp_value) (mem : Memory) : Memory := mem.


(** * The rest of confparse.cc *)

(** ** Words separated by spaces, and vectors written back *)

(** The loop of [cp_spacevec]: the final [(start, vec)]. *)
Fixpoint spacevec_loop (fuel : nat) (conf : Str) (len i start : Z)
    (vec : list Str) : Z * list Str :=
  match fuel with
  | O => (start, vec)
  | S fuel' =>
      if i <? len then
        let x := char_at conf i in
        let mark := if start <? 0 then i else start in
        let push := if 0 <=? start
                    then vec ++ [substring conf start (i - start)] else vec in
        if x =? ch "/" then
          if (i =? len - 1)
             || (negb (char_at conf (i + 1) =? ch "/")
                 && negb (char_at conf (i + 1) =? ch "*"))
          then spacevec_loop fuel' conf len (i + 1) mark vec
          else spacevec_loop fuel' conf len (skip_comment conf i len - 1 + 1)
                 (-1) push
        else if x =? DQUOTE
        then spacevec_loop fuel' conf len
               (skip_double_quote conf i len - 1 + 1) mark vec
        else if x =? SQUOTE
        then spacevec_loop fuel' conf len
               (skip_single_quote conf i len - 1 + 1) mark vec
        else if x =? ch "\" then
          if (i <? len - 1) && (char_at conf (i + 1) =? ch "<")
          then spacevec_loop fuel' conf len
                 (skip_backslash_angle conf i len - 1 + 1) mark vec
          else spacevec_loop fuel' conf len (i + 1) mark vec
        else if (x =? SPACE) || (x =? FF) || (x =? NL) || (x =? CR)
                || (x =? TAB) || (x =? VT)
        then spacevec_loop fuel' conf len (i + 1) (-1) push
        else spacevec_loop fuel' conf len (i + 1) mark vec
      else (start, vec)
  end.

(** [cp_spacevec(conf, vec)] appends to [vec]. *)
Definition cp_spacevec (conf : Str) (vec : list Str) : list Str :=
  let len := slen conf in
  if len =? 0 then vec
  else
    let '(start, vec) := spacevec_loop (length conf) conf len 0 (-1) vec in
    if 0 <=? start then vec ++ [substring conf start (len - start)] else vec.

(** The loop shared by [cp_unargvec] and [cp_unspacevec], which differ in
    the separator they write before every argument but the first. *)
Fixpoint unvec_loop (separator : Str) (args : list Str) (i : Z) (sa : Str)
  : Str :=
  match args with
  | [] => sa
  | a :: rest =>
      let sa := if negb (i =? 0) then sa ++ separator else sa in
      unvec_loop separator rest (i + 1) (sa ++ a)
  end.

Definition cp_unargvec (args : list Str) : Str :=
  unvec_loop (lit ", ") args 0 [].

Definition cp_unspacevec (args : list Str) : Str :=
  unvec_loop (lit " ") args 0 [].

(** * Vocabulary of the properties *)

(** What [cp_quote] writes for one byte when newlines are escaped. *)
Definition quote_char (b : byte) : Str :=
  let u := code b in
  if (u =? ch "\") || (u =? DQUOTE) || (u =? ch "$") then [chr (ch "\"); b]
  else if u =? TAB then lit "\t"
  else if u =? CR then lit "\r"
  else if u =? NL then lit "\n"
  else if (u <? 32) || (127 <=? u) then
    [chr (ch "\"); chr (ch "0" + Z.shiftr u 6);
     chr (ch "0" + Z.land (Z.shiftr u 3) 7); chr (ch "0" + Z.land u 7)]
  else [b].

(** The escapes of one character that [cp_quote] uses. *)
Definition simple_escape (c b : byte) : bool :=
  ((code c =? ch "\") || (code c =? DQUOTE) || (code c =? ch "$"))
    && (code c =? code b)
  || (code c =? ch "t") && (code b =? TAB)
  || (code c =? ch "r") && (code b =? CR)
  || (code c =? ch "n") && (code b =? NL).

Definition octal_escape (d1 d2 d3 b : byte) : bool :=
  (ch "0" <=? code d1) && (code d1 <=? ch "3")
  && (ch "0" <=? code d2) && (code d2 <=? ch "7")
  && (ch "0" <=? code d3) && (code d3 <=? ch "7")
  && (((0 * 8 + code d1 - ch "0") * 8 + code d2 - ch "0") * 8
      + code d3 - ch "0" =? code b).

Inductive quote_shape (b : byte) : Str -> Prop :=
| shape_plain :
    code b <> ch "\" -> code b <> DQUOTE -> quote_shape b [b]
| shape_simple c :
    simple_escape c b = true -> quote_shape b [chr (ch "\"); c]
| shape_octal d1 d2 d3 :
    octal_escape d1 d2 d3 b = true ->
    quote_shape b [chr (ch "\"); d1; d2; d3].

(** Character constants as numbers, for [lia]. *)
Ltac consts :=
  unfold DQUOTE, SQUOTE, BEL, BS, TAB, NL, VT, FF, CR, SPACE in *;
  repeat match goal with
         | |- context [ch ?b] =>
             let v := eval vm_compute in (ch b) in change (ch b) with v
         | H : context [ch ?b] |- _ =>
             let v := eval vm_compute in (ch b) in change (ch b) with v in H
         end.

(** Decide the integer tests of the goal by linear arithmetic. *)
Ltac ztest :=
  repeat match goal with
         | |- context [?a =? ?b] =>
             first [ replace (a =? b) with true
                       by (symmetry; apply Z.eqb_eq; lia)
                   | replace (a =? b) with false
                       by (symmetry; apply Z.eqb_neq; lia) ]
         | |- context [?a <? ?b] =>
             first [ replace (a <? b) with true
                       by (symmetry; apply Z.ltb_lt; lia)
                   | replace (a <? b) with false
                       by (symmetry; apply Z.ltb_ge; lia) ]
         | |- context [?a <=? ?b] =>
             first [ replace (a <=? b) with true
                       by (symmetry; apply Z.leb_le; lia)
                   | replace (a <=? b) with false
                       by (symmetry; apply Z.leb_gt; lia) ]
         end;
  cbn [andb orb negb].

(** The text of a quoted string after the opening quote. *)
Definition quoted_tail (rest : Str) : Str :=
  flat_map quote_char rest ++ [chr DQUOTE].

(** No [//] and no [/*] anywhere in the text. *)
Fixpoint no_comment_start (s : Str) : bool :=
  match s with
  | a :: t =>
      match t with
      | b :: _ => negb ((code a =? ch "/")
                        && ((code b =? ch "/") || (code b =? ch "*")))
      | [] => true
      end && no_comment_start t
  | [] => true
  end.

(** No quote character and no backslash anywhere in the text. *)
Definition no_quote_backslash (s : Str) : bool :=
  forallb (fun b => negb ((code b =? DQUOTE) || (code b =? SQUOTE)
                          || (code b =? ch "\"))) s.

(** The text neither starts nor ends with a blank. *)
Definition trimmed (s : Str) : bool :=
  negb (isspace (char_at s 0)) && negb (isspace (char_at s (slen s - 1))).

(** The slots [from .. from + n - 1] of the array that are bound to an
    argument type. *)
Fixpoint bound_slots (n : nat) (vals : list cp_value) (from : Z) : list Z :=
  match n with
  | O => []
  | S n' =>
      match argtype (value_at vals from) with
      | Some _ => from :: bound_slots n' vals (from + 1)
      | None => bound_slots n' vals (from + 1)
      end
  end.

(** The storage after the store functions of the slots [slots] have run in
    turn. *)
Definition run_stores {Element Mem : Type}
    (call_store : funptr -> cp_value -> Element -> Mem -> Mem)
    (context : Element) (vals : list cp_value) (slots : list Z) (mem : Mem)
  : Mem :=
  fold_left
    (fun m i => match argtype (value_at vals i) with
                | Some t => call_store (at_store t) (value_at vals i) context m
                | None => m
                end) slots mem.

(** The texts [l] separated by a comma and a blank. *)
Definition join_comma (l : list Str) : Str :=
  match l with
  | [] => []
  | k :: ks => k ++ flat_map (fun x => lit ", " ++ x) ks
  end.

Definition keyword_of (arg : Str) : Str :=
  match cp_keyword arg true with
  | Some (kw, _) => kw
  | None => []
  end.

(** The keywords that the assignment loop finds unknown: those of the
    tokens met once the positional slots are filled, when the rest is not
    ignored, that carry a value and name no declared keyword. *)
Fixpoint unknown_keywords (args : list Str) (npos nvals : Z)
    (mixed ignore : bool) (supplied : Z) (vals : list cp_value) : list Str :=
  match args with
  | [] => []
  | arg :: args' =>
      let '(result, vals1) := assign_keyword_argument vals arg npos nvals in
      if npos <=? supplied then
        if (result =? kwSuccess) || ignore
        then unknown_keywords args' npos nvals mixed ignore supplied vals1
        else if result =? kwNoKeyword
        then unknown_keywords args' npos nvals mixed ignore (supplied + 1) vals1
        else keyword_of arg
             :: unknown_keywords args' npos nvals mixed ignore supplied vals1
      else if mixed && (result =? kwSuccess)
      then unknown_keywords args' npos nvals mixed ignore supplied vals1
      else unknown_keywords args' npos nvals mixed ignore (supplied + 1)
             (modify vals supplied (fun x => set_v_string x arg))
  end.

(** The keywords declared for the slots [from .. from + n - 1]. *)
Fixpoint declared_keywords (n : nat) (vals : list cp_value) (from : Z)
  : list Str :=
  match n with
  | O => []
  | S n' =>
      match keyword (value_at vals from) with
      | Some k => k
      | None => []
      end :: declared_keywords n' vals (from + 1)
  end.

Definition add_keyword (sa k : Str) : Str :=
  (if 0 <? slen sa then sa ++ lit ", " else sa) ++ k.

(** The message of the keyword error. *)
Definition bad_keywords_message (unknown declared : list Str) : Str :=
  lit "bad keyword(s) " ++ join_comma unknown ++ [chr NL]
  ++ lit "(valid keywords are " ++ join_comma declared ++ lit ")".

(** The mask with the first [n] bits set. *)
Definition prefix_mask (n : Z) : list Z :=
  map (fun k => let bits := Z.max 0 (Z.min 8 (n - 8 * k)) in
                256 - 2 ^ (8 - bits))
      [0; 1; 2; 3; 4; 5; 6; 7; 8; 9; 10; 11; 12; 13; 14; 15].

Definition is_prefix_mask (mask : list Z) : bool :=
  existsb (fun n => if list_eq_dec Z.eq_dec mask (prefix_mask (Z.of_nat n))
                    then true else false) (seq 0 129).

(** [cp_va_parse(conf, this, errh, cpKeywords, "A", cpUnsigned, "a", &a, 0)]
    with the configuration [A 1, A 2]. *)
Definition call_keyword_twice : parsev_result Memory :=
  cp_va_parse no_other_parse no_other_store [lit "A 1"; lit "A 2"] []
    [VaStr (Some (lit "KEYWORDS"));
     VaStr (Some (lit "A")); VaStr (Some (lit "u_int"));
     VaStr (Some (lit "a")); VaPtr 100;
     VaStr None].

(** [cp_va_parse(conf, this, errh, cpInteger, "a", &a, cpInteger, "b", &b,
    cpKeywords, "A", cpUnsigned, "c", &c, 0)]. *)
Definition two_ints_and_keyword : list va_item :=
  [VaStr (Some (lit "int")); VaStr (Some (lit "a")); VaPtr 100;
   VaStr (Some (lit "int")); VaStr (Some (lit "b")); VaPtr 104;
   VaStr (Some (lit "KEYWORDS"));
   VaStr (Some (lit "A")); VaStr (Some (lit "u_int"));
   VaStr (Some (lit "c")); VaPtr 108;
   VaStr None].

(** The call above with the single argument [kw foo]. *)
Definition call_keyword_token_only : parsev_result Memory :=
  cp_va_parse no_other_parse no_other_store [lit "kw foo"] []
    two_ints_and_keyword.

(** The call above with [1, 2, B 1, C 2]. *)
Definition call_unknown_keywords : parsev_result Memory :=
  cp_va_parse no_other_parse no_other_store
    [lit "1"; lit "2"; lit "B 1"; lit "C 2"] [] two_ints_and_keyword.

(** The call above with [x, 2]: the first argument is no integer. *)
Definition call_bad_integer : parsev_result Memory :=
  cp_va_parse no_other_parse no_other_store [lit "x"; lit "2"] []
    two_ints_and_keyword.

(** What the declaration loop leaves for [two_ints_and_keyword]. *)
Definition two_ints_and_keyword_state : spec_state :=
  Eval vm_compute in
    match read_spec (S (length two_ints_and_keyword))
            (fst cp_va_static_initialize) two_ints_and_keyword
            {| nvalues := 0; nrequired := -1; npositional := -1;
               mixed_keywords := false; ignore_rest := false;
               values := repeat blank_value 80; spec_errh := [] |} with
    | inr st => st
    | inl _ =>
        {| nvalues := 0; nrequired := 0; npositional := 0;
           mixed_keywords := false; ignore_rest := false;
           values := []; spec_errh := [] |}
    end.

(** An array with the one keyword slot [A]. *)
Definition one_keyword_slot : list cp_value :=
  [set_keyword blank_value (Some (lit "A"))].

(** One to four hexadecimal digits. *)
Definition hex_group (g : Str) : bool :=
  negb (Nat.eqb (length g) 0) && Nat.leb (length g) 4
  && forallb (fun b => isxdigit (code b)) g.

(** The number that the digits [g] write in base 16, after [part]. *)
Definition group_value_from (g : Str) (part : Z) : Z :=
  fold_left (fun v b => v * 16 + xvalue (code b)) g part.

Definition group_value (g : Str) : Z := group_value_from g 0.

(** The groups [gs] separated by colons. *)
Definition join_colon (gs : list Str) : Str :=
  match gs with
  | [] => []
  | g :: t => g ++ flat_map (fun x => lit ":" ++ x) t
  end.

(** The text is empty or starts with a character that is no hexadecimal
    digit. *)
Definition no_hex_ahead (rest : Str) : Prop :=
  match rest with
  | [] => True
  | b :: _ => isxdigit (code b) = false
  end.

(** The values [vs] written into [parts] from index [d] on. *)
Fixpoint store_values (parts : list Z) (d : Z) (vs : list Z) : list Z :=
  match vs with
  | [] => parts
  | v :: t => store_values (upd parts d v) (d + 1) t
  end.

Definition store_groups (parts : list Z) (d : Z) (gs : list Str) : list Z :=
  store_values parts d (map group_value gs).

(** The state in which the loop of [cp_ip6_address] starts. *)
Definition ip6_start : ip6_scan :=
  {| sc_d := 0; sc_pos := 0; sc_coloncolon := -1; sc_last_part_pos := 0;
     sc_parts := repeat 0 8 |}.

(** The groups [gs], each after a colon. *)
Definition colon_groups (gs : list Str) : Str :=
  flat_map (fun x => lit ":" ++ x) gs.

(** A character that the scanner takes as it is: no blank, comma, quote,
    backslash or slash. *)
Definition plain_char (c : Z) : bool :=
  negb (isspace c) && negb (c =? ch ",") && negb (c =? DQUOTE)
  && negb (c =? SQUOTE) && negb (c =? ch "\") && negb (c =? ch "/").

(** A field of an argument list: a word of plain characters with blanks
    before and after it. *)
Record field := {
  lead : Str;
  word : Str;
  trail : Str
}.

Definition field_text (f : field) : Str := lead f ++ word f ++ trail f.

Definition field_ok (f : field) : bool :=
  cp_is_space (lead f) && forallb (fun b => plain_char (code b)) (word f)
  && cp_is_space (trail f).

(** The fields separated by commas. *)
Fixpoint comma_fields (fs : list field) : Str :=
  match fs with
  | [] => []
  | f :: t =>
      match t with
      | [] => field_text f
      | _ :: _ => field_text f ++ lit "," ++ comma_fields t
      end
  end.

(** The text is empty or starts with a comma. *)
Definition at_comma (rest : Str) : Prop :=
  rest = [] \/ exists r, rest = ","%byte :: r.

(** The arguments of a list of fields: their words, and nothing for one
    field of blanks only. *)
Definition argvec_words (fs : list field) : list Str :=
  match fs with
  | [f] => match word f with
           | [] => []
           | _ :: _ => [word f]
           end
  | _ => map word fs
  end.

(** The empty field after a final comma. *)
Definition empty_field : field := {| lead := []; word := []; trail := [] |}.

(** The quoted form of a string: what [cp_quote] writes when it escapes
    newlines. *)
Definition quoted (s : Str) : Str := chr DQUOTE :: quoted_tail s.

(** The text after the first argument that [cp_unargvec] writes. *)
Definition more_quoted (separator : Str) (args : list Str) : Str :=
  flat_map (fun a => separator ++ quoted a) args.

(** The last step of [cp_spacevec], after its loop. *)
Definition spacevec_finish (conf : Str) (r : Z * list Str) : list Str :=
  let '(start, vec) := r in
  if 0 <=? start then vec ++ [substring conf start (slen conf - start)]
  else vec.

(** A byte that is printable ASCII. *)
Definition printable (b : byte) : bool :=
  (32 <=? code b) && (code b <? 127).

(** A text without single quote. *)
Definition no_single_quote (s : Str) : bool :=
  forallb (fun b => negb (code b =? SQUOTE)) s.

(** The text is empty or starts with a character that is no blank. *)
Definition starts_nonblank (s : Str) : bool :=
  match s with
  | [] => true
  | b :: _ => negb (isspace (code b))
  end.

(** A character that [cp_keyword] takes into the keyword. *)
Definition keyword_char (b : byte) : bool :=
  isalnum (code b) || (code b =? ch "_") || (code b =? ch ".")
  || (code b =? ch ":").

(** * Properties *)

Lemma code_range b : 0 <= code b < 256.
Proof.
  unfold code. pose proof (Byte.to_N_bounded b). lia.
Qed.

Lemma chr_code b : chr (code b) = b.
Proof.
  unfold chr. rewrite Z.mod_small by apply code_range.
  unfold code. rewrite N2Z.id, Byte.of_to_N. reflexivity.
Qed.

Lemma code_chr z : 0 <= z < 256 -> code (chr z) = z.
Proof.
  intros H. unfold chr, code. rewrite Z.mod_small by lia.
  destruct (Byte.of_N (Z.to_N z)) eqn:E.
  - apply Byte.to_of_N in E. rewrite E. lia.
  - apply Byte.of_N_None_iff in E. lia.
Qed.

Lemma slen_nonneg s : 0 <= slen s.
Proof. unfold slen. lia. Qed.

Lemma slen_app a b : slen (a ++ b) = slen a + slen b.
Proof. unfold slen. rewrite length_app. lia. Qed.

Lemma slen_cons a b : slen (a :: b) = 1 + slen b.
Proof. unfold slen. simpl length. lia. Qed.

Lemma byte_at_app_r pre l k :
  0 <= k -> byte_at (pre ++ l) (slen pre + k) = byte_at l k.
Proof.
  intros Hk. unfold byte_at, slen.
  destruct (Z.ltb_spec (Z.of_nat (length pre) + k) 0); [lia|].
  destruct (Z.ltb_spec k 0); [lia|].
  rewrite app_nth2 by lia. f_equal. lia.
Qed.

Lemma byte_at_app_l pre l k :
  0 <= k < slen pre -> byte_at (pre ++ l) k = byte_at pre k.
Proof.
  intros Hk. unfold byte_at, slen in *.
  destruct (Z.ltb_spec k 0); [lia|].
  rewrite app_nth1 by lia. reflexivity.
Qed.

Lemma char_at_app_r pre l k :
  0 <= k -> char_at (pre ++ l) (slen pre + k) = char_at l k.
Proof. intros. unfold char_at. now rewrite byte_at_app_r. Qed.

Lemma byte_at_here pre a l : byte_at (pre ++ a :: l) (slen pre) = a.
Proof.
  replace (slen pre) with (slen pre + 0) by lia.
  rewrite byte_at_app_r by lia. reflexivity.
Qed.

Lemma byte_at_next pre a l k :
  0 <= k -> byte_at (pre ++ a :: l) (slen pre + (k + 1)) = byte_at l k.
Proof.
  intros Hk.
  replace (pre ++ a :: l) with ((pre ++ [a]) ++ l)
    by (rewrite <- app_assoc; reflexivity).
  replace (slen pre + (k + 1)) with (slen (pre ++ [a]) + k)
    by (rewrite slen_app, slen_cons; unfold slen; simpl; lia).
  apply byte_at_app_r; lia.
Qed.

Lemma substring_nil s i : substring s i 0 = [].
Proof. unfold substring. destruct (i <? 0); reflexivity. Qed.

Lemma substring_all s : substring s 0 (slen s) = s.
Proof.
  unfold substring, slen. simpl.
  destruct (Z.leb_spec (Z.of_nat (length s)) 0).
  - destruct s; [reflexivity | simpl in *; lia].
  - rewrite Nat2Z.id. simpl. apply firstn_all.
Qed.

Lemma substring_app_r pre l n :
  substring (pre ++ l) (slen pre) n = substring l 0 n.
Proof.
  unfold substring, slen.
  destruct (Z.ltb_spec (Z.of_nat (length pre)) 0); [lia|].
  simpl. destruct (n <=? 0); [reflexivity|].
  rewrite Nat2Z.id, skipn_app, skipn_all, Nat.sub_diag. reflexivity.
Qed.

Lemma firstn_plus {A} (n m : nat) (l : list A) :
  firstn (n + m) l = firstn n l ++ firstn m (skipn n l).
Proof.
  revert l. induction n; intros [|x l]; simpl; auto.
  - now rewrite firstn_nil.
  - now rewrite IHn.
Qed.

Lemma substring_split s a b c :
  0 <= a <= b -> b <= c ->
  substring s a (c - a) = substring s a (b - a) ++ substring s b (c - b).
Proof.
  intros Hab Hbc. unfold substring.
  destruct (Z.ltb_spec a 0); [lia|].
  destruct (Z.ltb_spec b 0); [lia|]. simpl.
  destruct (Z.leb_spec (c - a) 0).
  - destruct (Z.leb_spec (b - a) 0); [|lia].
    destruct (Z.leb_spec (c - b) 0); [reflexivity|lia].
  - destruct (Z.leb_spec (b - a) 0).
    + assert (a = b) by lia. subst b.
      destruct (Z.leb_spec (c - a) 0); [lia|]. reflexivity.
    + destruct (Z.leb_spec (c - b) 0).
      * assert (b = c) by lia. subst. rewrite app_nil_r. reflexivity.
      * replace (Z.to_nat (c - a)) with (Z.to_nat (b - a) + Z.to_nat (c - b))%nat by lia.
        rewrite firstn_plus. f_equal. rewrite skipn_skipn.
        f_equal. f_equal. lia.
Qed.

Lemma substring_one s i :
  0 <= i < slen s -> substring s i 1 = [byte_at s i].
Proof.
  intros Hi. unfold substring, byte_at, slen in *.
  destruct (Z.ltb_spec i 0); [lia|]. simpl.
  assert (Hl : (Z.to_nat i < length s)%nat) by lia.
  revert Hl. generalize (Z.to_nat i). clear. intros n.
  revert s. induction n; intros [|x s] Hl; simpl in *; try lia; auto.
  - apply IHn. lia.
Qed.

Lemma substring_snoc s a i :
  0 <= a <= i -> i < slen s ->
  substring s a (i + 1 - a) = substring s a (i - a) ++ [byte_at s i].
Proof.
  intros. rewrite (substring_split s a i (i + 1)) by lia.
  replace (i + 1 - i) with 1 by lia. rewrite substring_one by lia. reflexivity.
Qed.

Lemma quote_char_shape b : quote_shape b (quote_char b).
Proof.
  destruct b;
    first [ apply shape_plain; vm_compute; discriminate
          | apply shape_simple; vm_compute; reflexivity
          | apply shape_octal; vm_compute; reflexivity ].
Qed.

Lemma quote_loop_spec rest : forall pre start sa,
  0 <= start <= slen pre ->
  forall start' sa',
  quote_loop (length rest) (pre ++ rest) false (slen pre) start sa
    = (start', sa') ->
  sa' ++ substring (pre ++ rest) start' (slen (pre ++ rest) - start')
  = sa ++ substring (pre ++ rest) start (slen pre - start)
       ++ flat_map quote_char rest.
Proof.
  induction rest as [|b rest IH]; intros pre start sa Hs start' sa' H.
  - simpl in H. injection H as <- <-. rewrite !app_nil_r. reflexivity.
  - assert (Hlen : slen pre < slen (pre ++ b :: rest))
      by (rewrite slen_app, slen_cons; pose proof (slen_nonneg rest); lia).
    assert (Hb : byte_at (pre ++ b :: rest) (slen pre) = b)
      by apply byte_at_here.
    assert (Hpre : pre ++ b :: rest = (pre ++ [b]) ++ rest)
      by (rewrite <- app_assoc; reflexivity).
    assert (Hl' : slen (pre ++ [b]) = slen pre + 1)
      by (rewrite slen_app; reflexivity).
    cbn [quote_loop length] in H.
    apply Z.ltb_lt in Hlen as Hlt. rewrite Hlt in H. cbn [negb] in H.
    unfold char_at in H. rewrite Hb in H.
    cbn [flat_map]. unfold quote_char.
    assert (Hplain : substring (pre ++ b :: rest) start (slen pre + 1 - start)
                     = substring (pre ++ b :: rest) start (slen pre - start) ++ [b]).
    { rewrite substring_snoc by lia. rewrite Hb. reflexivity. }
    rewrite Hpre in H, Hplain |- *. rewrite <- Hl' in H.
    destruct ((code b =? ch "\") || (code b =? DQUOTE) || (code b =? ch "$")).
    { apply IH in H; [|lia]. rewrite H. rewrite Hl'.
      replace (slen pre + 1 - (slen pre + 1)) with 0 by lia.
      rewrite substring_nil. rewrite <- !app_assoc. reflexivity. }
    destruct (code b =? TAB).
    { apply IH in H; [|lia]. rewrite H. rewrite Hl'.
      replace (slen pre + 1 - (slen pre + 1)) with 0 by lia.
      rewrite substring_nil. rewrite <- !app_assoc. reflexivity. }
    destruct (code b =? CR).
    { apply IH in H; [|lia]. rewrite H. rewrite Hl'.
      replace (slen pre + 1 - (slen pre + 1)) with 0 by lia.
      rewrite substring_nil. rewrite <- !app_assoc. reflexivity. }
    destruct (code b =? NL).
    { cbn [negb] in H. apply IH in H; [|lia]. rewrite H. rewrite Hl'.
      replace (slen pre + 1 - (slen pre + 1)) with 0 by lia.
      rewrite substring_nil. rewrite <- !app_assoc. reflexivity. }
    destruct ((code b <? 32) || (127 <=? code b)).
    { apply IH in H; [|lia]. rewrite H. rewrite Hl'.
      replace (slen pre + 1 - (slen pre + 1)) with 0 by lia.
      rewrite substring_nil. rewrite <- !app_assoc. reflexivity. }
    apply IH in H; [|lia]. rewrite H. rewrite Hl'.
    rewrite Hplain. rewrite <- !app_assoc. reflexivity.
Qed.

(** [cp_quote] wraps the escapes of the bytes in double quotes. *)
Lemma cp_quote_flat s :
  cp_quote s false = chr DQUOTE :: flat_map quote_char s ++ [chr DQUOTE].
Proof.
  destruct s as [|b s]; [reflexivity|].
  unfold cp_quote.
  destruct (quote_loop (length (b :: s)) (b :: s) false 0 0 [chr DQUOTE])
    as [start' sa'] eqn:E.
  pose proof (quote_loop_spec (b :: s) [] 0 [chr DQUOTE]) as H.
  cbn [app] in H. specialize (H ltac:(unfold slen; simpl; lia) _ _ E).
  rewrite app_assoc, H. rewrite substring_nil. reflexivity.
Qed.

Lemma simple_escape_inv c b :
  simple_escape c b = true ->
  (c = b /\ (code b = 92 \/ code b = 34 \/ code b = 36))
  \/ (code c = 116 /\ b = chr TAB)
  \/ (code c = 114 /\ b = chr CR)
  \/ (code c = 110 /\ b = chr NL).
Proof.
  unfold simple_escape. consts. intros H.
  assert (Hc : forall x y, code x = code y -> x = y).
  { intros x y E. rewrite <- (chr_code x), <- (chr_code y), E. reflexivity. }
  assert (Hk : forall y k, code y = k -> y = chr k).
  { intros y k E. rewrite <- (chr_code y), E. reflexivity. }
  repeat (apply orb_true_iff in H; destruct H as [H|H]);
    apply andb_true_iff in H; destruct H as [H1 H2].
  - left. apply Z.eqb_eq in H2. split; [auto|]. rewrite <- H2.
    repeat (apply orb_true_iff in H1; destruct H1 as [H1|H1]);
      apply Z.eqb_eq in H1; lia.
  - right. left. apply Z.eqb_eq in H1, H2. auto.
  - right. right. left. apply Z.eqb_eq in H1, H2. auto.
  - right. right. right. apply Z.eqb_eq in H1, H2. auto.
Qed.

Lemma process_backslash_simple c b s i len sa :
  simple_escape c b = true ->
  byte_at s (i + 1) = c ->
  process_backslash s i len sa = (i + 2, sa ++ [b]).
Proof.
  intros H Hc. apply simple_escape_inv in H.
  unfold process_backslash, char_at. rewrite Hc. consts.
  destruct H as [[-> H]|[[H ->]|[[H ->]|[H ->]]]].
  - destruct H as [H|[H|H]]; rewrite H; reflexivity.
  - rewrite H. reflexivity.
  - rewrite H. reflexivity.
  - rewrite H. reflexivity.
Qed.

Lemma process_backslash_octal d1 d2 d3 b s i len sa :
  octal_escape d1 d2 d3 b = true ->
  byte_at s (i + 1) = d1 -> byte_at s (i + 2) = d2 ->
  byte_at s (i + 3) = d3 -> i + 3 < len ->
  process_backslash s i len sa = (i + 4, sa ++ [b]).
Proof.
  unfold octal_escape. consts. intros H H1 H2 H3 Hlen.
  repeat (apply andb_true_iff in H; destruct H as [H ?]).
  repeat match goal with
         | E : (_ <=? _) = true |- _ => apply Z.leb_le in E
         | E : (_ =? _) = true |- _ => apply Z.eqb_eq in E
         end.
  unfold process_backslash, char_at. rewrite H1. consts. ztest.
  cbn [octal_loop]. unfold char_at. consts.
  rewrite H1. ztest.
  replace (i + 1 + 1) with (i + 2) by lia. rewrite H2. ztest.
  replace (i + 2 + 1) with (i + 3) by lia. rewrite H3. ztest.
  replace (i + 3 + 1) with (i + 4) by lia.
  f_equal. f_equal. f_equal.
  rewrite <- (chr_code b). f_equal. lia.
Qed.

Lemma quote_shape_first b q :
  quote_shape b q -> exists c t, q = c :: t.
Proof. intros []; eauto. Qed.

Lemma octal_escape_inv d1 d2 d3 b :
  octal_escape d1 d2 d3 b = true ->
  48 <= code d1 <= 51 /\ 48 <= code d2 <= 55 /\ 48 <= code d3 <= 55.
Proof.
  unfold octal_escape. consts. intros H.
  repeat (apply andb_true_iff in H; destruct H as [H ?]).
  repeat match goal with
         | E : (_ <=? _) = true |- _ => apply Z.leb_le in E
         end.
  lia.
Qed.

Lemma simple_escape_code c b :
  simple_escape c b = true -> code c <> 60.
Proof.
  intros H. apply simple_escape_inv in H.
  destruct H as [[-> H]|[[H _]|[[H _]|[H _]]]]; lia.
Qed.

Lemma skip_double_quote_quoted rest : forall pre fuel,
  (length (quoted_tail rest) <= fuel)%nat ->
  skip_double_quote_loop fuel (pre ++ quoted_tail rest) (slen pre)
    (slen (pre ++ quoted_tail rest))
  = slen (pre ++ quoted_tail rest).
Proof.
  induction rest as [|b rest IH]; intros pre fuel Hf.
  - unfold quoted_tail in *. cbn [flat_map app length] in *.
    destruct fuel as [|fuel]; [lia|]. cbn [skip_double_quote_loop].
    unfold char_at. rewrite byte_at_here.
    rewrite slen_app, slen_cons. change (slen []) with 0.
    rewrite code_chr by (consts; lia). consts. ztest. lia.
  - unfold quoted_tail in *. cbn [flat_map] in *.
    rewrite <- app_assoc in *. rewrite length_app in Hf.
    pose proof (quote_char_shape b) as Hs.
    set (tl := flat_map quote_char rest ++ [chr DQUOTE]) in *.
    assert (Htl : 1 <= slen tl).
    { unfold tl. rewrite slen_app, slen_cons. pose proof (slen_nonneg (flat_map quote_char rest)).
      change (slen []) with 0. lia. }
    destruct Hs as [Hp1 Hp2 | c Hc | d1 d2 d3 Hd].
    + cbn [app length] in *. destruct fuel as [|fuel]; [lia|].
      cbn [skip_double_quote_loop]. unfold char_at. rewrite byte_at_here.
      rewrite slen_app, slen_cons. consts. ztest.
      replace (pre ++ b :: tl) with ((pre ++ [b]) ++ tl)
        by (rewrite <- app_assoc; reflexivity).
      replace (slen pre + 1) with (slen (pre ++ [b]))
        by (rewrite slen_app; reflexivity).
      replace (slen pre + (1 + slen tl)) with (slen ((pre ++ [b]) ++ tl))
        by (rewrite !slen_app; change (slen [b]) with 1; lia).
      apply IH. lia.
    + cbn [app length] in *. destruct fuel as [|fuel]; [lia|].
      cbn [skip_double_quote_loop]. unfold char_at. rewrite byte_at_here.
      rewrite (byte_at_app_r pre _ 1) by lia.
      change (byte_at (chr (ch "\") :: c :: tl) 1) with c.
      pose proof (simple_escape_code _ _ Hc).
      rewrite slen_app, !slen_cons. rewrite code_chr by (consts; lia).
      consts. ztest.
      replace (pre ++ chr 92 :: c :: tl) with ((pre ++ [chr 92; c]) ++ tl)
        by (rewrite <- app_assoc; reflexivity).
      replace (slen pre + 2) with (slen (pre ++ [chr 92; c]))
        by (rewrite slen_app; reflexivity).
      replace (slen pre + (1 + (1 + slen tl)))
        with (slen ((pre ++ [chr 92; c]) ++ tl))
        by (rewrite !slen_app; change (slen [chr 92; c]) with 2; lia).
      apply IH. lia.
    + cbn [app length] in *.
      destruct fuel as [|[|[|fuel]]]; try lia.
      pose proof (octal_escape_inv _ _ _ _ Hd) as (R1 & R2 & R3).
      assert (E0 : byte_at (pre ++ chr (ch "\") :: d1 :: d2 :: d3 :: tl) (slen pre)
                   = chr (ch "\")) by apply byte_at_here.
      assert (E1 : byte_at (pre ++ chr (ch "\") :: d1 :: d2 :: d3 :: tl) (slen pre + 1)
                   = d1).
      { replace (slen pre + 1) with (slen pre + (0 + 1)) by lia.
        rewrite byte_at_next by lia. reflexivity. }
      assert (E2 : byte_at (pre ++ chr (ch "\") :: d1 :: d2 :: d3 :: tl) (slen pre + 2)
                   = d2).
      { replace (slen pre + 2) with (slen pre + (1 + 1)) by lia.
        rewrite byte_at_next by lia. reflexivity. }
      assert (E3 : byte_at (pre ++ chr (ch "\") :: d1 :: d2 :: d3 :: tl) (slen pre + 3)
                   = d3).
      { replace (slen pre + 3) with (slen pre + (2 + 1)) by lia.
        rewrite byte_at_next by lia. reflexivity. }
      assert (EL : slen (pre ++ chr (ch "\") :: d1 :: d2 :: d3 :: tl)
                   = slen pre + 4 + slen tl)
        by (rewrite slen_app, !slen_cons; lia).
      cbn [skip_double_quote_loop]. unfold char_at.
      rewrite E0, E1. rewrite EL. rewrite code_chr by (consts; lia).
      consts. ztest. rewrite E2. ztest.
      replace (slen pre + 2 + 1) with (slen pre + 3) by lia.
      rewrite E3. ztest.
      replace (pre ++ chr 92 :: d1 :: d2 :: d3 :: tl)
        with ((pre ++ [chr 92; d1; d2; d3]) ++ tl)
        by (rewrite <- app_assoc; reflexivity).
      replace (slen pre + 3 + 1) with (slen (pre ++ [chr 92; d1; d2; d3]))
        by (rewrite slen_app; change (slen [chr 92; d1; d2; d3]) with 4; lia).
      replace (slen pre + 4 + slen tl)
        with (slen ((pre ++ [chr 92; d1; d2; d3]) ++ tl))
        by (rewrite !slen_app; change (slen [chr 92; d1; d2; d3]) with 4; lia).
      apply IH. lia.
Qed.

Lemma unquote_loop_end fuel str len start q sa :
  unquote_loop fuel str len len start q sa = (len, start, sa).
Proof.
  destruct fuel; cbn [unquote_loop]; [reflexivity|].
  rewrite Z.ltb_irrefl. reflexivity.
Qed.

Lemma unquote_loop_quoted rest : forall pre fuel start sa,
  (length (quoted_tail rest) <= fuel)%nat -> 0 <= start <= slen pre ->
  unquote_loop fuel (pre ++ quoted_tail rest) (slen (pre ++ quoted_tail rest))
    (slen pre) start DQUOTE sa
  = (slen (pre ++ quoted_tail rest), slen (pre ++ quoted_tail rest),
     sa ++ substring (pre ++ quoted_tail rest) start (slen pre - start)
        ++ rest).
Proof.
  induction rest as [|b rest IH]; intros pre fuel start sa Hf Hs.
  - unfold quoted_tail in *. cbn [flat_map app length] in *.
    destruct fuel as [|fuel]; [lia|]. cbn [unquote_loop].
    unfold char_at. rewrite byte_at_here.
    rewrite slen_app, slen_cons. change (slen []) with 0.
    rewrite code_chr by (consts; lia). consts. ztest.
    replace (slen pre + (1 + 0)) with (slen pre + 1) by lia.
    rewrite unquote_loop_end. rewrite app_nil_r.
    destruct (Z.ltb_spec start (slen pre)); [reflexivity|].
    replace (slen pre - start) with 0 by lia.
    rewrite substring_nil, app_nil_r. reflexivity.
  - unfold quoted_tail in *. cbn [flat_map] in *.
    rewrite <- app_assoc in *. rewrite length_app in Hf.
    pose proof (quote_char_shape b) as Hsh.
    set (tl := flat_map quote_char rest ++ [chr DQUOTE]) in *.
    assert (Htl : 1 <= slen tl).
    { unfold tl. rewrite slen_app, slen_cons.
      pose proof (slen_nonneg (flat_map quote_char rest)).
      change (slen []) with 0. lia. }
    destruct Hsh as [Hp1 Hp2 | c Hc | d1 d2 d3 Hd].
    + cbn [app length] in *. destruct fuel as [|fuel]; [lia|].
      cbn [unquote_loop]. unfold char_at. rewrite byte_at_here.
      assert (EL : slen (pre ++ b :: tl) = slen pre + 1 + slen tl)
        by (rewrite slen_app, slen_cons; lia).
      assert (Hsn : substring (pre ++ b :: tl) start (slen pre + 1 - start)
                    = substring (pre ++ b :: tl) start (slen pre - start) ++ [b]).
      { rewrite substring_snoc by lia. rewrite byte_at_here. reflexivity. }
      rewrite EL. consts. ztest.
      assert (Hgo : unquote_loop fuel (pre ++ b :: tl) (slen pre + 1 + slen tl)
                      (slen pre + 1) start 34 sa
                    = (slen pre + 1 + slen tl, slen pre + 1 + slen tl,
                       sa ++ substring (pre ++ b :: tl) start (slen pre - start)
                          ++ b :: rest)).
      { revert Hsn. rewrite <- EL.
        replace (pre ++ b :: tl) with ((pre ++ [b]) ++ tl)
          by (rewrite <- app_assoc; reflexivity).
        replace (slen pre + 1) with (slen (pre ++ [b]))
          by (rewrite slen_app; reflexivity).
        intros Hsn. rewrite (IH (pre ++ [b]) fuel start sa) by
          (try lia; rewrite slen_app; change (slen [b]) with 1; lia).
        rewrite Hsn. rewrite <- !app_assoc. reflexivity. }
      destruct (Z.eq_dec (code b) 39) as [E|E].
      * rewrite E. ztest. exact Hgo.
      * ztest. exact Hgo.
    + cbn [app length] in *. destruct fuel as [|fuel]; [lia|].
      cbn [unquote_loop]. unfold char_at. rewrite byte_at_here.
      assert (EL : slen (pre ++ chr (ch "\") :: c :: tl) = slen pre + 2 + slen tl)
        by (rewrite slen_app, !slen_cons; lia).
      rewrite EL. rewrite code_chr by (consts; lia). consts. ztest.
      rewrite (process_backslash_simple c b) by
        (auto; rewrite (byte_at_app_r pre _ 1) by lia; reflexivity).
      replace (slen pre + 2 - 1 + 1) with (slen pre + 2) by lia.
      rewrite <- EL.
      replace (pre ++ chr 92 :: c :: tl) with ((pre ++ [chr 92; c]) ++ tl)
        by (rewrite <- app_assoc; reflexivity).
      replace (slen pre + 2) with (slen (pre ++ [chr 92; c]))
        by (rewrite slen_app; reflexivity).
      rewrite IH by
        first [ lia | pose proof (slen_nonneg (pre ++ [chr 92; c])); lia ].
      rewrite Z.sub_diag, substring_nil. rewrite <- !app_assoc.
      reflexivity.
    + cbn [app length] in *. destruct fuel as [|fuel]; [lia|].
      cbn [unquote_loop]. unfold char_at. rewrite byte_at_here.
      assert (EL : slen (pre ++ chr (ch "\") :: d1 :: d2 :: d3 :: tl)
                   = slen pre + 4 + slen tl)
        by (rewrite slen_app, !slen_cons; lia).
      rewrite EL. rewrite code_chr by (consts; lia). consts. ztest.
      rewrite (process_backslash_octal d1 d2 d3 b) by
        first [ assumption | lia
              | rewrite (byte_at_app_r pre _ 1) by lia; reflexivity
              | rewrite (byte_at_app_r pre _ 2) by lia; reflexivity
              | rewrite (byte_at_app_r pre _ 3) by lia; reflexivity ].
      replace (slen pre + 4 - 1 + 1) with (slen pre + 4) by lia.
      rewrite <- EL.
      replace (pre ++ chr 92 :: d1 :: d2 :: d3 :: tl)
        with ((pre ++ [chr 92; d1; d2; d3]) ++ tl)
        by (rewrite <- app_assoc; reflexivity).
      replace (slen pre + 4) with (slen (pre ++ [chr 92; d1; d2; d3]))
        by (rewrite slen_app; reflexivity).
      rewrite IH by
        first [ lia
              | pose proof (slen_nonneg (pre ++ [chr 92; d1; d2; d3])); lia ].
      rewrite Z.sub_diag, substring_nil. rewrite <- !app_assoc.
      reflexivity.
Qed.

Lemma skip_initial_stop fuel s i len :
  comment_start s i len = false -> isspace (char_at s i) = false ->
  skip_initial fuel s i len = i.
Proof.
  intros Hc Hs. destruct fuel; cbn [skip_initial]; [reflexivity|].
  rewrite Hc, Hs. destruct (i <? len); reflexivity.
Qed.

Lemma accumulate_done fuel str len comma_pos st :
  len <= uc_i st -> accumulate fuel str len comma_pos st = st.
Proof.
  intros H. destruct fuel; cbn [accumulate]; [reflexivity|].
  destruct (Z.ltb_spec (uc_i st) len); [lia|reflexivity].
Qed.

(** One round of the accumulating loop on a double-quoted string. *)
Lemma accumulate_double_quote fuel str len comma_pos st :
  uc_i st < len -> char_at str (uc_i st) = DQUOTE -> uc_closed st = false ->
  accumulate (S fuel) str len comma_pos st
  = accumulate fuel str len comma_pos
      {| uc_i := skip_double_quote str (uc_i st) len; uc_left := uc_left st;
         uc_right := skip_double_quote str (uc_i st) len;
         uc_closed := false; uc_sa := uc_sa st |}.
Proof.
  intros Hi Hq Hc. cbn [accumulate].
  apply Z.ltb_lt in Hi. rewrite Hi.
  unfold comment_start, isspace. rewrite Hq, Hc. reflexivity.
Qed.

(** A quoted string has no comment or space outside its quotes. *)
Lemma partial_uncomment_quoted rest :
  fst (partial_uncomment (chr DQUOTE :: quoted_tail rest) 0 false)
  = chr DQUOTE :: quoted_tail rest.
Proof.
  set (Q := chr DQUOTE :: quoted_tail rest).
  assert (Hlen : 2 <= slen Q).
  { unfold Q, quoted_tail. rewrite slen_cons, slen_app.
    pose proof (slen_nonneg (flat_map quote_char rest)).
    change (slen [chr DQUOTE]) with 1. lia. }
  assert (H0 : char_at Q 0 = DQUOTE) by reflexivity.
  assert (Hskip : skip_double_quote Q 0 (slen Q) = slen Q).
  { unfold skip_double_quote.
    apply (skip_double_quote_quoted rest [chr DQUOTE]).
    unfold Q. cbn [length]. lia. }
  unfold partial_uncomment.
  rewrite skip_initial_stop by (unfold comment_start; rewrite H0; reflexivity).
  destruct (length Q) as [|n] eqn:En; [unfold slen in Hlen; lia|].
  rewrite accumulate_double_quote by (cbn [uc_i uc_closed]; auto; lia).
  cbn [uc_i uc_left uc_sa]. rewrite Hskip.
  rewrite accumulate_done by (cbn [uc_i]; lia).
  cbn [uc_i uc_left uc_right uc_closed uc_sa fst].
  rewrite Z.sub_0_r. apply substring_all.
Qed.

(** C10: unquoting the quoted form of any string, with newlines escaped,
    gives the string back. *)
Theorem cp_unquote_cp_quote : forall s : Str, cp_unquote (cp_quote s false) = s.
Proof.
  intros s. rewrite cp_quote_flat. fold (quoted_tail s).
  unfold cp_unquote. rewrite partial_uncomment_quoted.
  set (Q := chr DQUOTE :: quoted_tail s).
  assert (Hlen : (2 <= length Q)%nat).
  { unfold Q, quoted_tail. cbn [length]. rewrite length_app. simpl. lia. }
  assert (H0 : char_at Q 0 = 34) by reflexivity.
  destruct (length Q) as [|n] eqn:En; try lia.
  cbn [unquote_loop]. rewrite H0. consts.
  assert (HL : slen Q = Z.of_nat (S n)) by (unfold slen; now rewrite En).
  ztest.
  pose proof (unquote_loop_quoted s [chr 34] n 1 []) as H.
  change ([chr 34] ++ quoted_tail s) with Q in H.
  change (slen [chr 34]) with 1 in H. change (0 + 1) with 1.
  unfold DQUOTE in H.
  rewrite H.
  - pose proof (slen_nonneg Q). ztest.
    rewrite !Z.sub_diag, !substring_nil. cbn [app]. apply app_nil_r.
  - unfold Q in En. cbn [length] in En. lia.
  - lia.
Qed.

Lemma byte_at_cons_pos a t i :
  0 < i -> byte_at (a :: t) i = byte_at t (i - 1).
Proof.
  intros Hi. unfold byte_at.
  destruct (Z.ltb_spec i 0); [lia|]. destruct (Z.ltb_spec (i - 1) 0); [lia|].
  replace (Z.to_nat i) with (S (Z.to_nat (i - 1))) by lia. reflexivity.
Qed.

Lemma byte_at_neg s i : i < 0 -> byte_at s i = x00.
Proof. intros. unfold byte_at. destruct (Z.ltb_spec i 0); [reflexivity|lia]. Qed.

Lemma no_comment_start_at s :
  no_comment_start s = true ->
  forall i, comment_start s i (slen s) = false.
Proof.
  induction s as [|a t IH]; intros H i.
  - unfold comment_start. change (slen []) with 0.
    destruct (Z.ltb_spec i (0 - 1)); [|now rewrite andb_false_r].
    unfold char_at. rewrite byte_at_neg by lia. reflexivity.
  - cbn [no_comment_start] in H. apply andb_true_iff in H as [H1 H2].
    specialize (IH H2). unfold comment_start in *.
    rewrite slen_cons.
    destruct (Z.ltb_spec i 0).
    { unfold char_at. rewrite byte_at_neg by lia. reflexivity. }
    destruct (Z.eq_dec i 0) as [->|Hi].
    + destruct t as [|b t'].
      * change (slen []) with 0. cbn. now rewrite andb_false_r.
      * change (char_at (a :: b :: t') 0) with (code a).
        change (char_at (a :: b :: t') (0 + 1)) with (code b).
        apply negb_true_iff in H1.
        destruct (code a =? ch "/"); [|reflexivity].
        cbn [andb] in *. rewrite H1. now rewrite andb_false_r.
    + specialize (IH (i - 1)). unfold char_at in *.
      rewrite !byte_at_cons_pos by lia.
      replace (i + 1 - 1) with (i - 1 + 1) by lia.
      replace (i <? 1 + slen t - 1) with (i - 1 <? slen t - 1); [exact IH|].
      destruct (Z.ltb_spec (i - 1) (slen t - 1)), (Z.ltb_spec i (1 + slen t - 1));
        try reflexivity; lia.
Qed.

Lemma skip_single_quote_loop_bounds fuel : forall s pos len,
  pos <= len ->
  pos <= skip_single_quote_loop fuel s pos len <= len.
Proof.
  induction fuel as [|fuel IH]; intros s pos len H; cbn [skip_single_quote_loop].
  - lia.
  - destruct (Z.ltb_spec pos len); [|lia].
    destruct (char_at s pos =? SQUOTE); [lia|].
    specialize (IH s (pos + 1) len). lia.
Qed.

Lemma skip_backslash_angle_loop_bounds fuel : forall s pos len,
  (forall i, comment_start s i len = false) ->
  pos <= len ->
  pos <= skip_backslash_angle_loop fuel s pos len <= len.
Proof.
  induction fuel as [|fuel IH]; intros s pos len Hc H;
    cbn [skip_backslash_angle_loop].
  - lia.
  - destruct (Z.ltb_spec pos len); [|lia].
    destruct (char_at s pos =? ch ">"); [lia|].
    rewrite Hc. specialize (IH s (pos + 1) len Hc). lia.
Qed.

Lemma skip_double_quote_loop_bounds fuel : forall s pos len,
  (forall i, comment_start s i len = false) ->
  pos <= len ->
  pos <= skip_double_quote_loop fuel s pos len <= len.
Proof.
  induction fuel as [|fuel IH]; intros s pos len Hc H;
    cbn [skip_double_quote_loop].
  - lia.
  - destruct (Z.ltb_spec pos len); [|lia].
    destruct (Z.ltb_spec pos (len - 1)); cbn [andb].
    + destruct (char_at s pos =? ch "\").
      * destruct (char_at s (pos + 1) =? ch "<").
        -- pose proof (skip_backslash_angle_loop_bounds (length s) s (pos + 2)
                         len Hc ltac:(lia)) as Hb.
           fold (skip_backslash_angle s pos len) in Hb.
           specialize (IH s (skip_backslash_angle s pos len) len Hc). lia.
        -- specialize (IH s (pos + 2) len Hc). lia.
      * destruct (char_at s pos =? DQUOTE); [lia|].
        specialize (IH s (pos + 1) len Hc). lia.
    + destruct (char_at s pos =? DQUOTE); [lia|].
      specialize (IH s (pos + 1) len Hc). lia.
Qed.

(** Without comments the accumulating loop of [partial_uncomment] keeps
    one piece of text: it only moves [right], and what lies between
    [right] and the scanning position is blank. *)
Lemma accumulate_no_comment fuel : forall str st,
  (forall i, comment_start str i (slen str) = false) ->
  uc_closed st = false -> uc_sa st = [] ->
  uc_right st <= uc_i st <= slen str ->
  (forall k, uc_right st <= k < uc_i st -> isspace (char_at str k) = true) ->
  (Z.to_nat (slen str - uc_i st) <= fuel)%nat ->
  let st' := accumulate fuel str (slen str) false st in
  uc_sa st' = [] /\ uc_left st' = uc_left st
  /\ uc_right st <= uc_right st' <= slen str
  /\ (forall k, uc_right st' <= k < slen str -> isspace (char_at str k) = true).
Proof.
  induction fuel as [|fuel IH]; intros str st Hc Hcl Hsa Hr Hsp Hf;
    cbn [accumulate].
  - cbn zeta. repeat split; auto; try lia. intros k Hk. apply Hsp. lia.
  - destruct (Z.ltb_spec (uc_i st) (slen str)) as [Hlt|Hge].
    2:{ cbn zeta. repeat split; auto; try lia. intros k Hk. apply Hsp. lia. }
    destruct (isspace (char_at str (uc_i st))) eqn:Esp.
    { match goal with |- context [accumulate fuel str _ false ?s] =>
        specialize (IH str s Hc) end.
      cbn [uc_i uc_left uc_right uc_closed uc_sa] in IH.
      apply IH; auto; try lia.
      intros k Hk. destruct (Z.eq_dec k (uc_i st)) as [->|]; auto.
      apply Hsp. lia. }
    rewrite Hc. rewrite andb_false_r. rewrite Hcl.
    match goal with |- context [accumulate fuel str _ false ?s] =>
      specialize (IH str s Hc); set (st1 := s) in * end.
    assert (Hi' : uc_i st < uc_i st1 <= slen str).
    { unfold st1. cbn [uc_i].
      destruct (char_at str (uc_i st) =? SQUOTE).
      { pose proof (skip_single_quote_loop_bounds (length str) str
                      (uc_i st + 1) (slen str) ltac:(lia)) as Hb.
        fold (skip_single_quote str (uc_i st) (slen str)) in Hb. lia. }
      destruct (char_at str (uc_i st) =? DQUOTE).
      { pose proof (skip_double_quote_loop_bounds (length str) str
                      (uc_i st + 1) (slen str) Hc ltac:(lia)) as Hb.
        fold (skip_double_quote str (uc_i st) (slen str)) in Hb. lia. }
      destruct (char_at str (uc_i st) =? ch "\"); cbn [andb]; [|lia].
      destruct (Z.ltb_spec (uc_i st) (slen str - 1)); cbn [andb]; [|lia].
      destruct (char_at str (uc_i st + 1) =? ch "<"); [|lia].
      pose proof (skip_backslash_angle_loop_bounds (length str) str
                    (uc_i st + 2) (slen str) Hc ltac:(lia)) as Hb.
      fold (skip_backslash_angle str (uc_i st) (slen str)) in Hb. lia. }
    assert (Hr1 : uc_right st1 = uc_i st1) by reflexivity.
    assert (Hl1 : uc_left st1 = uc_left st) by reflexivity.
    assert (Hs1 : uc_sa st1 = []) by (unfold st1; cbn [uc_sa]; exact Hsa).
    assert (Hc1 : uc_closed st1 = false) by reflexivity.
    specialize (IH Hc1 Hs1 ltac:(lia) ltac:(intros; lia) ltac:(lia)).
    cbn zeta in IH. destruct IH as (A & B & C & D).
    repeat split; auto; try lia; congruence.
Qed.

Lemma trimmed_inv s :
  trimmed s = true ->
  isspace (char_at s 0) = false /\ isspace (char_at s (slen s - 1)) = false.
Proof.
  unfold trimmed. intros H. apply andb_true_iff in H as [H1 H2].
  apply negb_true_iff in H1, H2. auto.
Qed.

Lemma partial_uncomment_identity s :
  no_comment_start s = true -> trimmed s = true ->
  fst (partial_uncomment s 0 false) = s.
Proof.
  intros Hn Ht. apply trimmed_inv in Ht as [Hfirst Hlast].
  pose proof (no_comment_start_at s Hn) as Hc.
  unfold partial_uncomment.
  assert (Hsk : skip_initial (length s) s 0 (slen s) = 0).
  { destruct s as [|a t]; [reflexivity|]. cbn [length skip_initial].
    rewrite Hc. rewrite Hfirst. cbn [negb].
    destruct (0 <? slen (a :: t)); reflexivity. }
  rewrite Hsk.
  pose proof (accumulate_no_comment (length s) s
                {| uc_i := 0; uc_left := 0; uc_right := 0;
                   uc_closed := false; uc_sa := [] |} Hc eq_refl eq_refl) as H.
  cbn [uc_i uc_left uc_right uc_closed uc_sa] in H.
  pose proof (slen_nonneg s).
  specialize (H ltac:(lia) ltac:(intros; lia) ltac:(unfold slen; lia)).
  cbn zeta in H. destruct H as (A & B & C & D).
  rewrite A, B. cbn [fst].
  assert (E : uc_right
                (accumulate (length s) s (slen s) false
                   {| uc_i := 0; uc_left := 0; uc_right := 0;
                      uc_closed := false; uc_sa := [] |}) = slen s).
  { destruct (Z.eq_dec (slen s) 0) as [E0|E0]; [lia|].
    destruct (Z.ltb_spec
                (uc_right
                   (accumulate (length s) s (slen s) false
                      {| uc_i := 0; uc_left := 0; uc_right := 0;
                         uc_closed := false; uc_sa := [] |})) (slen s)); [|lia].
    specialize (D (slen s - 1) ltac:(lia)). congruence. }
  rewrite E, Z.sub_0_r. apply substring_all.
Qed.

Lemma forallb_byte_at (P : byte -> bool) s :
  forallb P s = true -> forall k, 0 <= k < slen s -> P (byte_at s k) = true.
Proof.
  intros H k Hk. rewrite forallb_forall in H. apply H.
  unfold byte_at. destruct (Z.ltb_spec k 0); [lia|].
  apply nth_In. unfold slen in Hk. lia.
Qed.

Lemma unquote_loop_plain fuel : forall s i start q sa,
  no_quote_backslash s = true -> 0 <= i ->
  exists i', unquote_loop fuel s (slen s) i start q sa = (i', start, sa).
Proof.
  induction fuel as [|fuel IH]; intros s i start q sa Hn Hi;
    cbn [unquote_loop]; [eauto|].
  destruct (Z.ltb_spec i (slen s)); [|eauto].
  pose proof (forallb_byte_at _ s Hn i ltac:(lia)) as Hb. cbn beta in Hb.
  apply negb_true_iff in Hb. unfold char_at.
  apply orb_false_iff in Hb as [Hb Hb3]. rewrite Hb, Hb3.
  apply IH; auto; lia.
Qed.


(** The declaration loop only adds messages to the sink. *)
Lemma read_spec_errh fuel : forall reg val st st',
  read_spec fuel reg val st = inr st' ->
  exists extra, spec_errh st' = spec_errh st ++ extra.
Proof.
  induction fuel as [|fuel IH]; intros reg val st st' H.
  - injection H as <-. exists []. now rewrite app_nil_r.
  - cbn [read_spec] in H.
    repeat match type of H with
           | (if ?c then _ else _) = _ => destruct c
           | (let '(_, _) := ?x in _) = _ => destruct x
           | match ?x with _ => _ end = _ => destruct x
           | inl _ = inr _ => discriminate H
           | inr _ = inr _ => injection H as <-; cbn [spec_errh]
           end;
    try (eexists; unfold error; reflexivity);
    try (exists []; now rewrite app_nil_r);
    try (apply IH in H; cbn [spec_errh] in H; exact H).
Qed.

Lemma bind_arguments_errh cp_values reg args argname separator keywords_only
    errh val b :
  bind_arguments cp_values reg args argname separator keywords_only errh val
    = inr b ->
  exists extra, b_errh b = errh ++ extra.
Proof.
  unfold bind_arguments. intros H.
  destruct cp_values as [vals|]; [|discriminate].
  destruct (read_spec _ _ _ _) as [|st] eqn:E; [discriminate|].
  apply read_spec_errh in E. cbn [spec_errh] in E.
  destruct (assign_arguments _ _ _ _ _ _ _ _ _ _) as [[supplied kerr] vals'].
  repeat match type of H with
         | (if ?c then _ else _) = _ => destruct c
         | inl _ = inr _ => discriminate H
         end.
  injection H as <-. exact E.
Qed.

Section EngineFacts.

Variables Element Mem : Type.
Variable call_parse :
  funptr -> cp_value -> Str -> Str -> Element -> CpErrno
  -> cp_value * list Str * CpErrno.
Variable call_store : funptr -> cp_value -> Element -> Mem -> Mem.

Lemma store_loop_spec context vals nvals : forall fuel i mem stored,
  Z.of_nat fuel = nvals - i ->
  store_loop Element Mem call_store fuel context vals i nvals mem stored
  = (run_stores call_store context vals (bound_slots fuel vals i) mem,
     stored ++ bound_slots fuel vals i).
Proof.
  induction fuel as [|fuel IH]; intros i mem stored Hf;
    cbn [store_loop bound_slots].
  - cbn. now rewrite app_nil_r.
  - destruct (Z.ltb_spec i nvals); [|lia].
    destruct (argtype (value_at vals i)) eqn:E.
    + rewrite IH by lia. cbn [run_stores fold_left]. rewrite E.
      rewrite <- app_assoc. reflexivity.
    + rewrite IH by lia. reflexivity.
Qed.

Lemma concat_reports_nil (reports : list (Z * list Str)) :
  (forall i msgs, In (i, msgs) reports -> msgs = []) ->
  concat (map snd reports) = [].
Proof.
  induction reports as [|[i m] reports IH]; intros H; [reflexivity|].
  cbn. rewrite (H i m) by (left; reflexivity). apply IH.
  intros j msgs Hin. apply (H j). right. exact Hin.
Qed.

Lemma concat_reports_some (reports : list (Z * list Str)) i msgs :
  In (i, msgs) reports -> msgs <> [] ->
  (0 < length (concat (map snd reports)))%nat.
Proof.
  induction reports as [|[j m] reports IH]; intros Hin Hne; [destruct Hin|].
  cbn. rewrite length_app. destruct Hin as [Heq|Hin].
  - injection Heq as -> ->. destruct msgs; [congruence|]. cbn. lia.
  - specialize (IH Hin Hne). lia.
Qed.

(** C1: a store function runs only in a call that sends nothing to the
    sink; a call that sends a message runs no store function, leaves the
    storage as it was and returns [-1].  In particular, once the arguments
    are bound, if the parse function of any slot sends a message then no
    store function runs; and if neither the declarations nor any parse
    function sends a message then the store function of every bound slot
    runs, in the order of the slots, and the call returns their number. *)
Theorem atomic_commit :
  forall cp_values reg e mem args context argname separator keywords_only
         errh val,
  let r := cp_va_parsev Element Mem call_parse call_store cp_values reg e mem
             args context argname separator keywords_only errh val in
  (stored Mem r <> [] -> errh_out Mem r = errh)
  /\ (errh_out Mem r <> errh ->
      stored Mem r = [] /\ mem_out Mem r = mem /\ retval Mem r = -1)
  /\ (forall b vals e' reports,
        bind_arguments cp_values reg args argname separator keywords_only
          errh val = inr b ->
        parse_arguments Element call_parse context argname b e
          = (vals, e', reports) ->
        ((exists i msgs, In (i, msgs) reports /\ msgs <> []) ->
         stored Mem r = [] /\ mem_out Mem r = mem /\ retval Mem r = -1)
        /\ (b_errh b = errh ->
            (forall i msgs, In (i, msgs) reports -> msgs = []) ->
            let slots := bound_slots (Z.to_nat (b_nvalues b)) vals 0 in
            stored Mem r = slots
            /\ mem_out Mem r = run_stores call_store context vals slots mem
            /\ retval Mem r = Z.of_nat (length slots)
            /\ errh_out Mem r = errh)).
Proof.
  intros cp_values reg e mem args context argname separator keywords_only
         errh val r.
  subst r. unfold cp_va_parsev.
  destruct (bind_arguments cp_values reg args argname separator keywords_only
              errh val) as [errh'|b] eqn:Eb.
  - cbn [stored errh_out mem_out retval].
    repeat split; try congruence; intros; discriminate.
  - destruct (bind_arguments_errh _ _ _ _ _ _ _ _ _ Eb) as [extra Hx].
    destruct (parse_arguments Element call_parse context argname b e)
      as [[vals e'] reports] eqn:Ep.
    assert (Hn : (nerrors (b_errh b ++ concat (map snd reports)) =? nerrors errh)
                 = true -> extra = [] /\ concat (map snd reports) = []).
    { intros H. apply Z.eqb_eq in H. unfold nerrors in H.
      rewrite Hx, !length_app in H.
      split; apply length_zero_iff_nil; lia. }
    assert (Hst : store_loop Element Mem call_store (Z.to_nat (b_nvalues b))
                    context vals 0 (b_nvalues b) mem []
                  = (run_stores call_store context vals
                       (bound_slots (Z.to_nat (b_nvalues b)) vals 0) mem,
                     bound_slots (Z.to_nat (b_nvalues b)) vals 0)).
    { destruct (Z_le_gt_dec 0 (b_nvalues b)) as [Hnv|Hnv].
      - rewrite store_loop_spec by lia. reflexivity.
      - replace (Z.to_nat (b_nvalues b)) with O by lia. reflexivity. }
    rewrite Hst.
    destruct (nerrors (b_errh b ++ concat (map snd reports)) =? nerrors errh)
      eqn:En; cbn [negb stored errh_out mem_out retval].
    + destruct (Hn eq_refl) as [Hx0 Hr0]. subst extra.
      rewrite app_nil_r in Hx. rewrite Hr0, app_nil_r.
      split; [auto|]. split; [congruence|].
      intros b0 vals0 e0 reports0 Hb0 Hp0.
      injection Hb0 as <-. rewrite Ep in Hp0. injection Hp0 as <- <- <-.
      split.
      * intros (i & msgs & Hin & Hne).
        pose proof (concat_reports_some _ _ _ Hin Hne) as Hl.
        rewrite Hr0 in Hl. cbn in Hl. lia.
      * intros _ _. cbn zeta. auto.
    + split; [congruence|]. split; [auto|].
      intros b0 vals0 e0 reports0 Hb0 Hp0.
      injection Hb0 as <-. rewrite Ep in Hp0. injection Hp0 as <- <- <-.
      split; [auto|].
      intros Hb Hall. rewrite (concat_reports_nil _ Hall) in En.
      rewrite app_nil_r, Hb, Z.eqb_refl in En. discriminate.
Qed.

End EngineFacts.

(** *** Keywords given twice *)

Lemma value_at_modify_nat vals : forall j f i,
  nth i (modify_nat vals j f) blank_value
  = if (Nat.eqb i j && Nat.ltb j (length vals))%bool
    then f (nth i vals blank_value) else nth i vals blank_value.
Proof.
  induction vals as [|x t IH]; intros j f i.
  - cbn. rewrite andb_false_r. destruct i, j; reflexivity.
  - destruct j as [|j], i as [|i]; cbn [modify_nat nth length]; try reflexivity.
    rewrite IH. reflexivity.
Qed.

Lemma value_at_modify vals j f i :
  value_at (modify vals j f) i
  = if (i =? j) && (0 <=? j) && (j <? Z.of_nat (length vals))
    then f (value_at vals i) else value_at vals i.
Proof.
  unfold value_at, modify.
  destruct (Z.ltb_spec j 0).
  - destruct (Z.leb_spec 0 j); [lia|]. now rewrite andb_false_r.
  - destruct (Z.ltb_spec i 0).
    + destruct (Z.eqb_spec i j); [lia|]. reflexivity.
    + rewrite value_at_modify_nat.
      destruct (Z.eqb_spec i j), (Nat.eqb_spec (Z.to_nat i) (Z.to_nat j));
        try lia; cbn [andb]; [|reflexivity].
      destruct (Z.leb_spec 0 j); [|lia]. cbn [andb].
      destruct (Nat.ltb_spec (Z.to_nat j) (length vals)),
               (Z.ltb_spec j (Z.of_nat (length vals))); try lia; reflexivity.
Qed.

Lemma keyword_slot_ext fuel : forall vals vals' kw i nvals,
  (forall k, keyword (value_at vals' k) = keyword (value_at vals k)) ->
  keyword_slot fuel vals' kw i nvals = keyword_slot fuel vals kw i nvals.
Proof.
  induction fuel as [|fuel IH]; intros vals vals' kw i nvals H;
    cbn [keyword_slot]; [reflexivity|].
  rewrite H, (IH vals vals') by assumption. reflexivity.
Qed.

Lemma keyword_slot_found fuel : forall vals kw i nvals j,
  keyword_slot fuel vals kw i nvals = Some j ->
  i <= j < nvals /\ keyword (value_at vals j) = Some kw.
Proof.
  induction fuel as [|fuel IH]; intros vals kw i nvals j H;
    cbn [keyword_slot] in H; [discriminate|].
  destruct (Z.ltb_spec i nvals); [|discriminate].
  destruct (keyword (value_at vals i)) as [k|] eqn:Ek.
  - unfold str_eqb in H. destruct (list_eq_dec Byte.byte_eq_dec kw k).
    + injection H as <-. subst k. split; [lia|assumption].
    + apply IH in H as [? ?]. split; [lia|assumption].
  - apply IH in H as [? ?]. split; [lia|assumption].
Qed.

Lemma value_at_in_range vals j kw :
  keyword (value_at vals j) = Some kw -> 0 <= j < Z.of_nat (length vals).
Proof.
  unfold value_at. destruct (Z.ltb_spec j 0); [discriminate|].
  intros Hk. destruct (Z.ltb_spec j (Z.of_nat (length vals))); [lia|].
  rewrite nth_overflow in Hk by lia. discriminate.
Qed.


(** *** Unknown keywords *)

Lemma fold_add_keyword ks : forall sa,
  sa <> [] -> Forall (fun k => k <> []) ks ->
  fold_left add_keyword ks sa = sa ++ flat_map (fun x => lit ", " ++ x) ks.
Proof.
  induction ks as [|k ks IH]; intros sa Hsa Hks; cbn [fold_left flat_map].
  - now rewrite app_nil_r.
  - inversion Hks as [|? ? Hk Hks']; subst.
    assert (Hpos : (0 <? slen sa) = true).
    { apply Z.ltb_lt. destruct sa; [congruence|]. rewrite slen_cons.
      pose proof (slen_nonneg sa). lia. }
    unfold add_keyword at 2. rewrite Hpos. rewrite IH; auto.
    + rewrite <- !app_assoc. reflexivity.
    + destruct sa; [congruence|]. discriminate.
Qed.

Lemma fold_add_keyword_join ks :
  Forall (fun k => k <> []) ks ->
  fold_left add_keyword ks [] = join_comma ks.
Proof.
  destruct ks as [|k ks]; intros H; [reflexivity|].
  inversion H; subst. cbn [fold_left join_comma]. unfold add_keyword at 2.
  cbn. apply fold_add_keyword; auto.
Qed.

Lemma advance_bounds fuel p : forall pos, pos <= advance fuel p pos.
Proof.
  induction fuel as [|fuel IH]; intros pos; cbn [advance]; [lia|].
  destruct (p pos); [|lia]. specialize (IH (pos + 1)). lia.
Qed.

Lemma keyword_scan_bounds fuel : forall s i j,
  0 <= i <= slen s -> keyword_scan fuel s (slen s) i = Some j ->
  i <= j <= slen s.
Proof.
  induction fuel as [|fuel IH]; intros s i j Hi H; cbn [keyword_scan] in H.
  - injection H as <-. lia.
  - destruct (Z.ltb_spec i (slen s)); [|injection H as <-; lia].
    repeat match type of H with
           | (if ?c then _ else _) = _ => destruct c
           | Some _ = Some _ => injection H as <-; lia
           | None = Some _ => discriminate
           end;
      apply IH in H; lia.
Qed.

Lemma cp_keyword_nonempty arg kw rest :
  cp_keyword arg true = Some (kw, rest) -> kw <> [].
Proof.
  unfold cp_keyword. intros H.
  destruct (keyword_scan _ _ _ _) as [i|] eqn:E; [|discriminate].
  pose proof (slen_nonneg arg).
  apply keyword_scan_bounds in E; [|lia].
  destruct (Z.eqb_spec i 0); cbn [orb negb andb] in H; [discriminate|].
  injection H as <- _. unfold substring. cbn [orb Z.ltb Z.compare].
  destruct (Z.leb_spec i 0); [lia|]. cbn [skipn Z.to_nat].
  destruct arg as [|a t]; [change (slen []) with 0 in *; lia|].
  replace (Z.to_nat i) with (S (Z.to_nat (i - 1))) by lia. discriminate.
Qed.

Lemma assign_keyword_argument_cases vals arg npos nvals :
  let r := assign_keyword_argument vals arg npos nvals in
  (fst r = kwNoKeyword /\ snd r = vals)
  \/ (fst r = kwSuccess
      /\ exists i rest, snd r = modify vals i
                          (fun x => set_v_string (set_v x (V_i 1)) rest))
  \/ (fst r = kwUnkKeyword /\ snd r = vals /\ keyword_of arg <> []
      /\ keyword_slot (Z.to_nat (nvals - npos)) vals (keyword_of arg)
           npos nvals = None).
Proof.
  unfold assign_keyword_argument, keyword_of.
  destruct (cp_keyword arg true) as [[kw rest]|] eqn:E; cbn zeta.
  - destruct (slen rest =? 0); [left; split; reflexivity|].
    destruct (keyword_slot _ _ _ _ _) eqn:Es.
    + right; left. split; [reflexivity|]. cbn [snd]. eauto.
    + right; right. repeat split; auto.
      eapply cp_keyword_nonempty; eauto.
  - left; split; reflexivity.
Qed.

Lemma assign_keyword_argument_keywords vals arg npos nvals k :
  keyword (value_at (snd (assign_keyword_argument vals arg npos nvals)) k)
  = keyword (value_at vals k).
Proof.
  destruct (assign_keyword_argument_cases vals arg npos nvals)
    as [[_ ->]|[[_ (i & rest & ->)]|[_ [-> _]]]]; try reflexivity.
  rewrite value_at_modify.
  destruct ((k =? i) && (0 <=? i) && (i <? Z.of_nat (length vals)));
    reflexivity.
Qed.

(** The assignment loop joins the unknown keywords and leaves the declared
    keywords alone. *)
Lemma assign_arguments_spec args : forall i argname npos nvals mixed ignore
    supplied kerr vals,
  let r := assign_arguments args i argname npos nvals mixed ignore supplied
             kerr vals in
  snd (fst r)
  = fold_left add_keyword
      (unknown_keywords args npos nvals mixed ignore supplied vals) kerr
  /\ (forall k, keyword (value_at (snd r) k) = keyword (value_at vals k))
  /\ Forall (fun kw => kw <> []
                       /\ keyword_slot (Z.to_nat (nvals - npos)) vals kw
                            npos nvals = None)
       (unknown_keywords args npos nvals mixed ignore supplied vals).
Proof.
  induction args as [|arg args IH];
    intros i argname npos nvals mixed ignore supplied kerr vals;
    cbn [assign_arguments unknown_keywords].
  - cbn. auto.
  - pose proof (assign_keyword_argument_cases vals arg npos nvals) as Hc.
    pose proof (assign_keyword_argument_keywords vals arg npos nvals) as Hk.
    destruct (assign_keyword_argument vals arg npos nvals) as [result vals1].
    cbn [fst snd] in Hc, Hk. cbn zeta in Hc.
    assert (Hslot : forall kw,
               keyword_slot (Z.to_nat (nvals - npos)) vals1 kw npos nvals
               = keyword_slot (Z.to_nat (nvals - npos)) vals kw npos nvals)
      by (intros; apply keyword_slot_ext; exact Hk).
    assert (Hstep : forall sup ke,
               let r := assign_arguments args (i + 1) argname npos nvals mixed
                          ignore sup ke vals1 in
               snd (fst r)
               = fold_left add_keyword
                   (unknown_keywords args npos nvals mixed ignore sup vals1) ke
               /\ (forall k, keyword (value_at (snd r) k)
                             = keyword (value_at vals k))
               /\ Forall (fun kw => kw <> []
                            /\ keyword_slot (Z.to_nat (nvals - npos)) vals kw
                                 npos nvals = None)
                    (unknown_keywords args npos nvals mixed ignore sup vals1)).
    { intros sup ke. specialize (IH (i + 1) argname npos nvals mixed ignore
                                   sup ke vals1).
      cbn zeta in *. destruct IH as (A & B & C). repeat split; auto.
      - intros k. rewrite B. apply Hk.
      - eapply Forall_impl; [|exact C]. cbn beta. intros kw [? ?].
        split; auto. now rewrite <- Hslot. }
    destruct (Z.leb_spec npos supplied).
    + destruct Hc as [[-> ->]|[[-> _]|[-> [-> [Hne Hnone]]]]].
      * change (kwNoKeyword =? kwDupKeyword) with false.
        change (kwNoKeyword =? kwSuccess) with false.
        change (kwNoKeyword =? kwNoKeyword) with true. cbn [orb].
        destruct ignore; apply Hstep.
      * change (kwSuccess =? kwDupKeyword) with false.
        change (kwSuccess =? kwSuccess) with true. cbn [orb]. apply Hstep.
      * change (kwUnkKeyword =? kwDupKeyword) with false.
        change (kwUnkKeyword =? kwSuccess) with false.
        change (kwUnkKeyword =? kwNoKeyword) with false. cbn [orb].
        destruct ignore; [apply Hstep|].
        specialize (Hstep supplied
                      (add_keyword_error kerr kwUnkKeyword arg argname i)).
        cbn zeta in *. destruct Hstep as (A & B & C).
        repeat split; auto.
    + assert (Hpos : forall sup ke,
                 let r := assign_arguments args (i + 1) argname npos nvals
                            mixed ignore sup ke
                            (modify vals supplied
                               (fun x => set_v_string x arg)) in
                 snd (fst r)
                 = fold_left add_keyword
                     (unknown_keywords args npos nvals mixed ignore sup
                        (modify vals supplied (fun x => set_v_string x arg)))
                     ke
                 /\ (forall k, keyword (value_at (snd r) k)
                               = keyword (value_at vals k))
                 /\ Forall (fun kw => kw <> []
                              /\ keyword_slot (Z.to_nat (nvals - npos)) vals kw
                                   npos nvals = None)
                      (unknown_keywords args npos nvals mixed ignore sup
                         (modify vals supplied
                            (fun x => set_v_string x arg)))).
      { intros sup ke.
        assert (Hk' : forall k,
                   keyword (value_at (modify vals supplied
                                        (fun x => set_v_string x arg)) k)
                   = keyword (value_at vals k)).
        { intros k. rewrite value_at_modify.
          destruct ((k =? supplied) && (0 <=? supplied)
                    && (supplied <? Z.of_nat (length vals))); reflexivity. }
        specialize (IH (i + 1) argname npos nvals mixed ignore sup ke
                      (modify vals supplied (fun x => set_v_string x arg))).
        cbn zeta in *. destruct IH as (A & B & C). repeat split; auto.
        - intros k. rewrite B. apply Hk'.
        - eapply Forall_impl; [|exact C]. cbn beta. intros kw [? E].
          split; auto. rewrite <- E. symmetry.
          apply keyword_slot_ext. exact Hk'. }
      destruct mixed; cbn [andb].
      * destruct Hc as [[-> ->]|[[-> _]|[-> [-> _]]]].
        -- change (0 <=? kwNoKeyword) with false.
           change (kwNoKeyword =? kwDupKeyword) with false.
           change (kwNoKeyword =? kwSuccess) with false. apply Hpos.
        -- change (0 <=? kwSuccess) with true.
           change (kwSuccess =? kwSuccess) with true. apply Hstep.
        -- change (0 <=? kwUnkKeyword) with false.
           change (kwUnkKeyword =? kwDupKeyword) with false.
           change (kwUnkKeyword =? kwSuccess) with false. apply Hpos.
      * apply Hpos.
Qed.

Lemma declared_keywords_ext n : forall vals vals' from,
  (forall k, keyword (value_at vals' k) = keyword (value_at vals k)) ->
  declared_keywords n vals' from = declared_keywords n vals from.
Proof.
  induction n as [|n IH]; intros vals vals' from H; cbn [declared_keywords];
    [reflexivity|].
  rewrite H, (IH vals vals') by assumption. reflexivity.
Qed.

Lemma keywords_list_spec vals npos nvals : forall fuel i sa,
  Z.of_nat fuel = nvals - i -> npos < i ->
  keywords_list fuel vals i npos nvals sa
  = sa ++ flat_map (fun x => lit ", " ++ x) (declared_keywords fuel vals i).
Proof.
  induction fuel as [|fuel IH]; intros i sa Hf Hi;
    cbn [keywords_list declared_keywords flat_map].
  - now rewrite app_nil_r.
  - destruct (Z.ltb_spec i nvals); [|lia].
    destruct (Z.ltb_spec npos i); [|lia].
    rewrite IH by lia. rewrite <- !app_assoc. reflexivity.
Qed.

Lemma keywords_list_join vals npos nvals :
  keywords_list (Z.to_nat (nvals - npos)) vals npos npos nvals []
  = join_comma (declared_keywords (Z.to_nat (nvals - npos)) vals npos).
Proof.
  destruct (Z.to_nat (nvals - npos)) as [|n] eqn:E;
    cbn [keywords_list declared_keywords join_comma]; [reflexivity|].
  destruct (Z.ltb_spec npos nvals); [|lia].
  rewrite Z.ltb_irrefl. cbn [app].
  apply keywords_list_spec; lia.
Qed.

Section KeywordErrors.

Variables Element Mem : Type.
Variable call_parse :
  funptr -> cp_value -> Str -> Str -> Element -> CpErrno
  -> cp_value * list Str * CpErrno.
Variable call_store : funptr -> cp_value -> Element -> Mem -> Mem.

Lemma unknown_keywords_reported :
  forall vals reg e mem args context argname separator errh val st,
  read_spec (S (length val)) reg val
    {| nvalues := 0; nrequired := -1; npositional := -1;
       mixed_keywords := false; ignore_rest := false;
       values := vals; spec_errh := errh |} = inr st ->
  let nvals := nvalues st in
  let npos := if npositional st <? 0 then nvals else npositional st in
  let unknown := unknown_keywords args npos nvals (mixed_keywords st)
                   (ignore_rest st) 0 (values st) in
  unknown <> [] ->
  Forall (fun kw => keyword_slot (Z.to_nat (nvals - npos)) (values st) kw
                      npos nvals = None) unknown
  /\ cp_va_parsev Element Mem call_parse call_store (Some vals) reg e mem
       args context argname separator false errh val
     = {| retval := -1;
          errh_out :=
            spec_errh st
            ++ [bad_keywords_message unknown
                  (declared_keywords (Z.to_nat (nvals - npos)) (values st)
                     npos)];
          mem_out := mem; stored := [] |}.
Proof.
  intros vals reg e mem args context argname separator errh val st Hst
         nvals npos unknown Hne.
  pose proof (assign_arguments_spec args 0 argname npos nvals
                (mixed_keywords st) (ignore_rest st) 0 [] (values st)) as H.
  cbn zeta in H. fold unknown in H. destruct H as (A & B & C).
  assert (Hall : Forall (fun k : Str => k <> []) unknown).
  { eapply Forall_impl; [|exact C]. cbn beta. intros k [? _]. assumption. }
  split.
  { eapply Forall_impl; [|exact C]. cbn beta. intros k [_ ?]. assumption. }
  unfold cp_va_parsev, bind_arguments. cbn [negb]. rewrite Hst.
  fold nvals. fold npos.
  destruct (assign_arguments args 0 argname npos nvals (mixed_keywords st)
              (ignore_rest st) 0 [] (values st)) as [[supplied kerr] vals'].
  cbn [fst snd] in A, B.
  rewrite fold_add_keyword_join in A by assumption.
  assert (Hk : (0 <? slen kerr) = true).
  { apply Z.ltb_lt. rewrite A. destruct unknown as [|k ks]; [congruence|].
    inversion Hall as [|? ? Hk0 _]; subst. cbn [join_comma].
    destruct k as [|c k]; [congruence|]. cbn [app]. rewrite slen_cons.
    pose proof (slen_nonneg (k ++ flat_map (fun x => lit ", " ++ x) ks)).
    lia. }
  rewrite Hk. cbn [andb negb].
  rewrite keywords_list_join.
  rewrite (declared_keywords_ext _ (values st) vals') by exact B.
  rewrite A. reflexivity.
Qed.

End KeywordErrors.

(** ** Integers *)

Example cp_unsigned_hex : forall e,
  cp_unsigned_auto (lit "0x1F") e = (Some 31, CPE_OK).
Proof. intros e. vm_compute. reflexivity. Qed.

Example cp_unsigned_octal : forall e,
  cp_unsigned_auto (lit "017") e = (Some 15, CPE_OK).
Proof. intros e. vm_compute. reflexivity. Qed.

Example cp_integer_negative : forall e,
  cp_integer_auto (lit "-5") e = (Some (-5), CPE_OK).
Proof. intros e. vm_compute. reflexivity. Qed.

Example cp_unsigned_saturates : forall e,
  cp_unsigned_auto (lit "4294967296") e = (Some 4294967295, CPE_OVERFLOW).
Proof. intros e. vm_compute. reflexivity. Qed.

(** C6: the test [new_val < val] misses the overflow of ten thousand
    million: the text is accepted, no overflow is recorded and the value is
    the wrapped one, not the saturated one. *)
Theorem cp_unsigned_overflow_missed : forall e,
  cp_unsigned_auto (lit "10000000000") e = (Some 1410065408, CPE_OK)
  /\ 10000000000 > 4294967295.
Proof. intros e. split; [vm_compute; reflexivity | lia]. Qed.

(** ** Fixed-point reals *)

(** C4: seven sixteenths is unparsed as 0.47, which parses back as eight
    sixteenths. *)
Theorem real2_round_trip_fails :
  cp_unparse_real2 7 4 = lit "0.47"
  /\ cp_unsigned_real2 (lit "0.47") 4 = (Some 8, CPE_OK).
Proof. split; vm_compute; reflexivity. Qed.

(** ** IPv6 prefixes *)

(** Every mask of [n] leading one-bits, [n] from 0 to 128, passes the
    check with the count [n]. *)
Lemma mask_bits_prefix_mask :
  forallb (fun n => match mask_bits (prefix_mask (Z.of_nat n)) with
                    | Some bits => bits =? Z.of_nat n
                    | None => false
                    end) (seq 0 129) = true.
Proof. vm_compute. reflexivity. Qed.

(** C3: a mask whose sixth byte is set after two zero bytes is taken as a
    24-bit prefix, whatever the lookup service knows. *)
Theorem cp_ip6_prefix_accepts_gap : forall ai,
  cp_ip6_address ai (lit "ffff:ff00:ff::")
    = Some [255; 255; 255; 0; 0; 255; 0; 0; 0; 0; 0; 0; 0; 0; 0; 0]
  /\ is_prefix_mask [255; 255; 255; 0; 0; 255; 0; 0; 0; 0; 0; 0; 0; 0; 0; 0]
     = false
  /\ cp_ip6_prefix ai (lit "::/ffff:ff00:ff::") false
     = Some ([0; 0; 0; 0; 0; 0; 0; 0; 0; 0; 0; 0; 0; 0; 0; 0], 24).
Proof. intros ai. repeat split; vm_compute; reflexivity. Qed.

(** *** Calls used as examples *)

(** *** The binding engine on these calls *)

Lemma atomic_commit_witness :
  errh_out Memory call_bad_integer <> []
  /\ stored Memory call_bad_integer = []
  /\ mem_out Memory call_bad_integer = []
  /\ retval Memory call_bad_integer = -1.
Proof.
  assert (H : errh_out Memory call_bad_integer <> [])
    by (vm_compute; discriminate).
  split; [exact H|].
  exact (proj1 (proj2
           (atomic_commit unit Memory (builtin_parse no_other_parse)
              (builtin_store no_other_store) (snd cp_va_static_initialize)
              (fst cp_va_static_initialize) CPE_OK [] [lit "x"; lit "2"] tt
              (lit "argument") (lit ", ") false [] two_ints_and_keyword)) H).
Defined.








(** ** IPv6 addresses *)

Lemma xvalue_range c : isxdigit c = true -> 0 <= xvalue c <= 15.
Proof.
  unfold isxdigit, isdigit, xvalue. consts. intros H.
  destruct (Z.leb_spec 48 c), (Z.leb_spec c 57); cbn [andb] in *; try lia;
    destruct (Z.leb_spec 65 c), (Z.leb_spec c 70); cbn [andb orb] in *;
    try lia;
    destruct (Z.leb_spec 97 c), (Z.leb_spec c 102); cbn [andb orb] in *;
    try lia; discriminate.
Qed.

Lemma group_loop_reads g : forall pre rest fuel part (k : nat),
  forallb (fun b => isxdigit (code b)) g = true -> no_hex_ahead rest ->
  (length g <= fuel)%nat -> 0 <= part < 16 ^ Z.of_nat k ->
  (k + length g <= 4)%nat ->
  group_loop fuel (pre ++ g ++ rest) (slen (pre ++ g ++ rest)) (slen pre) part
  = (slen pre + slen g, group_value_from g part).
Proof.
  induction g as [|b g IH]; intros pre rest fuel part k Hg Hr Hf Hp Hk.
  - cbn [app]. change (slen []) with 0. rewrite Z.add_0_r.
    destruct fuel; cbn [group_loop]; [reflexivity|].
    destruct rest as [|c rest].
    + rewrite app_nil_r, Z.ltb_irrefl. reflexivity.
    + unfold char_at. rewrite byte_at_here. cbn in Hr. rewrite Hr.
      now rewrite andb_false_r.
  - cbn [forallb] in Hg. apply andb_true_iff in Hg as [Hb Hg].
    destruct fuel as [|fuel]; [cbn in Hf; lia|]. cbn [group_loop app].
    unfold char_at. rewrite byte_at_here. rewrite Hb.
    assert (Hlen : slen pre < slen (pre ++ b :: g ++ rest)).
    { rewrite slen_app, slen_cons. pose proof (slen_nonneg (g ++ rest)). lia. }
    apply Z.ltb_lt in Hlen. rewrite Hlen.
    assert (H16 : 16 ^ Z.of_nat k <= 16 ^ 4).
    { apply Z.pow_le_mono_r; cbn [length] in Hk; lia. }
    change (16 ^ 4) with 65536 in H16.
    destruct (Z.leb_spec part 65535); [|lia]. cbn [andb].
    pose proof (xvalue_range _ Hb) as Hx.
    rewrite Z.shiftl_mul_pow2 by lia. change (2 ^ 4) with 16.
    assert (Hnext : 0 <= part * 16 + xvalue (code b) < 16 ^ Z.of_nat (S k)).
    { rewrite Nat2Z.inj_succ, Z.pow_succ_r by lia. lia. }
    assert (H16' : 16 ^ Z.of_nat (S k) <= 16 ^ 4).
    { apply Z.pow_le_mono_r; cbn [length] in Hk; lia. }
    change (16 ^ 4) with 65536 in H16'.
    unfold u32. rewrite Z.mod_small by lia.
    replace (pre ++ b :: g ++ rest) with ((pre ++ [b]) ++ g ++ rest)
      by (rewrite <- app_assoc; reflexivity).
    replace (slen pre + 1) with (slen (pre ++ [b]))
      by (rewrite slen_app; reflexivity).
    rewrite (IH (pre ++ [b]) rest fuel _ (S k)); auto;
      try (cbn [length] in *; lia).
    rewrite slen_app, !slen_cons. change (slen []) with 0.
    replace (slen pre + (1 + 0) + slen g) with (slen pre + (1 + slen g))
      by lia.
    reflexivity.
Qed.

Lemma hex_group_inv g :
  hex_group g = true ->
  (1 <= length g <= 4)%nat
  /\ forallb (fun b => isxdigit (code b)) g = true.
Proof.
  unfold hex_group. intros H.
  apply andb_true_iff in H as [H H3]. apply andb_true_iff in H as [H1 H2].
  apply negb_true_iff, Nat.eqb_neq in H1. apply Nat.leb_le in H2.
  split; [lia|assumption].
Qed.

Lemma hex_group_first g :
  hex_group g = true ->
  exists b t, g = b :: t /\ isxdigit (code b) = true.
Proof.
  intros H. apply hex_group_inv in H as [Hl Hd].
  destruct g as [|b t]; [cbn in Hl; lia|].
  cbn [forallb] in Hd. apply andb_true_iff in Hd as [Hb _]. eauto.
Qed.

Lemma group_value_range g :
  hex_group g = true -> 0 <= group_value g <= 65535.
Proof.
  intros H. apply hex_group_inv in H as [Hl Hd]. unfold group_value.
  assert (G : forall g part (k : nat),
             forallb (fun b => isxdigit (code b)) g = true ->
             0 <= part < 16 ^ Z.of_nat k ->
             0 <= group_value_from g part < 16 ^ Z.of_nat (k + length g)).
  { clear. induction g as [|b g IH]; intros part k Hd Hp.
    - cbn [length group_value_from fold_left]. now rewrite Nat.add_0_r.
    - cbn [forallb] in Hd. apply andb_true_iff in Hd as [Hb Hd].
      pose proof (xvalue_range _ Hb).
      cbn [length group_value_from fold_left].
      replace (k + S (length g))%nat with (S k + length g)%nat by lia.
      apply IH; auto. rewrite Nat2Z.inj_succ, Z.pow_succ_r by lia. lia. }
  specialize (G g 0 O Hd ltac:(cbn; lia)). cbn [Nat.add] in G.
  assert (16 ^ Z.of_nat (length g) <= 16 ^ 4)
    by (apply Z.pow_le_mono_r; lia).
  change (16 ^ 4) with 65536 in *. lia.
Qed.

Lemma ip6_groups_stop n s st cc pos :
  skip_colons s (slen s) (sc_d st) (sc_pos st) (sc_coloncolon st) = (cc, pos) ->
  slen s <= pos \/ isxdigit (char_at s pos) = false ->
  ip6_groups (S n) s (slen s) st
  = Some {| sc_d := sc_d st; sc_pos := pos; sc_coloncolon := cc;
            sc_last_part_pos := sc_last_part_pos st;
            sc_parts := sc_parts st |}.
Proof.
  intros Hs Hstop. cbn [ip6_groups]. rewrite Hs.
  destruct Hstop as [H|H].
  - apply Z.leb_le in H. rewrite H. reflexivity.
  - rewrite H. now rewrite orb_true_r.
Qed.

(** A round of the loop that reads the group [g] after the separator
    [sep]. *)
Lemma ip6_groups_step n pre sep g rest st cc :
  let s := pre ++ sep ++ g ++ rest in
  sc_pos st = slen pre ->
  hex_group g = true -> no_hex_ahead rest ->
  skip_colons s (slen s) (sc_d st) (slen pre) (sc_coloncolon st)
  = (cc, slen pre + slen sep) ->
  ip6_groups (S n) s (slen s) st
  = ip6_groups n s (slen s)
      {| sc_d := sc_d st + 1; sc_pos := slen pre + slen sep + slen g;
         sc_coloncolon := cc; sc_last_part_pos := slen pre + slen sep;
         sc_parts := upd (sc_parts st) (sc_d st) (group_value g) |}.
Proof.
  intros s Hpos Hg Hr Hs. cbn [ip6_groups]. rewrite Hpos, Hs.
  destruct (hex_group_first g Hg) as (b & t & -> & Hb).
  pose proof (hex_group_inv _ Hg) as [Hl Hd].
  assert (Es : s = (pre ++ sep) ++ (b :: t) ++ rest)
    by (unfold s; now rewrite <- app_assoc).
  assert (Ep : slen pre + slen sep = slen (pre ++ sep))
    by now rewrite slen_app.
  assert (Hc : char_at s (slen pre + slen sep) = code b).
  { rewrite Es, Ep. unfold char_at. cbn [app]. now rewrite byte_at_here. }
  assert (Hlt : slen pre + slen sep < slen s).
  { unfold s. rewrite !slen_app, slen_cons.
    pose proof (slen_nonneg t). pose proof (slen_nonneg rest). lia. }
  destruct (Z.leb_spec (slen s) (slen pre + slen sep)); [lia|].
  rewrite Hc, Hb. cbn [orb negb].
  assert (Hgl : group_loop (length s) s (slen s) (slen pre + slen sep) 0
                = (slen pre + slen sep + slen (b :: t),
                   group_value (b :: t))).
  { assert (Hfl : (length (b :: t) <= length s)%nat)
      by (unfold s; rewrite !length_app; lia).
    revert Hfl. generalize (length s). intros fuel Hfl.
    rewrite Es, Ep.
    apply (group_loop_reads (b :: t) (pre ++ sep) rest fuel 0 O);
      auto; cbn [length] in *; lia. }
  rewrite Hgl.
  pose proof (group_value_range _ Hg).
  destruct (Z.ltb_spec 65535 (group_value (b :: t))); [lia|]. reflexivity.
Qed.

Lemma skip_colons_none s len pos cc :
  char_at s pos <> ch ":" -> skip_colons s len 0 pos cc = (cc, pos).
Proof.
  intros H. unfold skip_colons. apply Z.eqb_neq in H. rewrite H.
  rewrite !andb_false_r. reflexivity.
Qed.

Lemma isxdigit_not_colon c : isxdigit c = true -> c <> ch ":".
Proof.
  unfold isxdigit, isdigit. consts. intros H Hc. subst c.
  vm_compute in H. discriminate.
Qed.

Lemma skip_colons_single pre b rest d cc :
  d <> 0 -> isxdigit (code b) = true ->
  let s := pre ++ lit ":" ++ b :: rest in
  skip_colons s (slen s) d (slen pre) cc = (cc, slen pre + 1).
Proof.
  intros Hd Hb s. subst s.
  change (lit ":" ++ b :: rest) with (":"%byte :: b :: rest).
  set (s := pre ++ ":"%byte :: b :: rest).
  unfold skip_colons.
  assert (H0 : char_at s (slen pre) = ch ":")
    by (unfold s, char_at; now rewrite byte_at_here).
  assert (H1 : char_at s (slen pre + 1) = code b).
  { unfold s, char_at. rewrite (byte_at_app_r pre _ 1) by lia. reflexivity. }
  assert (Hl : slen pre < slen s - 1).
  { unfold s. rewrite slen_app, !slen_cons. pose proof (slen_nonneg rest).
    lia. }
  rewrite H0, H1. pose proof (isxdigit_not_colon _ Hb) as Hn.
  apply Z.eqb_neq in Hn. rewrite Hn. rewrite andb_false_r.
  apply Z.ltb_lt in Hl. rewrite Hl, Hb, Z.eqb_refl.
  apply Z.eqb_neq in Hd. rewrite Hd. reflexivity.
Qed.

Lemma skip_colons_double pre rest d cc :
  cc < 0 ->
  let s := pre ++ lit "::" ++ rest in
  skip_colons s (slen s) d (slen pre) cc = (d, slen pre + 2).
Proof.
  intros Hc s. subst s.
  change (lit "::" ++ rest) with (":"%byte :: ":"%byte :: rest).
  set (s := pre ++ ":"%byte :: ":"%byte :: rest).
  unfold skip_colons.
  assert (H0 : char_at s (slen pre) = ch ":")
    by (unfold s, char_at; now rewrite byte_at_here).
  assert (H1 : char_at s (slen pre + 1) = ch ":").
  { unfold s, char_at. rewrite (byte_at_app_r pre _ 1) by lia. reflexivity. }
  assert (Hl : slen pre < slen s - 1).
  { unfold s. rewrite slen_app, !slen_cons. pose proof (slen_nonneg rest).
    lia. }
  rewrite H0, H1, !Z.eqb_refl.
  apply Z.ltb_lt in Hl, Hc. rewrite Hl, Hc. reflexivity.
Qed.

Lemma skip_colons_end s d cc :
  skip_colons s (slen s) d (slen s) cc = (cc, slen s).
Proof.
  unfold skip_colons.
  destruct (Z.ltb_spec (slen s) (slen s - 1)); [lia|].
  rewrite !andb_false_r. reflexivity.
Qed.

Lemma no_hex_ahead_colon rest : no_hex_ahead (lit ":" ++ rest).
Proof. reflexivity. Qed.

Lemma no_hex_ahead_double rest : no_hex_ahead (lit "::" ++ rest).
Proof. reflexivity. Qed.

Lemma colon_groups_no_hex gs rest :
  no_hex_ahead rest -> no_hex_ahead (colon_groups gs ++ rest).
Proof. destruct gs; intros H; [exact H|reflexivity]. Qed.

(** The rounds of the loop over groups that each follow a single colon. *)
Lemma ip6_groups_run gs : forall n pre rest st,
  Forall (fun g => hex_group g = true) gs -> no_hex_ahead rest ->
  sc_pos st = slen pre -> 0 < sc_d st ->
  let s := pre ++ colon_groups gs ++ rest in
  exists lpp,
    ip6_groups (length gs + n) s (slen s) st
    = ip6_groups n s (slen s)
        {| sc_d := sc_d st + Z.of_nat (length gs);
           sc_pos := slen pre + slen (colon_groups gs);
           sc_coloncolon := sc_coloncolon st;
           sc_last_part_pos := lpp;
           sc_parts := store_groups (sc_parts st) (sc_d st) gs |}.
Proof.
  induction gs as [|g gs IH]; intros n pre rest st Hgs Hr Hpos Hd s.
  - exists (sc_last_part_pos st). cbn [length Nat.add colon_groups flat_map
                                       store_groups].
    change (slen []) with 0. rewrite !Z.add_0_r, <- Hpos.
    unfold store_groups. cbn [map store_values]. destruct st; reflexivity.
  - inversion Hgs as [|? ? Hg Hgs']; subst.
    destruct (hex_group_first g Hg) as (b & t & Eg & Hb).
    cbn [length Nat.add].
    assert (Es : s = pre ++ lit ":" ++ g ++ (colon_groups gs ++ rest)).
    { unfold s, colon_groups. cbn [flat_map]. now rewrite <- !app_assoc. }
    pose proof (ip6_groups_step (length gs + n) pre (lit ":") g
                  (colon_groups gs ++ rest) st (sc_coloncolon st) Hpos Hg
                  (colon_groups_no_hex gs rest Hr)) as Hstep.
    cbn zeta in Hstep. rewrite <- Es in Hstep.
    rewrite Hstep.
    2:{ rewrite Es, Eg. cbn [app]. 
        apply (skip_colons_single pre b (t ++ colon_groups gs ++ rest));
          [lia|assumption]. }
    change (slen (lit ":")) with 1.
    assert (Es' : s = (pre ++ lit ":" ++ g) ++ colon_groups gs ++ rest)
      by (rewrite Es; now rewrite <- !app_assoc).
    match goal with |- context [ip6_groups (length gs + n) s (slen s) ?st1] =>
      destruct (IH n (pre ++ lit ":" ++ g) rest st1 Hgs' Hr) as [lpp Hrun]
    end.
    + cbn [sc_pos]. rewrite !slen_app. change (slen (lit ":")) with 1. lia.
    + cbn [sc_d]. lia.
    + cbn zeta in Hrun. rewrite <- Es' in Hrun. exists lpp.
      rewrite Hrun. unfold store_groups.
      cbn [sc_d sc_parts sc_coloncolon map store_values].
      f_equal. f_equal.
      * rewrite Nat2Z.inj_succ. lia.
      * unfold colon_groups. cbn [flat_map].
        rewrite !slen_app. change (slen (lit ":")) with 1. lia.
Qed.

(** The rounds that read the groups [g :: gs] at the start of the text. *)
Lemma ip6_groups_join g gs n rest :
  Forall (fun g => hex_group g = true) (g :: gs) -> no_hex_ahead rest ->
  let s := join_colon (g :: gs) ++ rest in
  exists lpp,
    ip6_groups (S (length gs + n)) s (slen s) ip6_start
    = ip6_groups n s (slen s)
        {| sc_d := Z.of_nat (S (length gs));
           sc_pos := slen (join_colon (g :: gs));
           sc_coloncolon := -1; sc_last_part_pos := lpp;
           sc_parts := store_groups (repeat 0 8) 0 (g :: gs) |}.
Proof.
  intros Hgs Hr s. inversion Hgs as [|? ? Hg Hgs']; subst.
  destruct (hex_group_first g Hg) as (b & t & Eg & Hb).
  assert (Es : s = [] ++ [] ++ g ++ (colon_groups gs ++ rest)).
  { unfold s, join_colon. fold (colon_groups gs). cbn [app].
    now rewrite <- app_assoc. }
  pose proof (ip6_groups_step (length gs + n) [] [] g
                (colon_groups gs ++ rest) ip6_start (-1) eq_refl Hg
                (colon_groups_no_hex gs rest Hr)) as Hstep.
  cbn zeta in Hstep. rewrite <- Es in Hstep. rewrite Hstep.
  2:{ apply skip_colons_none. rewrite Es, Eg. cbn [app].
      change (char_at (b :: t ++ colon_groups gs ++ rest) (slen []))
        with (code b).
      apply isxdigit_not_colon. exact Hb. }
  change (slen []) with 0. cbn [Z.add].
  assert (Es' : s = g ++ colon_groups gs ++ rest) by exact Es.
  match goal with |- context [ip6_groups (length gs + n) s (slen s) ?st1] =>
    destruct (ip6_groups_run gs n g rest st1 Hgs' Hr) as [lpp Hrun]
  end.
  - reflexivity.
  - cbn [sc_d ip6_start]. lia.
  - cbn zeta in Hrun. rewrite <- Es' in Hrun. exists lpp. rewrite Hrun.
    cbn [sc_d sc_parts sc_coloncolon ip6_start].
    unfold store_groups. cbn [map store_values].
    f_equal. f_equal.
    + rewrite Nat2Z.inj_succ. lia.
    + unfold join_colon. fold (colon_groups gs). now rewrite slen_app.
Qed.

Lemma ip6_groups_0 s len st : ip6_groups 0 s len st = Some st.
Proof. reflexivity. Qed.

Lemma ip6_groups_at_end n s st :
  sc_pos st = slen s ->
  ip6_groups (S n) s (slen s) st = Some st.
Proof.
  intros Hp.
  rewrite (ip6_groups_stop n s st (sc_coloncolon st) (slen s)).
  - rewrite <- Hp. destruct st; reflexivity.
  - rewrite Hp. apply skip_colons_end.
  - left. lia.
Qed.

(** The rounds from a [::] to the end of the text. *)
Lemma ip6_groups_tail rs n pre st :
  Forall (fun g => hex_group g = true) rs ->
  sc_pos st = slen pre -> sc_coloncolon st < 0 -> 0 <= sc_d st ->
  let s := pre ++ lit "::" ++ join_colon rs in
  exists lpp,
    ip6_groups (S (length rs + n)) s (slen s) st
    = Some {| sc_d := sc_d st + Z.of_nat (length rs); sc_pos := slen s;
              sc_coloncolon := sc_d st; sc_last_part_pos := lpp;
              sc_parts := store_groups (sc_parts st) (sc_d st) rs |}.
Proof.
  intros Hrs Hpos Hcc Hd s.
  destruct rs as [|r rs].
  - exists (sc_last_part_pos st). cbn [length Nat.add].
    rewrite (ip6_groups_stop n s st (sc_d st) (slen s)).
    + unfold store_groups. cbn [map store_values]. now rewrite Z.add_0_r.
    + rewrite Hpos. unfold s. cbn [join_colon].
      rewrite (skip_colons_double pre [] (sc_d st) _ Hcc).
      rewrite !slen_app. reflexivity.
    + left. lia.
  - inversion Hrs as [|? ? Hr Hrs']; subst.
    assert (Es : s = pre ++ lit "::" ++ r ++ (colon_groups rs ++ [])).
    { unfold s, join_colon. fold (colon_groups rs). now rewrite app_nil_r. }
    cbn [length Nat.add].
    pose proof (ip6_groups_step (length rs + S n) pre (lit "::") r
                  (colon_groups rs ++ []) st (sc_d st) Hpos Hr
                  (colon_groups_no_hex rs [] I)) as Hstep.
    cbn zeta in Hstep. rewrite <- Es in Hstep.
    replace (S (S (length rs + n))) with (S (length rs + S n)) by lia.
    rewrite Hstep.
    2:{ rewrite Es. apply skip_colons_double. exact Hcc. }
    change (slen (lit "::")) with 2.
    assert (Es' : s = (pre ++ lit "::" ++ r) ++ colon_groups rs ++ [])
      by (rewrite Es; now rewrite <- !app_assoc).
    match goal with |- context [ip6_groups (length rs + S n) s (slen s) ?st1] =>
      destruct (ip6_groups_run rs (S n) (pre ++ lit "::" ++ r) [] st1 Hrs' I)
        as [lpp Hrun]
    end.
    + cbn [sc_pos]. rewrite !slen_app. change (slen (lit "::")) with 2. lia.
    + cbn [sc_d]. lia.
    + cbn zeta in Hrun. rewrite <- Es' in Hrun. exists lpp. rewrite Hrun.
      rewrite ip6_groups_at_end.
      * cbn [sc_d sc_parts sc_coloncolon].
        unfold store_groups. cbn [map store_values]. f_equal. f_equal.
        -- rewrite Nat2Z.inj_succ. lia.
        -- rewrite Es', !slen_app. change (slen []) with 0. lia.
      * cbn [sc_pos]. rewrite Es', !slen_app. change (slen []) with 0. lia.
Qed.

(** The scan of a text with a [::] between the groups [ls] and [rs]. *)
Lemma ip6_groups_compressed ls rs :
  Forall (fun g => hex_group g = true) ls ->
  Forall (fun g => hex_group g = true) rs ->
  (length ls + length rs <= 7)%nat ->
  let s := join_colon ls ++ lit "::" ++ join_colon rs in
  exists lpp,
    ip6_groups 8 s (slen s) ip6_start
    = Some {| sc_d := Z.of_nat (length ls + length rs); sc_pos := slen s;
              sc_coloncolon := Z.of_nat (length ls);
              sc_last_part_pos := lpp;
              sc_parts := store_groups (store_groups (repeat 0 8) 0 ls)
                            (Z.of_nat (length ls)) rs |}.
Proof.
  intros Hls Hrs Hlen s.
  destruct ls as [|l ls].
  - destruct (ip6_groups_tail rs (7 - length rs) [] ip6_start Hrs eq_refl
                ltac:(cbn; lia) ltac:(cbn; lia)) as [lpp H].
    cbn zeta in H. cbn [length Nat.add] in *.
    replace (S (length rs + (7 - length rs))) with 8%nat in H by lia.
    exists lpp. unfold s. cbn [join_colon app]. cbn [app] in H.
    rewrite H. cbn [sc_d sc_parts ip6_start]. reflexivity.
  - destruct (ip6_groups_join l ls (8 - S (length ls))
                (lit "::" ++ join_colon rs) Hls
                (no_hex_ahead_double (join_colon rs))) as [lpp1 H1].
    cbn zeta in H1. fold s in H1.
    replace (S (length ls + (8 - S (length ls)))) with 8%nat in H1
      by (cbn [length] in Hlen; lia).
    rewrite H1.
    match goal with |- context [ip6_groups _ s (slen s) ?st1] =>
      destruct (ip6_groups_tail rs (7 - length (l :: ls) - length rs)
                  (join_colon (l :: ls)) st1 Hrs eq_refl ltac:(cbn; lia)
                  ltac:(cbn [sc_d]; lia)) as [lpp H]
    end.
    cbn zeta in H. fold s in H.
    replace (8 - S (length ls))%nat
      with (S (length rs + (7 - length (l :: ls) - length rs)))
      by (cbn [length] in *; lia).
    exists lpp. rewrite H. cbn [sc_d sc_parts]. f_equal. f_equal.
    rewrite Nat2Z.inj_add. reflexivity.
Qed.

(** Filling the gap of a [::]: the groups after it move to the end and
    zeros take their place. *)
Lemma expand_zero_run vl vr :
  (length vl + length vr <= 7)%nat ->
  let d := Z.of_nat (length vl + length vr) in
  let cc := Z.of_nat (length vl) in
  zero_parts 8
    (shift_parts 8
       (store_values (store_values (repeat 0 8) 0 vl) cc vr)
       (d - 1) cc (8 - d))
    cc (cc + (8 - d))
  = vl ++ repeat 0 (8 - length vl - length vr) ++ vr.
Proof.
  intros H.
  repeat (destruct vl as [|? vl]; cbn [length] in H; try lia);
    repeat (destruct vr as [|? vr]; cbn [length] in H; try lia);
    reflexivity.
Qed.

Lemma store_values_full vs :
  length vs = 8%nat -> store_values (repeat 0 8) 0 vs = vs.
Proof.
  intros H.
  repeat (destruct vs as [|? vs]; cbn [length] in H; try lia).
  reflexivity.
Qed.

Lemma group_loop_overflow g : forall pre rest fuel part,
  forallb (fun b => isxdigit (code b)) g = true ->
  0 <= part <= 65535 -> 65535 < group_value_from g part ->
  (length g <= fuel)%nat ->
  65535 < snd (group_loop fuel (pre ++ g ++ rest) (slen (pre ++ g ++ rest))
                 (slen pre) part).
Proof.
  induction g as [|b g IH]; intros pre rest fuel part Hg Hp Hv Hf.
  - cbn in Hv. lia.
  - cbn [forallb] in Hg. apply andb_true_iff in Hg as [Hb Hg].
    destruct fuel as [|fuel]; [cbn in Hf; lia|]. cbn [group_loop app].
    unfold char_at. rewrite byte_at_here, Hb.
    assert (Hlen : slen pre < slen (pre ++ b :: g ++ rest)).
    { rewrite slen_app, slen_cons. pose proof (slen_nonneg (g ++ rest)). lia. }
    apply Z.ltb_lt in Hlen. rewrite Hlen.
    destruct (Z.leb_spec part 65535); [|lia]. cbn [andb].
    pose proof (xvalue_range _ Hb) as Hx.
    rewrite Z.shiftl_mul_pow2 by lia. change (2 ^ 4) with 16.
    unfold u32. rewrite Z.mod_small by lia.
    cbn [group_value_from fold_left] in Hv.
    destruct (Z.leb_spec (part * 16 + xvalue (code b)) 65535) as [Hle|Hgt].
    + replace (pre ++ b :: g ++ rest) with ((pre ++ [b]) ++ g ++ rest)
        by (rewrite <- app_assoc; reflexivity).
      replace (slen pre + 1) with (slen (pre ++ [b]))
        by (rewrite slen_app; reflexivity).
      apply IH; auto; cbn [length] in *; lia.
    + destruct fuel; cbn [group_loop snd]; [lia|].
      destruct (Z.leb_spec (part * 16 + xvalue (code b)) 65535); [lia|].
      rewrite !andb_false_r. cbn [snd]. lia.
Qed.

(** A round of the loop that meets a group above [0xFFFF]. *)
Lemma ip6_groups_overflow n pre sep g rest st cc :
  let s := pre ++ sep ++ g ++ rest in
  sc_pos st = slen pre ->
  forallb (fun b => isxdigit (code b)) g = true ->
  65535 < group_value g ->
  skip_colons s (slen s) (sc_d st) (slen pre) (sc_coloncolon st)
  = (cc, slen pre + slen sep) ->
  ip6_groups (S n) s (slen s) st = None.
Proof.
  intros s Hpos Hg Hv Hs. cbn [ip6_groups]. rewrite Hpos, Hs.
  destruct g as [|b t]; [cbn in Hv; lia|].
  cbn [forallb] in Hg. apply andb_true_iff in Hg as [Hb Hg].
  assert (Es : s = (pre ++ sep) ++ (b :: t) ++ rest)
    by (unfold s; now rewrite <- app_assoc).
  assert (Ep : slen pre + slen sep = slen (pre ++ sep))
    by now rewrite slen_app.
  assert (Hc : char_at s (slen pre + slen sep) = code b).
  { rewrite Es, Ep. unfold char_at. cbn [app]. now rewrite byte_at_here. }
  assert (Hlt : slen pre + slen sep < slen s).
  { unfold s. rewrite !slen_app, slen_cons.
    pose proof (slen_nonneg t). pose proof (slen_nonneg rest). lia. }
  destruct (Z.leb_spec (slen s) (slen pre + slen sep)); [lia|].
  rewrite Hc, Hb. cbn [orb negb].
  assert (Hfl : (length (b :: t) <= length s)%nat)
    by (unfold s; rewrite !length_app; lia).
  pose proof (group_loop_overflow (b :: t) (pre ++ sep) rest (length s) 0
                ltac:(cbn [forallb]; now rewrite Hb, Hg) ltac:(lia) Hv Hfl)
    as Ho.
  rewrite <- Es, <- Ep in Ho.
  destruct (group_loop (length s) s (slen s) (slen pre + slen sep) 0)
    as [pos' part]. cbn [snd] in Ho.
  destruct (Z.ltb_spec 65535 part); [reflexivity|lia].
Qed.

Section Ip6Grammar.

Variable ai : AddressInfo.

(** Groups before and after one [::]. *)
Lemma cp_ip6_address_compressed ls rs :
  Forall (fun g => hex_group g = true) ls ->
  Forall (fun g => hex_group g = true) rs ->
  (length ls + length rs <= 7)%nat ->
  cp_ip6_address ai (join_colon ls ++ lit "::" ++ join_colon rs)
  = Some (ip6_bytes (map group_value ls
                     ++ repeat 0 (8 - length ls - length rs)
                     ++ map group_value rs)).
Proof.
  intros Hls Hrs Hlen.
  destruct (ip6_groups_compressed ls rs Hls Hrs Hlen) as [lpp H].
  cbn zeta in H. unfold cp_ip6_address. fold ip6_start. rewrite H.
  cbn [sc_d sc_pos sc_coloncolon sc_parts sc_last_part_pos].
  rewrite Z.ltb_irrefl. cbn [andb].
  destruct (Z.ltb_spec (Z.of_nat (length ls + length rs)) 8); [|lia].
  destruct (Z.ltb_spec (Z.of_nat (length ls)) 0); [lia|].
  destruct (Z.eqb_spec (Z.of_nat (length ls + length rs)) 8); [lia|].
  cbn [andb orb]. unfold store_groups.
  pose proof (expand_zero_run (map group_value ls) (map group_value rs)) as E.
  rewrite !length_map in E. rewrite (E Hlen).
  rewrite Z.ltb_irrefl. reflexivity.
Qed.

(** Eight groups and no [::]. *)
Lemma cp_ip6_address_full gs :
  Forall (fun g => hex_group g = true) gs -> length gs = 8%nat ->
  cp_ip6_address ai (join_colon gs) = Some (ip6_bytes (map group_value gs)).
Proof.
  intros Hgs Hlen. destruct gs as [|g gs]; [discriminate|].
  destruct (ip6_groups_join g gs 0 [] Hgs I) as [lpp H].
  cbn zeta in H. rewrite app_nil_r in H. cbn [length] in Hlen.
  replace (S (length gs + 0)) with 8%nat in H by lia.
  rewrite ip6_groups_0 in H.
  unfold cp_ip6_address. fold ip6_start. rewrite H.
  cbn [sc_d sc_pos sc_coloncolon sc_parts sc_last_part_pos].
  rewrite Z.ltb_irrefl. cbn [andb].
  replace (Z.of_nat (S (length gs))) with 8 by lia.
  cbn [Z.ltb Z.eqb Z.leb Z.compare Pos.compare Pos.compare_cont andb orb].
  unfold store_groups. rewrite store_values_full;
    [now rewrite ?Z.ltb_irrefl|].
  rewrite length_map. cbn [length]. lia.
Qed.

(** Fewer than eight groups and no [::]: the lookup service decides. *)
Lemma cp_ip6_address_too_few gs :
  Forall (fun g => hex_group g = true) gs -> (length gs <= 7)%nat ->
  cp_ip6_address ai (join_colon gs) = query_ip6 ai (join_colon gs).
Proof.
  intros Hgs Hlen. destruct gs as [|g gs]; [reflexivity|].
  destruct (ip6_groups_join g gs (S (6 - length gs)) [] Hgs I) as [lpp H].
  cbn zeta in H. rewrite app_nil_r in H. cbn [length] in Hlen.
  replace (S (length gs + S (6 - length gs))) with 8%nat in H by lia.
  rewrite (ip6_groups_at_end (6 - length gs)) in H by reflexivity.
  unfold cp_ip6_address. fold ip6_start. rewrite H.
  cbn [sc_d sc_pos sc_coloncolon sc_parts sc_last_part_pos].
  rewrite Z.ltb_irrefl. cbn [andb].
  destruct (Z.ltb_spec (Z.of_nat (S (length gs))) 8); [|lia].
  reflexivity.
Qed.

(** A group above [0xFFFF] after valid groups: the lookup service
    decides. *)
Lemma cp_ip6_address_group_too_large ls g rest :
  Forall (fun g => hex_group g = true) ls -> (length ls <= 7)%nat ->
  forallb (fun b => isxdigit (code b)) g = true -> 65535 < group_value g ->
  cp_ip6_address ai (join_colon (ls ++ [g]) ++ rest)
  = query_ip6 ai (join_colon (ls ++ [g]) ++ rest).
Proof.
  intros Hls Hlen Hg Hv.
  assert (Hb : exists b t, g = b :: t /\ isxdigit (code b) = true).
  { destruct g as [|b t]; [cbn in Hv; lia|]. cbn [forallb] in Hg.
    apply andb_true_iff in Hg as [Hb _]. eauto. }
  destruct Hb as (b & t & Eg & Hb).
  unfold cp_ip6_address. fold ip6_start.
  destruct ls as [|l ls].
  - cbn [app join_colon flat_map]. rewrite app_nil_r.
    pose proof (ip6_groups_overflow 7 [] [] g rest ip6_start (-1) eq_refl
                  Hg Hv) as H.
    cbn zeta in H. cbn [app] in H. rewrite H; [reflexivity|].
    apply skip_colons_none. rewrite Eg.
    change (char_at ((b :: t) ++ rest) (slen [])) with (code b).
    apply isxdigit_not_colon. exact Hb.
  - assert (Es : join_colon ((l :: ls) ++ [g]) ++ rest
                 = join_colon (l :: ls) ++ lit ":" ++ g ++ rest).
    { cbn [app join_colon]. rewrite flat_map_app. cbn [flat_map].
      rewrite app_nil_r. now rewrite <- !app_assoc. }
    rewrite Es.
    destruct (ip6_groups_join l ls (8 - S (length ls))
                (lit ":" ++ g ++ rest) Hls
                (no_hex_ahead_colon (g ++ rest))) as [lpp H1].
    cbn zeta in H1.
    replace (S (length ls + (8 - S (length ls)))) with 8%nat in H1
      by (cbn [length] in Hlen; lia).
    rewrite H1.
    replace (8 - S (length ls))%nat with (S (7 - S (length ls)))
      by (cbn [length] in Hlen; lia).
    match goal with |- context [ip6_groups _ _ _ ?st1] =>
      pose proof (ip6_groups_overflow (7 - S (length ls))
                    (join_colon (l :: ls)) (lit ":") g rest st1 (-1)
                    eq_refl Hg Hv) as H
    end.
    cbn zeta in H. rewrite H; [reflexivity|].
    cbn [sc_d sc_coloncolon]. rewrite Eg.
    apply (skip_colons_single (join_colon (l :: ls)) b (t ++ rest));
      [lia|assumption].
Qed.

End Ip6Grammar.

Lemma forallb_Forall_hex gs :
  forallb hex_group gs = true -> Forall (fun g => hex_group g = true) gs.
Proof.
  intros H. apply Forall_forall. intros g Hin.
  rewrite forallb_forall in H. auto.
Qed.



(** ** Fields of plain words *)

Lemma plain_char_inv c :
  plain_char c = true ->
  isspace c = false /\ c <> ch "," /\ c <> DQUOTE /\ c <> SQUOTE
  /\ c <> ch "\" /\ c <> ch "/".
Proof.
  unfold plain_char. intros H.
  repeat (apply andb_true_iff in H; destruct H as [H ?]).
  repeat match goal with
         | E : negb _ = true |- _ => apply negb_true_iff in E
         end.
  repeat match goal with
         | E : (_ =? _) = false |- _ => apply Z.eqb_neq in E
         end.
  auto 10.
Qed.

Lemma comment_start_not_slash s i len :
  char_at s i <> ch "/" -> comment_start s i len = false.
Proof.
  intros H. unfold comment_start. apply Z.eqb_neq in H. now rewrite H.
Qed.

Lemma isspace_not_slash c : isspace c = true -> c <> ch "/".
Proof.
  unfold isspace. consts. intros H E. subst c. vm_compute in H. discriminate.
Qed.

Lemma char_at_here pre a l : char_at (pre ++ a :: l) (slen pre) = code a.
Proof. unfold char_at. now rewrite byte_at_here. Qed.

Lemma app_cons_assoc {A} (pre : list A) a l : pre ++ a :: l = (pre ++ [a]) ++ l.
Proof. now rewrite <- app_assoc. Qed.

Lemma slen_snoc pre (a : byte) : slen (pre ++ [a]) = slen pre + 1.
Proof. rewrite slen_app. reflexivity. Qed.

(** The first loop of [partial_uncomment] passes blanks. *)
Lemma skip_initial_blanks bl : forall pre tail fuel,
  cp_is_space bl = true ->
  skip_initial (length bl + fuel) (pre ++ bl ++ tail) (slen pre)
    (slen (pre ++ bl ++ tail))
  = skip_initial fuel (pre ++ bl ++ tail) (slen pre + slen bl)
      (slen (pre ++ bl ++ tail)).
Proof.
  induction bl as [|b bl IH]; intros pre tail fuel Hb.
  - cbn [length Nat.add app]. change (slen []) with 0. now rewrite Z.add_0_r.
  - cbn [cp_is_space forallb] in Hb. apply andb_true_iff in Hb as [Hb Hbl].
    cbn [length Nat.add app skip_initial].
    assert (Hlt : slen pre < slen (pre ++ b :: bl ++ tail)).
    { rewrite slen_app, slen_cons. pose proof (slen_nonneg (bl ++ tail)). lia. }
    apply Z.ltb_lt in Hlt. rewrite Hlt.
    rewrite comment_start_not_slash
      by (rewrite char_at_here; now apply isspace_not_slash).
    rewrite char_at_here, Hb. cbn [negb].
    rewrite app_cons_assoc, <- (slen_snoc pre b). rewrite (IH (pre ++ [b]) tail fuel Hbl).
    rewrite slen_snoc, slen_cons. f_equal. lia.
Qed.

(** The second loop passes blanks without moving [right]. *)
Lemma accumulate_blanks bl : forall pre tail fuel comma_pos st,
  cp_is_space bl = true -> uc_i st = slen pre ->
  accumulate (length bl + fuel) (pre ++ bl ++ tail)
    (slen (pre ++ bl ++ tail)) comma_pos st
  = accumulate fuel (pre ++ bl ++ tail) (slen (pre ++ bl ++ tail)) comma_pos
      {| uc_i := slen pre + slen bl; uc_left := uc_left st;
         uc_right := uc_right st; uc_closed := uc_closed st;
         uc_sa := uc_sa st |}.
Proof.
  induction bl as [|b bl IH]; intros pre tail fuel comma_pos st Hb Hi.
  - cbn [length Nat.add app]. change (slen []) with 0.
    rewrite Z.add_0_r, <- Hi. destruct st; reflexivity.
  - cbn [cp_is_space forallb] in Hb. apply andb_true_iff in Hb as [Hb Hbl].
    cbn [length Nat.add app accumulate]. rewrite Hi.
    assert (Hlt : slen pre < slen (pre ++ b :: bl ++ tail)).
    { rewrite slen_app, slen_cons. pose proof (slen_nonneg (bl ++ tail)). lia. }
    apply Z.ltb_lt in Hlt. rewrite Hlt.
    rewrite char_at_here, Hb.
    rewrite app_cons_assoc, <- (slen_snoc pre b).
    rewrite (IH (pre ++ [b]) tail fuel comma_pos) by (auto; reflexivity).
    cbn [uc_left uc_right uc_closed uc_sa].
    rewrite slen_snoc, slen_cons. do 2 f_equal. lia.
Qed.

(** The second loop takes the characters of a plain word one by one. *)
Lemma accumulate_word w : forall pre tail fuel comma_pos st,
  forallb (fun b => plain_char (code b)) w = true ->
  uc_i st = slen pre -> uc_closed st = false -> w <> [] ->
  accumulate (length w + fuel) (pre ++ w ++ tail)
    (slen (pre ++ w ++ tail)) comma_pos st
  = accumulate fuel (pre ++ w ++ tail) (slen (pre ++ w ++ tail)) comma_pos
      {| uc_i := slen pre + slen w; uc_left := uc_left st;
         uc_right := slen pre + slen w; uc_closed := false;
         uc_sa := uc_sa st |}.
Proof.
  induction w as [|b w IH]; intros pre tail fuel comma_pos st Hw Hi Hc Hne;
    [congruence|].
  cbn [forallb] in Hw. apply andb_true_iff in Hw as [Hb Hw].
  apply plain_char_inv in Hb as (Hs & Hcomma & Hdq & Hsq & Hbs & Hsl).
  cbn [length Nat.add app accumulate]. rewrite Hi, Hc.
  assert (Hlt : slen pre < slen (pre ++ b :: w ++ tail)).
  { rewrite slen_app, slen_cons. pose proof (slen_nonneg (w ++ tail)). lia. }
  apply Z.ltb_lt in Hlt. rewrite Hlt.
  rewrite comment_start_not_slash by (now rewrite char_at_here).
  rewrite char_at_here, Hs.
  apply Z.eqb_neq in Hcomma, Hdq, Hsq, Hbs.
  rewrite Hcomma, Hdq, Hsq, Hbs. cbn [andb].
  destruct w as [|b' w'].
  - cbn [length Nat.add app]. rewrite slen_cons. change (slen []) with 0.
    replace (slen pre + (1 + 0)) with (slen pre + 1) by lia. reflexivity.
  - rewrite app_cons_assoc, <- (slen_snoc pre b).
    rewrite (IH (pre ++ [b]) tail fuel comma_pos)
      by (auto; try reflexivity; discriminate).
    cbn [uc_left uc_right uc_closed uc_sa].
    rewrite slen_snoc, !slen_cons. do 2 f_equal; lia.
Qed.

Lemma accumulate_at_comma fuel pre rest st :
  at_comma rest -> uc_i st = slen pre ->
  accumulate fuel (pre ++ rest) (slen (pre ++ rest)) true st = st.
Proof.
  intros [->|[r ->]] Hi.
  - rewrite app_nil_r. apply accumulate_done. lia.
  - destruct fuel; cbn [accumulate]; [reflexivity|]. rewrite Hi.
    rewrite char_at_here.
    rewrite comment_start_not_slash
      by (rewrite char_at_here; vm_compute; discriminate).
    change (isspace (code ","%byte)) with false.
    change (code ","%byte =? ch ",") with true. cbn [andb].
    destruct (slen pre <? slen (pre ++ ","%byte :: r)); reflexivity.
Qed.

Lemma skip_initial_at_comma fuel pre rest :
  at_comma rest ->
  skip_initial fuel (pre ++ rest) (slen pre) (slen (pre ++ rest)) = slen pre.
Proof.
  intros [->|[r ->]].
  - rewrite app_nil_r. destruct fuel; cbn [skip_initial]; [reflexivity|].
    now rewrite Z.ltb_irrefl.
  - apply skip_initial_stop.
    + apply comment_start_not_slash. rewrite char_at_here.
      vm_compute. discriminate.
    + rewrite char_at_here. reflexivity.
Qed.

Lemma substring_middle pre w tail :
  substring (pre ++ w ++ tail) (slen pre) (slen w) = w.
Proof.
  rewrite substring_app_r. unfold substring, slen. cbn [Z.ltb Z.compare orb].
  destruct w as [|b w]; [reflexivity|].
  destruct (Z.leb_spec (Z.of_nat (length (b :: w))) 0);
    [cbn [length] in *; lia|].
  rewrite Nat2Z.id. cbn [Z.to_nat skipn].
  rewrite firstn_app, Nat.sub_diag, firstn_all. cbn [firstn].
  now rewrite app_nil_r.
Qed.

Lemma cp_is_space_app a b :
  cp_is_space a = true -> cp_is_space b = true -> cp_is_space (a ++ b) = true.
Proof.
  unfold cp_is_space. intros Ha Hb. rewrite forallb_app, Ha, Hb. reflexivity.
Qed.

Lemma skip_initial_over_blanks s pre bl tail fuel :
  s = pre ++ bl ++ tail -> cp_is_space bl = true ->
  (length bl <= fuel)%nat ->
  skip_initial fuel s (slen pre) (slen s)
  = skip_initial (fuel - length bl) s (slen (pre ++ bl)) (slen s).
Proof.
  intros -> Hb Hf.
  assert (E : fuel = (length bl + (fuel - length bl))%nat) by lia.
  rewrite E at 1.
  rewrite skip_initial_blanks by assumption.
  now rewrite (slen_app pre bl).
Qed.

Lemma skip_initial_to_comma s pre rest fuel :
  s = pre ++ rest -> at_comma rest ->
  skip_initial fuel s (slen pre) (slen s) = slen pre.
Proof. intros -> H. now apply skip_initial_at_comma. Qed.

Lemma accumulate_over_blanks s pre bl tail fuel comma_pos st :
  s = pre ++ bl ++ tail -> cp_is_space bl = true -> uc_i st = slen pre ->
  (length bl <= fuel)%nat ->
  accumulate fuel s (slen s) comma_pos st
  = accumulate (fuel - length bl) s (slen s) comma_pos
      {| uc_i := slen (pre ++ bl); uc_left := uc_left st;
         uc_right := uc_right st; uc_closed := uc_closed st;
         uc_sa := uc_sa st |}.
Proof.
  intros -> Hb Hi Hf.
  assert (E : fuel = (length bl + (fuel - length bl))%nat) by lia.
  rewrite E at 1.
  rewrite accumulate_blanks by assumption.
  now rewrite (slen_app pre bl).
Qed.

Lemma accumulate_over_word s pre w tail fuel comma_pos st :
  s = pre ++ w ++ tail ->
  forallb (fun b => plain_char (code b)) w = true -> w <> [] ->
  uc_i st = slen pre -> uc_closed st = false ->
  (length w <= fuel)%nat ->
  accumulate fuel s (slen s) comma_pos st
  = accumulate (fuel - length w) s (slen s) comma_pos
      {| uc_i := slen (pre ++ w); uc_left := uc_left st;
         uc_right := slen (pre ++ w); uc_closed := false;
         uc_sa := uc_sa st |}.
Proof.
  intros -> Hw Hne Hi Hc Hf.
  assert (E : fuel = (length w + (fuel - length w))%nat) by lia.
  rewrite E at 1.
  rewrite accumulate_word by assumption.
  now rewrite (slen_app pre w).
Qed.

Lemma accumulate_to_comma s pre rest fuel st :
  s = pre ++ rest -> at_comma rest -> uc_i st = slen pre ->
  accumulate fuel s (slen s) true st = st.
Proof. intros -> H Hi. now apply accumulate_at_comma. Qed.

(** [partial_uncomment] on one field: the word, and the position of the
    comma or of the end. *)
Lemma partial_uncomment_field pre f rest :
  field_ok f = true -> at_comma rest ->
  partial_uncomment (pre ++ field_text f ++ rest) (slen pre) true
  = (word f, slen (pre ++ field_text f)).
Proof.
  intros Hf Hr. unfold field_ok in Hf.
  apply andb_true_iff in Hf as [Hf Ht]. apply andb_true_iff in Hf as [Hl Hw].
  destruct f as [b1 w b2]. unfold field_text in *. cbn [lead word trail] in *.
  unfold partial_uncomment.
  set (conf := pre ++ (b1 ++ w ++ b2) ++ rest).
  destruct w as [|c w].
  - cbn [app] in *.
    assert (Ec : conf = pre ++ (b1 ++ b2) ++ rest) by reflexivity.
    assert (Ec' : conf = (pre ++ b1 ++ b2) ++ rest)
      by (rewrite Ec; now rewrite <- !app_assoc).
    rewrite (skip_initial_over_blanks conf pre (b1 ++ b2) rest)
      by (auto using cp_is_space_app; rewrite Ec, !length_app; lia).
    rewrite (skip_initial_to_comma conf (pre ++ b1 ++ b2) rest) by assumption.
    rewrite (accumulate_to_comma conf (pre ++ b1 ++ b2) rest)
      by (auto; reflexivity).
    cbn [uc_i uc_left uc_right uc_sa]. rewrite Z.sub_diag, substring_nil.
    reflexivity.
  - set (w' := c :: w) in *.
    assert (Hplain : plain_char (code c) = true).
    { cbn [forallb] in Hw. now apply andb_true_iff in Hw as [? _]. }
    apply plain_char_inv in Hplain as (Hs & _ & _ & _ & _ & Hsl).
    assert (Ec : conf = pre ++ b1 ++ (w' ++ b2 ++ rest))
      by (unfold conf; now rewrite <- !app_assoc).
    assert (Ew : conf = (pre ++ b1) ++ w' ++ (b2 ++ rest))
      by (rewrite Ec; now rewrite <- !app_assoc).
    assert (Eb : conf = ((pre ++ b1) ++ w') ++ b2 ++ rest)
      by (rewrite Ec; now rewrite <- !app_assoc).
    assert (Er : conf = (((pre ++ b1) ++ w') ++ b2) ++ rest)
      by (rewrite Ec; now rewrite <- !app_assoc).
    assert (Hlen : length conf
                   = (length pre + length b1 + length w' + length b2
                      + length rest)%nat)
      by (rewrite Ec, !length_app; lia).
    rewrite (skip_initial_over_blanks conf pre b1 (w' ++ b2 ++ rest))
      by (auto; lia).
    rewrite skip_initial_stop.
    2:{ apply comment_start_not_slash. rewrite Ew. unfold w'. cbn [app].
        now rewrite char_at_here. }
    2:{ rewrite Ew. unfold w'. cbn [app]. now rewrite char_at_here. }
    rewrite (accumulate_over_word conf (pre ++ b1) w' (b2 ++ rest))
      by (auto; try reflexivity; try discriminate; lia).
    cbn [uc_left uc_sa].
    rewrite (accumulate_over_blanks conf ((pre ++ b1) ++ w') b2 rest)
      by (auto; try reflexivity; lia).
    cbn [uc_left uc_right uc_closed uc_sa].
    rewrite (accumulate_to_comma conf (((pre ++ b1) ++ w') ++ b2) rest)
      by (auto; reflexivity).
    cbn [uc_i uc_left uc_right uc_sa].
    replace (slen ((pre ++ b1) ++ w') - slen (pre ++ b1)) with (slen w')
      by (rewrite (slen_app (pre ++ b1)); lia).
    rewrite Ew, substring_middle. f_equal.
    rewrite !slen_app. lia.
Qed.

(** One round of the loop of [cp_argvec] takes one field. *)
Lemma cp_argvec_loop_step fuel pre f rest first_arg args :
  field_ok f = true -> at_comma rest ->
  cp_argvec_loop (S fuel) (pre ++ field_text f ++ rest) (slen pre) first_arg
    args
  = cp_argvec_loop fuel (pre ++ field_text f ++ rest)
      (slen (pre ++ field_text f) + 1) false
      (if negb (slen (word f) =? 0)
          || (slen (pre ++ field_text f)
              <? slen (pre ++ field_text f ++ rest))
          || negb first_arg
       then args ++ [word f] else args).
Proof.
  intros Hf Hr. cbn [cp_argvec_loop].
  assert (Hle : slen pre <= slen (pre ++ field_text f ++ rest)).
  { rewrite slen_app. pose proof (slen_nonneg (field_text f ++ rest)). lia. }
  apply Z.leb_le in Hle. rewrite Hle.
  rewrite partial_uncomment_field by assumption. reflexivity.
Qed.

Lemma cp_argvec_loop_past fuel conf i first_arg args :
  slen conf < i -> cp_argvec_loop fuel conf i first_arg args = args.
Proof.
  intros H. destruct fuel; cbn [cp_argvec_loop]; [reflexivity|].
  apply Z.leb_gt in H. now rewrite H.
Qed.

Lemma at_comma_nil : at_comma [].
Proof. now left. Qed.

Lemma at_comma_cons r : at_comma (lit "," ++ r).
Proof. right. now exists r. Qed.

Lemma slen_word_zero (w : Str) : (slen w =? 0) = true <-> w = [].
Proof.
  destruct w as [|b w]; [now split|]. rewrite slen_cons.
  pose proof (slen_nonneg w) as Hw. split; [|discriminate].
  intros E. apply Z.eqb_eq in E. lia.
Qed.

(** The loop of [cp_argvec] over a list of fields gives their words, when
    the first field is not the only one, or is not empty, or is not the
    first of the text. *)
Lemma cp_argvec_loop_fields fs : forall f pre fuel first_arg args,
  forallb field_ok (f :: fs) = true ->
  (length (f :: fs) <= fuel)%nat ->
  first_arg = false \/ fs <> [] \/ word f <> [] ->
  cp_argvec_loop fuel (pre ++ comma_fields (f :: fs)) (slen pre) first_arg
    args
  = args ++ map word (f :: fs).
Proof.
  induction fs as [|g t IH]; intros f pre fuel first_arg args Hok Hfuel Hfirst;
    cbn [forallb] in Hok; apply andb_true_iff in Hok as [Hf Hok];
    (destruct fuel as [|fuel]; [cbn [length] in Hfuel; lia|]).
  - cbn [comma_fields map].
    rewrite <- (app_nil_r (field_text f)) at 1.
    rewrite cp_argvec_loop_step by auto using at_comma_nil.
    rewrite !app_nil_r, Z.ltb_irrefl.
    rewrite cp_argvec_loop_past by lia.
    destruct Hfirst as [->|[H|H]]; [now rewrite orb_true_r|congruence|].
    destruct (slen (word f) =? 0) eqn:E; [|reflexivity].
    now apply slen_word_zero in E.
  - change (comma_fields (f :: g :: t))
      with (field_text f ++ lit "," ++ comma_fields (g :: t)).
    rewrite cp_argvec_loop_step by auto using at_comma_cons.
    assert (Hlt : slen (pre ++ field_text f)
                  < slen (pre ++ field_text f
                          ++ lit "," ++ comma_fields (g :: t))).
    { rewrite (app_assoc pre), (slen_app (pre ++ field_text f)).
      change (lit "," ++ comma_fields (g :: t))
        with (","%byte :: comma_fields (g :: t)).
      rewrite slen_cons. pose proof (slen_nonneg (comma_fields (g :: t))).
      lia. }
    apply Z.ltb_lt in Hlt. rewrite Hlt, orb_true_r. cbn [orb].
    replace (pre ++ field_text f ++ lit "," ++ comma_fields (g :: t))
      with ((pre ++ field_text f ++ lit ",") ++ comma_fields (g :: t))
      by now rewrite <- !app_assoc.
    replace (slen (pre ++ field_text f) + 1)
      with (slen (pre ++ field_text f ++ lit ","))
      by (rewrite !slen_app; change (slen (lit ",")) with 1; lia).
    rewrite IH by (auto; cbn [length] in *; lia).
    cbn [map]. now rewrite <- app_assoc.
Qed.

Lemma comma_fields_length fs : (length fs <= S (length (comma_fields fs)))%nat.
Proof.
  induction fs as [|f t IH]; [cbn; lia|].
  destruct t as [|g t]; [cbn [length]; lia|].
  change (comma_fields (f :: g :: t))
    with (field_text f ++ lit "," ++ comma_fields (g :: t)).
  rewrite !length_app. change (length (lit ",")) with 1%nat.
  cbn [length] in *. lia.
Qed.

Lemma cp_argvec_fields fs args :
  forallb field_ok fs = true ->
  cp_argvec (comma_fields fs) args = args ++ argvec_words fs.
Proof.
  intros Hok. unfold cp_argvec.
  destruct (slen (comma_fields fs) =? 0) eqn:E.
  - apply slen_word_zero in E.
    destruct fs as [|f [|g t]]; cbn [argvec_words map].
    + now rewrite app_nil_r.
    + cbn [comma_fields] in E. unfold field_text in E.
      apply app_eq_nil in E as [_ E]. apply app_eq_nil in E as [E _].
      rewrite E. now rewrite app_nil_r.
    + change (comma_fields (f :: g :: t))
        with (field_text f ++ ","%byte :: comma_fields (g :: t)) in E.
      apply app_eq_nil in E as [_ E]. discriminate.
  - destruct fs as [|f t]; [discriminate|].
    destruct t as [|g t].
    + cbn [argvec_words]. destruct (word f) as [|c w] eqn:Ew.
      * cbn [comma_fields]. rewrite app_nil_r.
        assert (Es : field_text f = [] ++ field_text f ++ [])
          by (cbn [app]; now rewrite app_nil_r).
        cbn [forallb] in Hok. apply andb_true_iff in Hok as [Hf _].
        rewrite Es. change 0 with (slen []).
        rewrite cp_argvec_loop_step by auto using at_comma_nil.
        rewrite cp_argvec_loop_past
          by (cbn [app]; rewrite app_nil_r; lia).
        rewrite Ew. cbn [app]. now rewrite app_nil_r, Z.ltb_irrefl.
      * change 0 with (slen []).
        change (comma_fields [f]) with ([] ++ comma_fields [f]) at 2.
        rewrite cp_argvec_loop_fields; [now rewrite <- Ew|assumption|..].
        -- cbn [length]. lia.
        -- right; right. rewrite Ew. discriminate.
    + change 0 with (slen []).
      change (comma_fields (f :: g :: t))
        with ([] ++ comma_fields (f :: g :: t)) at 2.
      rewrite cp_argvec_loop_fields; [reflexivity|assumption|..].
      * pose proof (comma_fields_length (f :: g :: t)). lia.
      * right; left. discriminate.
Qed.

Lemma comma_fields_snoc fs : forall f g,
  comma_fields ((f :: fs) ++ [g])
  = comma_fields (f :: fs) ++ lit "," ++ field_text g.
Proof.
  induction fs as [|h t IH]; intros f g; [reflexivity|].
  change (comma_fields ((f :: h :: t) ++ [g]))
    with (field_text f ++ lit "," ++ comma_fields ((h :: t) ++ [g])).
  rewrite IH.
  change (comma_fields (f :: h :: t))
    with (field_text f ++ lit "," ++ comma_fields (h :: t)).
  now rewrite <- !app_assoc.
Qed.

Lemma argvec_words_snoc f fs g :
  argvec_words ((f :: fs) ++ [g]) = map word (f :: fs) ++ [word g].
Proof.
  destruct fs as [|h t]; cbn [app argvec_words map]; [reflexivity|].
  now rewrite map_app.
Qed.



(** ** Quoted strings inside a longer text *)

Lemma quoted_tail_cons b rest :
  quoted_tail (b :: rest) = quote_char b ++ quoted_tail rest.
Proof. unfold quoted_tail. cbn [flat_map]. now rewrite <- app_assoc. Qed.

Lemma quoted_tail_length rest : 1 <= slen (quoted_tail rest).
Proof.
  unfold quoted_tail. rewrite slen_app, slen_cons.
  pose proof (slen_nonneg (flat_map quote_char rest)).
  change (slen []) with 0. lia.
Qed.

(** The scan of a double-quoted string stops after its closing quote,
    whatever follows. *)
Lemma skip_double_quote_within rest : forall pre tail fuel,
  (length (quoted_tail rest) <= fuel)%nat ->
  skip_double_quote_loop fuel (pre ++ quoted_tail rest ++ tail) (slen pre)
    (slen (pre ++ quoted_tail rest ++ tail))
  = slen (pre ++ quoted_tail rest).
Proof.
  induction rest as [|b rest IH]; intros pre tail fuel Hf.
  - unfold quoted_tail in *. cbn [flat_map app length] in *.
    destruct fuel as [|fuel]; [lia|]. cbn [skip_double_quote_loop].
    unfold char_at. rewrite byte_at_here.
    rewrite !slen_app, !slen_cons. change (slen []) with 0.
    rewrite code_chr by (consts; lia). consts.
    pose proof (slen_nonneg tail). ztest. rewrite andb_false_r. lia.
  - rewrite quoted_tail_cons in *. rewrite <- !app_assoc.
    rewrite length_app in Hf.
    pose proof (quote_char_shape b) as Hs.
    pose proof (quoted_tail_length rest) as Htl.
    set (tl := quoted_tail rest) in *.
    pose proof (slen_nonneg tail) as Htail.
    destruct Hs as [Hp1 Hp2 | c Hc | d1 d2 d3 Hd].
    + cbn [app length] in *. destruct fuel as [|fuel]; [lia|].
      cbn [skip_double_quote_loop]. unfold char_at. rewrite byte_at_here.
      rewrite slen_app, slen_cons, slen_app. consts. ztest.
      replace (pre ++ b :: tl ++ tail) with ((pre ++ [b]) ++ tl ++ tail)
        by (rewrite <- app_assoc; reflexivity).
      replace (slen pre + 1) with (slen (pre ++ [b]))
        by (rewrite slen_app; reflexivity).
      replace (slen pre + (1 + (slen tl + slen tail)))
        with (slen ((pre ++ [b]) ++ tl ++ tail))
        by (rewrite !slen_app; change (slen [b]) with 1; lia).
      rewrite IH by lia. rewrite <- !app_assoc. reflexivity.
    + cbn [app length] in *. destruct fuel as [|fuel]; [lia|].
      cbn [skip_double_quote_loop]. unfold char_at. rewrite byte_at_here.
      rewrite (byte_at_app_r pre _ 1) by lia.
      change (byte_at (chr (ch "\") :: c :: tl ++ tail) 1) with c.
      pose proof (simple_escape_code _ _ Hc).
      rewrite slen_app, !slen_cons, slen_app.
      rewrite code_chr by (consts; lia).
      consts. ztest.
      replace (pre ++ chr 92 :: c :: tl ++ tail)
        with ((pre ++ [chr 92; c]) ++ tl ++ tail)
        by (rewrite <- app_assoc; reflexivity).
      replace (slen pre + 2) with (slen (pre ++ [chr 92; c]))
        by (rewrite slen_app; reflexivity).
      replace (slen pre + (1 + (1 + (slen tl + slen tail))))
        with (slen ((pre ++ [chr 92; c]) ++ tl ++ tail))
        by (rewrite !slen_app; change (slen [chr 92; c]) with 2; lia).
      rewrite IH by lia. rewrite <- !app_assoc. reflexivity.
    + cbn [app length] in *.
      destruct fuel as [|[|[|fuel]]]; try lia.
      pose proof (octal_escape_inv _ _ _ _ Hd) as (R1 & R2 & R3).
      set (str := pre ++ chr (ch "\") :: d1 :: d2 :: d3 :: tl ++ tail).
      assert (E0 : byte_at str (slen pre) = chr (ch "\"))
        by apply byte_at_here.
      assert (E1 : byte_at str (slen pre + 1) = d1).
      { replace (slen pre + 1) with (slen pre + (0 + 1)) by lia.
        unfold str. rewrite byte_at_next by lia. reflexivity. }
      assert (E2 : byte_at str (slen pre + 2) = d2).
      { replace (slen pre + 2) with (slen pre + (1 + 1)) by lia.
        unfold str. rewrite byte_at_next by lia. reflexivity. }
      assert (E3 : byte_at str (slen pre + 3) = d3).
      { replace (slen pre + 3) with (slen pre + (2 + 1)) by lia.
        unfold str. rewrite byte_at_next by lia. reflexivity. }
      assert (EL : slen str = slen pre + 4 + slen tl + slen tail)
        by (unfold str; rewrite slen_app, !slen_cons, slen_app; lia).
      cbn [skip_double_quote_loop]. unfold char_at.
      rewrite E0, E1. rewrite EL. rewrite code_chr by (consts; lia).
      consts. ztest. rewrite E2. ztest.
      replace (slen pre + 2 + 1) with (slen pre + 3) by lia.
      rewrite E3. ztest.
      unfold str.
      change (pre ++ chr (ch "\") :: d1 :: d2 :: d3 :: tl ++ tail)
        with (pre ++ [chr 92; d1; d2; d3] ++ tl ++ tail).
      rewrite (app_assoc pre).
      replace (slen pre + 3 + 1) with (slen (pre ++ [chr 92; d1; d2; d3]))
        by (rewrite slen_app; change (slen [chr 92; d1; d2; d3]) with 4; lia).
      replace (slen pre + 4 + slen tl + slen tail)
        with (slen ((pre ++ [chr 92; d1; d2; d3]) ++ tl ++ tail))
        by (rewrite !slen_app; change (slen [chr 92; d1; d2; d3]) with 4; lia).
      rewrite IH by lia. rewrite <- !app_assoc. reflexivity.
Qed.

Lemma cp_quote_quoted s : cp_quote s false = quoted s.
Proof. apply cp_quote_flat. Qed.

Lemma quoted_length s : 2 <= slen (quoted s).
Proof.
  unfold quoted. rewrite slen_cons. pose proof (quoted_tail_length s). lia.
Qed.

Lemma skip_double_quote_in str pre s tail :
  str = pre ++ chr DQUOTE :: quoted_tail s ++ tail ->
  skip_double_quote str (slen pre) (slen str) = slen (pre ++ quoted s).
Proof.
  intros ->. unfold skip_double_quote.
  rewrite (app_cons_assoc pre), <- (slen_snoc pre (chr DQUOTE)).
  rewrite skip_double_quote_within.
  - unfold quoted. now rewrite <- app_assoc.
  - rewrite !length_app. lia.
Qed.

(** [partial_uncomment] on a quoted string after blanks and before a comma
    or the end: the quoted string as it stands. *)
Lemma partial_uncomment_quoted_field pre bl s rest :
  cp_is_space bl = true -> at_comma rest ->
  partial_uncomment (pre ++ bl ++ quoted s ++ rest) (slen pre) true
  = (quoted s, slen (pre ++ bl ++ quoted s)).
Proof.
  intros Hb Hr. unfold partial_uncomment.
  set (conf := pre ++ bl ++ quoted s ++ rest).
  pose proof (quoted_length s) as Hq.
  assert (Hlen : slen conf = slen pre + slen bl + slen (quoted s) + slen rest)
    by (unfold conf; rewrite !slen_app; lia).
  pose proof (slen_nonneg pre). pose proof (slen_nonneg bl).
  pose proof (slen_nonneg rest).
  assert (Hn : (length bl + 2 <= length conf)%nat) by (unfold slen in *; lia).
  assert (E1 : conf = (pre ++ bl) ++ chr DQUOTE :: quoted_tail s ++ rest)
    by (unfold conf, quoted; now rewrite <- !app_assoc).
  assert (E2 : conf = ((pre ++ bl) ++ [chr DQUOTE]) ++ quoted_tail s ++ rest)
    by (rewrite E1; now rewrite <- !app_assoc).
  assert (E3 : conf = (pre ++ bl ++ quoted s) ++ rest)
    by (unfold conf; now rewrite <- !app_assoc).
  assert (Hc : char_at conf (slen (pre ++ bl)) = DQUOTE).
  { rewrite E1, char_at_here. reflexivity. }
  rewrite (skip_initial_over_blanks conf pre bl (quoted s ++ rest))
    by (auto; lia).
  rewrite skip_initial_stop
    by (try apply comment_start_not_slash; rewrite Hc; vm_compute; congruence).
  destruct (length conf) as [|n] eqn:En; [lia|].
  rewrite accumulate_double_quote
    by (cbn [uc_i uc_closed]; auto; rewrite slen_app; lia).
  cbn [uc_i uc_left uc_sa].
  assert (Hskip : skip_double_quote conf (slen (pre ++ bl)) (slen conf)
                  = slen (pre ++ bl ++ quoted s)).
  { rewrite (skip_double_quote_in conf (pre ++ bl) s rest) by exact E1.
    now rewrite <- app_assoc. }
  rewrite Hskip.
  rewrite (accumulate_to_comma conf (pre ++ bl ++ quoted s) rest)
    by (auto; reflexivity).
  cbn [uc_i uc_left uc_right uc_sa]. f_equal.
  replace (slen (pre ++ bl ++ quoted s) - slen (pre ++ bl))
    with (slen (quoted s)) by (rewrite !slen_app; lia).
  rewrite E1. fold (quoted s).
  change (chr DQUOTE :: quoted_tail s ++ rest) with (quoted s ++ rest).
  apply substring_middle.
Qed.

(** One round of [cp_argvec], whatever the field is. *)
Lemma cp_argvec_loop_round fuel conf i first_arg args arg i' :
  partial_uncomment conf i true = (arg, i') -> i <= slen conf ->
  cp_argvec_loop (S fuel) conf i first_arg args
  = cp_argvec_loop fuel conf (i' + 1) false
      (if negb (slen arg =? 0) || (i' <? slen conf) || negb first_arg
       then args ++ [arg] else args).
Proof.
  intros E Hi. cbn [cp_argvec_loop]. apply Z.leb_le in Hi. rewrite Hi, E.
  reflexivity.
Qed.

Lemma unvec_loop_quoted separator args : forall i sa,
  0 < i ->
  unvec_loop separator (map (fun s => cp_quote s false) args) i sa
  = sa ++ more_quoted separator args.
Proof.
  induction args as [|a args IH]; intros i sa Hi; cbn [map unvec_loop].
  - unfold more_quoted. cbn [flat_map]. now rewrite app_nil_r.
  - destruct (Z.eqb_spec i 0); [lia|]. cbn [negb].
    rewrite IH by lia. rewrite cp_quote_quoted. unfold more_quoted.
    cbn [flat_map]. now rewrite <- !app_assoc.
Qed.

Lemma more_quoted_at_comma args : at_comma (more_quoted (lit ", ") args).
Proof.
  destruct args as [|a args]; [now left|]. right.
  unfold more_quoted. cbn [flat_map]. eexists. reflexivity.
Qed.

Lemma cp_argvec_loop_quoted args : forall pre bl a fuel first_arg acc,
  cp_is_space bl = true -> (length args < fuel)%nat ->
  cp_argvec_loop fuel (pre ++ bl ++ quoted a ++ more_quoted (lit ", ") args)
    (slen pre) first_arg acc
  = acc ++ quoted a :: map quoted args.
Proof.
  induction args as [|b args IH]; intros pre bl a fuel first_arg acc Hb Hf;
    (destruct fuel as [|fuel]; [cbn [length] in Hf; lia|]);
    pose proof (quoted_length a) as Hq.
  - unfold more_quoted. cbn [flat_map map].
    rewrite (cp_argvec_loop_round _ _ _ _ _ (quoted a)
               (slen (pre ++ bl ++ quoted a))).
    + rewrite cp_argvec_loop_past by (rewrite !app_nil_r; lia).
      destruct (Z.eqb_spec (slen (quoted a)) 0); [lia|]. reflexivity.
    + apply partial_uncomment_quoted_field; auto using at_comma_nil.
    + rewrite slen_app. pose proof (slen_nonneg (bl ++ quoted a ++ [])). lia.
  - rewrite (cp_argvec_loop_round _ _ _ _ _ (quoted a)
               (slen (pre ++ bl ++ quoted a))).
    + destruct (Z.eqb_spec (slen (quoted a)) 0); [lia|]. cbn [negb orb].
      unfold more_quoted. cbn [flat_map map]. fold (more_quoted (lit ", ") args).
      change (lit ", ") with ([","%byte] ++ [" "%byte]).
      replace (pre ++ bl ++ quoted a
               ++ (([","%byte] ++ [" "%byte]) ++ quoted b)
               ++ more_quoted ([","%byte] ++ [" "%byte]) args)
        with ((pre ++ bl ++ quoted a ++ [","%byte]) ++ [" "%byte] ++ quoted b
              ++ more_quoted ([","%byte] ++ [" "%byte]) args)
        by now rewrite <- !app_assoc.
      replace (slen (pre ++ bl ++ quoted a) + 1)
        with (slen (pre ++ bl ++ quoted a ++ [","%byte]))
        by (rewrite !slen_app; change (slen [","%byte]) with 1; lia).
      rewrite IH by (auto; cbn [length] in Hf; lia).
      now rewrite <- app_assoc.
    + apply partial_uncomment_quoted_field; auto using more_quoted_at_comma.
    + rewrite slen_app.
      pose proof (slen_nonneg
                    (bl ++ quoted a ++ more_quoted (lit ", ") (b :: args))).
      lia.
Qed.

(** Unquoting the quoted form, as [cp_quote] is a wrapper of it. *)
Lemma cp_unquote_quoted s : cp_unquote (quoted s) = s.
Proof.
  unfold cp_unquote, quoted. rewrite partial_uncomment_quoted.
  set (Q := chr DQUOTE :: quoted_tail s).
  assert (Hlen : (2 <= length Q)%nat).
  { unfold Q, quoted_tail. cbn [length]. rewrite length_app. simpl. lia. }
  assert (H0 : char_at Q 0 = 34) by reflexivity.
  destruct (length Q) as [|n] eqn:En; try lia.
  cbn [unquote_loop]. rewrite H0. consts.
  assert (HL : slen Q = Z.of_nat (S n)) by (unfold slen; now rewrite En).
  ztest.
  pose proof (unquote_loop_quoted s [chr 34] n 1 []) as H.
  change ([chr 34] ++ quoted_tail s) with Q in H.
  change (slen [chr 34]) with 1 in H. change (0 + 1) with 1.
  unfold DQUOTE in H.
  rewrite H.
  - pose proof (slen_nonneg Q). ztest.
    rewrite !Z.sub_diag, !substring_nil. cbn [app]. apply app_nil_r.
  - unfold Q in En. cbn [length] in En. lia.
  - lia.
Qed.

Lemma map_cp_unquote_quoted args : map cp_unquote (map quoted args) = args.
Proof.
  induction args as [|a args IH]; [reflexivity|].
  cbn [map]. now rewrite cp_unquote_quoted, IH.
Qed.

Lemma more_quoted_length separator args :
  (length args <= length (more_quoted separator args))%nat.
Proof.
  induction args as [|a args IH]; [cbn; lia|].
  unfold more_quoted in *. cbn [flat_map length].
  rewrite !length_app. pose proof (quoted_length a). unfold slen in *. lia.
Qed.

(** Any list of strings, each quoted by [cp_quote] and the whole written by
    [cp_unargvec], is read back by [cp_argvec] and [cp_unquote]. *)
Theorem cp_argvec_cp_unargvec_cp_quote : forall args : list Str,
  map cp_unquote
    (cp_argvec (cp_unargvec (map (fun s => cp_quote s false) args)) [])
  = args.
Proof.
  intros [|a args]; [reflexivity|].
  unfold cp_unargvec. cbn [map unvec_loop]. change (0 =? 0) with true.
  cbn [negb app]. rewrite unvec_loop_quoted by lia. rewrite cp_quote_quoted.
  unfold cp_argvec.
  pose proof (quoted_length a) as Hq.
  pose proof (slen_nonneg (more_quoted (lit ", ") args)) as Hm.
  destruct (Z.eqb_spec (slen (quoted a ++ more_quoted (lit ", ") args)) 0)
    as [E|_]; [rewrite slen_app in E; lia|].
  change 0 with (slen []).
  change (quoted a ++ more_quoted (lit ", ") args)
    with ([] ++ [] ++ quoted a ++ more_quoted (lit ", ") args) at 2.
  rewrite cp_argvec_loop_quoted.
  - cbn [app map]. now rewrite cp_unquote_quoted, map_cp_unquote_quoted.
  - reflexivity.
  - pose proof (more_quoted_length (lit ", ") args).
    cbn [app]. rewrite length_app. lia.
Qed.

(** ** Words separated by spaces *)

Lemma spacevec_loop_end fuel conf len i start vec :
  len <= i -> spacevec_loop fuel conf len i start vec = (start, vec).
Proof.
  intros H. destruct fuel; cbn [spacevec_loop]; [reflexivity|].
  destruct (Z.ltb_spec i len); [lia|reflexivity].
Qed.

(** The round of [cp_spacevec] at the opening quote of a quoted string. *)
Lemma spacevec_loop_quote fuel conf pre s tail vec :
  conf = pre ++ quoted s ++ tail ->
  spacevec_loop (S fuel) conf (slen conf) (slen pre) (-1) vec
  = spacevec_loop fuel conf (slen conf) (slen (pre ++ quoted s)) (slen pre)
      vec.
Proof.
  intros E. cbn [spacevec_loop].
  assert (E1 : conf = pre ++ chr DQUOTE :: quoted_tail s ++ tail)
    by (rewrite E; reflexivity).
  assert (Hc : char_at conf (slen pre) = DQUOTE)
    by (rewrite E1, char_at_here; reflexivity).
  assert (Hlt : slen pre < slen conf).
  { rewrite E, !slen_app. pose proof (quoted_length s).
    pose proof (slen_nonneg tail). lia. }
  apply Z.ltb_lt in Hlt. rewrite Hlt, Hc.
  change (DQUOTE =? ch "/") with false. change (DQUOTE =? DQUOTE) with true.
  cbn [negb]. change (-1 <? 0) with true. cbn [negb].
  rewrite (skip_double_quote_in conf pre s tail) by exact E1.
  f_equal. lia.
Qed.

(** The round of [cp_spacevec] at the space that ends a word. *)
Lemma spacevec_loop_space fuel conf pre w tail vec :
  conf = pre ++ w ++ lit " " ++ tail ->
  spacevec_loop (S fuel) conf (slen conf) (slen (pre ++ w)) (slen pre) vec
  = spacevec_loop fuel conf (slen conf) (slen (pre ++ w ++ lit " ")) (-1)
      (vec ++ [w]).
Proof.
  intros E. cbn [spacevec_loop].
  assert (E1 : conf = (pre ++ w) ++ " "%byte :: tail)
    by (rewrite E; now rewrite <- app_assoc).
  assert (Hc : char_at conf (slen (pre ++ w)) = SPACE)
    by (rewrite E1, char_at_here; reflexivity).
  assert (Hlt : slen (pre ++ w) < slen conf).
  { rewrite E1, (slen_app (pre ++ w)), slen_cons.
    pose proof (slen_nonneg tail). lia. }
  apply Z.ltb_lt in Hlt. rewrite Hlt, Hc.
  change (SPACE =? ch "/") with false. change (SPACE =? DQUOTE) with false.
  change (SPACE =? SQUOTE) with false. change (SPACE =? ch "\") with false.
  change (SPACE =? SPACE) with true. cbn [orb].
  pose proof (slen_nonneg pre) as Hp. apply Z.leb_le in Hp. rewrite Hp.
  replace (slen (pre ++ w) - slen pre) with (slen w)
    by (rewrite slen_app; lia).
  rewrite E at 3. rewrite substring_middle.
  f_equal. rewrite !slen_app. change (slen (lit " ")) with 1. lia.
Qed.

Lemma spacevec_loop_quoted args : forall conf pre a fuel vec,
  conf = pre ++ quoted a ++ more_quoted (lit " ") args ->
  (2 * length args < fuel)%nat ->
  spacevec_finish conf
    (spacevec_loop fuel conf (slen conf) (slen pre) (-1) vec)
  = vec ++ quoted a :: map quoted args.
Proof.
  induction args as [|b args IH]; intros conf pre a fuel vec E Hf;
    (destruct fuel as [|fuel]; [cbn [length] in Hf; lia|]).
  - rewrite (spacevec_loop_quote fuel conf pre a []) by exact E.
    unfold more_quoted in E. cbn [flat_map] in E.
    assert (Hl : slen conf = slen (pre ++ quoted a))
      by (rewrite E, app_assoc, app_nil_r; reflexivity).
    rewrite spacevec_loop_end by lia.
    unfold spacevec_finish.
    pose proof (slen_nonneg pre) as Hp. apply Z.leb_le in Hp. rewrite Hp.
    replace (slen conf - slen pre) with (slen (quoted a))
      by (rewrite Hl, slen_app; lia).
    rewrite E at 1. now rewrite substring_middle.
  - destruct fuel as [|fuel]; [cbn [length] in Hf; lia|].
    unfold more_quoted in E. cbn [flat_map] in E.
    fold (more_quoted (lit " ") args) in E.
    rewrite (spacevec_loop_quote _ conf pre a
               ((lit " " ++ quoted b) ++ more_quoted (lit " ") args))
      by exact E.
    rewrite (spacevec_loop_space _ conf pre (quoted a)
               (quoted b ++ more_quoted (lit " ") args))
      by (rewrite E; now rewrite <- !app_assoc).
    rewrite (IH conf (pre ++ quoted a ++ lit " ") b).
    + cbn [map]. now rewrite <- app_assoc.
    + rewrite E. now rewrite <- !app_assoc.
    + cbn [length] in Hf. lia.
Qed.

(** Any list of strings, each quoted by [cp_quote] and the whole written by
    [cp_unspacevec], is read back by [cp_spacevec] and [cp_unquote]. *)
Theorem cp_spacevec_cp_unspacevec_cp_quote : forall args : list Str,
  map cp_unquote
    (cp_spacevec (cp_unspacevec (map (fun s => cp_quote s false) args)) [])
  = args.
Proof.
  intros [|a args]; [reflexivity|].
  unfold cp_unspacevec. cbn [map unvec_loop]. change (0 =? 0) with true.
  cbn [negb app]. rewrite unvec_loop_quoted by lia. rewrite cp_quote_quoted.
  unfold cp_spacevec.
  set (conf := quoted a ++ more_quoted (lit " ") args).
  pose proof (quoted_length a) as Hq.
  pose proof (slen_nonneg (more_quoted (lit " ") args)) as Hm.
  assert (Hl : slen conf = slen (quoted a) + slen (more_quoted (lit " ") args))
    by (unfold conf; now rewrite slen_app).
  destruct (Z.eqb_spec (slen conf) 0) as [E|_]; [lia|].
  pose proof (spacevec_loop_quoted args conf [] a (length conf) []) as H.
  change (slen []) with 0 in H. unfold spacevec_finish in H.
  destruct (spacevec_loop (length conf) conf (slen conf) 0 (-1) [])
    as [start vec].
  rewrite H.
  - cbn [app map]. now rewrite cp_unquote_quoted, map_cp_unquote_quoted.
  - reflexivity.
  - pose proof (more_quoted_length (lit " ") args). unfold slen in *.
    unfold conf in *. rewrite length_app in *. 
    assert (length args + length args <= length (more_quoted (lit " ") args))%nat.
    { clear. induction args as [|x args IH]; [cbn; lia|].
      unfold more_quoted in *. cbn [flat_map length].
      rewrite !length_app. pose proof (quoted_length x). unfold slen in *.
      cbn [length] in *. change (length (lit " ")) with 1%nat. lia. }
    lia.
Qed.

(** ** Quoted strings as arguments *)

Lemma string_scan_end fuel s len i :
  len <= i -> string_scan fuel s len i = i.
Proof.
  intros H. destruct fuel; cbn [string_scan]; [reflexivity|].
  destruct (Z.ltb_spec i len); [lia|reflexivity].
Qed.

Lemma string_scan_quoted s :
  string_scan (length (quoted s)) (quoted s) (slen (quoted s)) 0
  = slen (quoted s).
Proof.
  pose proof (quoted_length s) as Hq.
  destruct (length (quoted s)) as [|n] eqn:En; [unfold slen in Hq; lia|].
  cbn [string_scan].
  destruct (Z.ltb_spec 0 (slen (quoted s))); [|lia].
  change (char_at (quoted s) 0) with DQUOTE.
  change (DQUOTE =? SPACE) with false. change (DQUOTE =? FF) with false.
  change (DQUOTE =? NL) with false. change (DQUOTE =? CR) with false.
  change (DQUOTE =? TAB) with false. change (DQUOTE =? VT) with false.
  change (DQUOTE =? DQUOTE) with true. cbn [orb].
  change 0 with (slen []) at 1.
  rewrite (skip_double_quote_in (quoted s) [] s [])
    by (unfold quoted; now rewrite app_nil_r).
  cbn [app]. rewrite string_scan_end by lia. lia.
Qed.

(** The quoted form of any string is one string argument that stands for
    the string, and it is a word argument exactly when the string is a
    word. *)
Theorem cp_string_cp_quote : forall s : Str,
  cp_string (cp_quote s false) = Some s
  /\ cp_word (cp_quote s false) = (if cp_is_word s then Some s else None).
Proof.
  intros s. rewrite cp_quote_quoted.
  assert (H : cp_string (quoted s) = Some s).
  { unfold cp_string. rewrite string_scan_quoted.
    pose proof (quoted_length s) as Hq.
    destruct (Z.eqb_spec (slen (quoted s)) 0); [lia|].
    rewrite Z.eqb_refl. cbn [orb negb].
    now rewrite substring_all, cp_unquote_quoted. }
  split; [exact H|]. unfold cp_word. rewrite H.
  destruct (cp_is_word s); reflexivity.
Qed.

Lemma quote_char_printable b : forallb printable (quote_char b) = true.
Proof. destruct b; vm_compute; reflexivity. Qed.

(** Whatever the bytes of the string, [cp_quote] writes printable ASCII
    only, between two double quotes. *)
Theorem cp_quote_printable : forall s : Str,
  forallb printable (cp_quote s false) = true
  /\ exists body, cp_quote s false = chr DQUOTE :: body ++ [chr DQUOTE].
Proof.
  intros s. rewrite cp_quote_flat. split; [|eexists; reflexivity].
  cbn [forallb]. rewrite forallb_app. cbn [forallb].
  change (printable (chr DQUOTE)) with true. cbn [andb].
  rewrite andb_true_r.
  induction s as [|b s IH]; [reflexivity|].
  cbn [flat_map]. rewrite forallb_app, quote_char_printable, IH. reflexivity.
Qed.

(** ** Single quotes *)

Lemma skip_single_quote_loop_literal s : forall pre tail fuel,
  no_single_quote s = true -> (length s < fuel)%nat ->
  skip_single_quote_loop fuel (pre ++ s ++ chr SQUOTE :: tail) (slen pre)
    (slen (pre ++ s ++ chr SQUOTE :: tail))
  = slen (pre ++ s) + 1.
Proof.
  induction s as [|b s IH]; intros pre tail fuel Hs Hf;
    (destruct fuel as [|fuel]; [cbn [length] in Hf; lia|]);
    cbn [skip_single_quote_loop].
  - cbn [app]. rewrite char_at_here, app_nil_r.
    assert (Hlt : slen pre < slen (pre ++ chr SQUOTE :: tail)).
    { rewrite slen_app, slen_cons. pose proof (slen_nonneg tail). lia. }
    apply Z.ltb_lt in Hlt. rewrite Hlt. reflexivity.
  - cbn [no_single_quote forallb] in Hs.
    apply andb_true_iff in Hs as [Hb Hs]. apply negb_true_iff in Hb.
    cbn [app]. rewrite char_at_here, Hb.
    assert (Hlt : slen pre < slen (pre ++ b :: s ++ chr SQUOTE :: tail)).
    { rewrite slen_app, slen_cons.
      pose proof (slen_nonneg (s ++ chr SQUOTE :: tail)). lia. }
    apply Z.ltb_lt in Hlt. rewrite Hlt.
    rewrite (app_cons_assoc pre b), <- (slen_snoc pre b).
    rewrite IH by (auto; cbn [length] in Hf; lia).
    now rewrite <- app_assoc.
Qed.

Lemma unquote_loop_literal s : forall pre tail fuel start sa,
  no_single_quote s = true ->
  unquote_loop (length s + fuel) (pre ++ s ++ tail) (slen (pre ++ s ++ tail))
    (slen pre) start SQUOTE sa
  = unquote_loop fuel (pre ++ s ++ tail) (slen (pre ++ s ++ tail))
      (slen (pre ++ s)) start SQUOTE sa.
Proof.
  induction s as [|b s IH]; intros pre tail fuel start sa Hs.
  - cbn [length Nat.add app]. now rewrite app_nil_r.
  - cbn [no_single_quote forallb] in Hs.
    apply andb_true_iff in Hs as [Hb Hs]. apply negb_true_iff in Hb.
    cbn [length Nat.add app unquote_loop]. rewrite char_at_here, Hb.
    assert (Hlt : slen pre < slen (pre ++ b :: s ++ tail)).
    { rewrite slen_app, slen_cons. pose proof (slen_nonneg (s ++ tail)). lia. }
    apply Z.ltb_lt in Hlt. rewrite Hlt.
    change (SQUOTE =? 0) with false. change (SQUOTE =? DQUOTE) with false.
    cbn [orb andb]. rewrite andb_false_r.
    assert (Hq : (SQUOTE =? code b) = false) by (now rewrite Z.eqb_sym).
    rewrite Hq.
    assert (Hnext : unquote_loop (length s + fuel)
                      (pre ++ b :: s ++ tail) (slen (pre ++ b :: s ++ tail))
                      (slen pre + 1) start SQUOTE sa
                    = unquote_loop fuel (pre ++ b :: s ++ tail)
                        (slen (pre ++ b :: s ++ tail))
                        (slen (pre ++ b :: s)) start SQUOTE sa).
    { rewrite (app_cons_assoc pre b), <- (slen_snoc pre b).
      rewrite IH by assumption. now rewrite <- !app_assoc. }
    destruct (code b =? DQUOTE); cbn [orb]; [exact Hnext|].
    destruct (code b =? ch "\"); exact Hnext.
Qed.

(** One round of the accumulating loop on a single-quoted string. *)
Lemma accumulate_single_quote fuel str len comma_pos st :
  uc_i st < len -> char_at str (uc_i st) = SQUOTE -> uc_closed st = false ->
  accumulate (S fuel) str len comma_pos st
  = accumulate fuel str len comma_pos
      {| uc_i := skip_single_quote str (uc_i st) len; uc_left := uc_left st;
         uc_right := skip_single_quote str (uc_i st) len;
         uc_closed := false; uc_sa := uc_sa st |}.
Proof.
  intros Hi Hq Hc. cbn [accumulate].
  apply Z.ltb_lt in Hi. rewrite Hi.
  unfold comment_start, isspace. rewrite Hq, Hc. reflexivity.
Qed.

Lemma partial_uncomment_single_quoted s :
  no_single_quote s = true ->
  fst (partial_uncomment (chr SQUOTE :: s ++ [chr SQUOTE]) 0 false)
  = chr SQUOTE :: s ++ [chr SQUOTE].
Proof.
  intros Hs. set (Q := chr SQUOTE :: s ++ [chr SQUOTE]).
  assert (Hlen : slen Q = slen s + 2).
  { unfold Q. rewrite slen_cons, slen_app. change (slen [chr SQUOTE]) with 1.
    lia. }
  pose proof (slen_nonneg s) as Hn.
  assert (H0 : char_at Q 0 = SQUOTE) by reflexivity.
  assert (Hskip : skip_single_quote Q 0 (slen Q) = slen Q).
  { unfold skip_single_quote.
    pose proof (skip_single_quote_loop_literal s [chr SQUOTE] [] (length Q) Hs)
      as H.
    change ([chr SQUOTE] ++ s ++ [chr SQUOTE]) with Q in H.
    change (slen [chr SQUOTE]) with 1 in H. change (0 + 1) with 1.
    rewrite H.
    - change ([chr SQUOTE] ++ s) with (chr SQUOTE :: s). rewrite slen_cons. lia.
    - unfold slen in Hlen. lia. }
  unfold partial_uncomment.
  rewrite skip_initial_stop by (unfold comment_start; rewrite H0; reflexivity).
  destruct (length Q) as [|n] eqn:En; [unfold slen in Hlen; lia|].
  rewrite accumulate_single_quote by (cbn [uc_i uc_closed]; auto; lia).
  cbn [uc_i uc_left uc_sa]. rewrite Hskip.
  rewrite accumulate_done by (cbn [uc_i]; lia).
  cbn [uc_i uc_left uc_right uc_closed uc_sa fst].
  rewrite Z.sub_0_r. apply substring_all.
Qed.

(** Between single quotes every character stands for itself: backslashes,
    double quotes, commas and comment marks are taken as they are. *)
Theorem cp_unquote_single_quoted : forall s : Str,
  no_single_quote s = true ->
  cp_unquote (chr SQUOTE :: s ++ [chr SQUOTE]) = s.
Proof.
  intros s Hs. unfold cp_unquote.
  rewrite partial_uncomment_single_quoted by assumption.
  set (Q := chr SQUOTE :: s ++ [chr SQUOTE]).
  assert (Hlen : slen Q = slen s + 2).
  { unfold Q. rewrite slen_cons, slen_app. change (slen [chr SQUOTE]) with 1.
    lia. }
  pose proof (slen_nonneg s) as Hn.
  assert (Hl : length Q = S (length s + 1)).
  { unfold Q. cbn [length]. rewrite length_app. reflexivity. }
  rewrite Hl. cbn [unquote_loop].
  destruct (Z.ltb_spec 0 (slen Q)); [|lia].
  change (char_at Q 0) with SQUOTE.
  change ((SQUOTE =? DQUOTE) || (SQUOTE =? SQUOTE)) with true.
  change (0 =? 0) with true. change (0 <? 0) with false. cbn iota.
  pose proof (unquote_loop_literal s [chr SQUOTE] [chr SQUOTE] 1 1 [] Hs)
    as Hloop.
  change ([chr SQUOTE] ++ s ++ [chr SQUOTE]) with Q in Hloop.
  change (slen [chr SQUOTE]) with 1 in Hloop. change (0 + 1) with 1.
  rewrite Hloop. cbn [unquote_loop].
  change ([chr SQUOTE] ++ s) with (chr SQUOTE :: s). rewrite slen_cons.
  destruct (Z.ltb_spec (1 + slen s) (slen Q)); [|lia].
  assert (Hc : char_at Q (1 + slen s) = SQUOTE).
  { unfold Q. change (chr SQUOTE :: s ++ [chr SQUOTE])
      with ((chr SQUOTE :: s) ++ [chr SQUOTE]).
    rewrite <- (slen_cons (chr SQUOTE) s). apply char_at_here. }
  rewrite Hc.
  change ((SQUOTE =? DQUOTE) || (SQUOTE =? SQUOTE)) with true.
  change (SQUOTE =? 0) with false. change (SQUOTE =? SQUOTE) with true.
  cbn iota.
  assert (Hsub : substring Q 1 (1 + slen s - 1) = s).
  { replace (1 + slen s - 1) with (slen s) by lia.
    change 1 with (slen [chr SQUOTE]) at 1.
    change Q with ([chr SQUOTE] ++ s ++ [chr SQUOTE]).
    apply substring_middle. }
  destruct (Z.eqb_spec (1 + slen s + 1) 0); [lia|].
  rewrite Z.sub_diag, substring_nil, app_nil_r.
  destruct (Z.ltb_spec 1 (1 + slen s)).
  - now rewrite Hsub.
  - destruct s; [reflexivity|]. rewrite slen_cons in *.
    pose proof (slen_nonneg s). lia.
Qed.

Lemma cp_unquote_single_quoted_witness :
  cp_unquote (lit "'a\n, $b // c'") = lit "a\n, $b // c".
Proof.
  apply (cp_unquote_single_quoted (lit "a\n, $b // c")). reflexivity.
Defined.

(** ** Blanks and keywords *)

Lemma substring_prefix w tail : substring (w ++ tail) 0 (slen w) = w.
Proof. apply (substring_middle [] w tail). Qed.

Lemma substring_from_app pre rest :
  substring_from (pre ++ rest) (slen pre) = rest.
Proof.
  unfold substring_from. rewrite slen_app.
  replace (slen pre + slen rest - slen pre) with (slen rest) by lia.
  rewrite <- (app_nil_r rest) at 1. apply substring_middle.
Qed.

(** A loop that skips blanks passes a run of blanks. *)
Lemma advance_blanks bl : forall str pre tail fuel,
  str = pre ++ bl ++ tail -> cp_is_space bl = true ->
  advance (length bl + fuel)
    (fun i => (i <? slen str) && isspace (char_at str i)) (slen pre)
  = advance fuel (fun i => (i <? slen str) && isspace (char_at str i))
      (slen (pre ++ bl)).
Proof.
  induction bl as [|b bl IH]; intros str pre tail fuel E Hb.
  - cbn [length Nat.add]. now rewrite app_nil_r.
  - cbn [cp_is_space forallb] in Hb. apply andb_true_iff in Hb as [Hb Hbl].
    cbn [length Nat.add advance].
    assert (Hc : char_at str (slen pre) = code b)
      by (rewrite E; apply char_at_here).
    assert (Hlt : slen pre < slen str).
    { rewrite E, slen_app. cbn [app]. rewrite slen_cons.
      pose proof (slen_nonneg (bl ++ tail)). lia. }
    apply Z.ltb_lt in Hlt. rewrite Hlt, Hc, Hb. cbn [andb].
    rewrite <- (slen_snoc pre b).
    rewrite (IH str (pre ++ [b]) tail)
      by (auto; rewrite E; now rewrite <- app_assoc).
    now rewrite <- app_assoc.
Qed.

Lemma advance_stop fuel p pos : p pos = false -> advance fuel p pos = pos.
Proof. intros H. destruct fuel; cbn [advance]; [reflexivity|]. now rewrite H. Qed.

(** After a run of blanks the loop stops at the end or at a character
    that is no blank. *)
Lemma advance_blanks_stop str pre bl tail fuel :
  str = pre ++ bl ++ tail -> cp_is_space bl = true ->
  starts_nonblank tail = true -> (length bl <= fuel)%nat ->
  advance fuel (fun i => (i <? slen str) && isspace (char_at str i))
    (slen pre)
  = slen (pre ++ bl).
Proof.
  intros E Hb Ht Hf.
  replace fuel with (length bl + (fuel - length bl))%nat by lia.
  rewrite (advance_blanks bl str pre tail) by assumption.
  apply advance_stop.
  destruct tail as [|c tail].
  - rewrite E, !app_nil_r, Z.ltb_irrefl. reflexivity.
  - cbn [starts_nonblank] in Ht. apply negb_true_iff in Ht.
    rewrite E, app_assoc, char_at_here, Ht. apply andb_false_r.
Qed.

(** [cp_eat_space] removes the blanks at the start of the text, all of
    them and nothing else. *)
Theorem cp_eat_space_removes_blanks : forall bl rest : Str,
  cp_is_space bl = true -> starts_nonblank rest = true ->
  cp_eat_space (bl ++ rest) = rest.
Proof.
  intros bl rest Hb Hr. unfold cp_eat_space.
  change 0 with (slen []).
  rewrite (advance_blanks_stop (bl ++ rest) [] bl rest)
    by (auto; rewrite length_app; lia).
  apply substring_from_app.
Qed.

Lemma cp_eat_space_removes_blanks_witness :
  cp_eat_space (lit " 	 a b ") = lit "a b ".
Proof.
  apply (cp_eat_space_removes_blanks (lit " 	 ") (lit "a b "));
    reflexivity.
Defined.

Lemma keyword_char_inv b :
  keyword_char b = true ->
  isspace (code b) = false
  /\ ((code b =? ch "_") || (code b =? ch ".") || (code b =? ch ":")
      = true
      \/ isalnum (code b) = true).
Proof.
  intros H. split.
  - destruct b; try reflexivity; vm_compute in H; discriminate.
  - unfold keyword_char in H. destruct (isalnum (code b)); [now right|].
    left. exact H.
Qed.

Lemma isspace_cases c :
  (c =? SPACE) || (c =? FF) || (c =? NL) || (c =? CR) || (c =? TAB)
  || (c =? VT) = isspace c.
Proof.
  unfold isspace. consts.
  destruct (Z.eqb_spec c 32), (Z.eqb_spec c 12), (Z.eqb_spec c 10),
    (Z.eqb_spec c 13), (Z.eqb_spec c 9), (Z.eqb_spec c 11),
    (Z.leb_spec 9 c), (Z.leb_spec c 13); cbn [orb andb]; try reflexivity; lia.
Qed.

(** The scan of [cp_keyword] passes the characters of a keyword. *)
Lemma keyword_scan_word kw : forall str pre tail fuel,
  str = pre ++ kw ++ tail -> forallb keyword_char kw = true ->
  keyword_scan (length kw + fuel) str (slen str) (slen pre)
  = keyword_scan fuel str (slen str) (slen (pre ++ kw)).
Proof.
  induction kw as [|b kw IH]; intros str pre tail fuel E Hk.
  - cbn [length Nat.add]. now rewrite app_nil_r.
  - cbn [forallb] in Hk. apply andb_true_iff in Hk as [Hb Hk].
    apply keyword_char_inv in Hb as [Hs Hb].
    cbn [length Nat.add keyword_scan].
    assert (Hc : char_at str (slen pre) = code b)
      by (rewrite E; apply char_at_here).
    assert (Hlt : slen pre < slen str).
    { rewrite E, slen_app. cbn [app]. rewrite slen_cons.
      pose proof (slen_nonneg (kw ++ tail)). lia. }
    apply Z.ltb_lt in Hlt. rewrite Hlt, Hc, isspace_cases, Hs.
    assert (Hnext : keyword_scan (length kw + fuel) str (slen str)
                      (slen pre + 1)
                    = keyword_scan fuel str (slen str)
                        (slen (pre ++ b :: kw))).
    { rewrite <- (slen_snoc pre b).
      rewrite (IH str (pre ++ [b]) tail)
        by (auto; rewrite E; now rewrite <- app_assoc).
      now rewrite <- app_assoc. }
    destruct Hb as [Hb|Hb]; rewrite Hb; [exact Hnext|].
    cbn [negb]. destruct ((code b =? ch "_") || (code b =? ch ".")
                          || (code b =? ch ":")); exact Hnext.
Qed.

Lemma keyword_scan_stop fuel str pre tail :
  str = pre ++ tail -> starts_nonblank tail = false ->
  keyword_scan fuel str (slen str) (slen pre) = Some (slen pre).
Proof.
  intros E Ht. destruct tail as [|b tail]; [discriminate|].
  cbn [starts_nonblank] in Ht. apply negb_false_iff in Ht.
  destruct fuel; cbn [keyword_scan]; [reflexivity|].
  rewrite E, char_at_here, isspace_cases, Ht.
  destruct (slen pre <? slen (pre ++ b :: tail)); reflexivity.
Qed.

Lemma keyword_scan_end fuel str :
  keyword_scan fuel str (slen str) (slen str) = Some (slen str).
Proof.
  destruct fuel; cbn [keyword_scan]; [reflexivity|].
  now rewrite Z.ltb_irrefl.
Qed.

Lemma keyword_scan_bad fuel str pre b tail :
  str = pre ++ b :: tail -> keyword_char b = false ->
  isspace (code b) = false ->
  keyword_scan (S fuel) str (slen str) (slen pre) = None.
Proof.
  intros E Hk Hs. cbn [keyword_scan].
  assert (Hlt : slen pre < slen str).
  { rewrite E, slen_app, slen_cons. pose proof (slen_nonneg tail). lia. }
  apply Z.ltb_lt in Hlt. rewrite Hlt.
  rewrite E, char_at_here, isspace_cases, Hs.
  unfold keyword_char in Hk.
  destruct (isalnum (code b)); [discriminate|]. cbn [orb] in Hk.
  rewrite Hk. reflexivity.
Qed.

(** [cp_keyword] with a place for the rest: a keyword is a run of letters,
    digits, [_], [.] and [:] that is not empty and that ends the text or is
    followed by a blank; the rest is what follows the blanks after it.
    Any other character before the first blank, or no character before it,
    makes the call fail. *)
Theorem cp_keyword_shape :
  (forall kw : Str,
     forallb keyword_char kw = true -> 0 < slen kw ->
     cp_keyword kw true = Some (kw, []))
  /\ (forall (kw : Str) (b : byte) (bl rest : Str),
        forallb keyword_char kw = true -> 0 < slen kw ->
        cp_is_space (b :: bl) = true -> starts_nonblank rest = true ->
        cp_keyword (kw ++ b :: bl ++ rest) true = Some (kw, rest))
  /\ (forall (kw : Str) (b : byte) (rest : Str),
        forallb keyword_char kw = true -> keyword_char b = false ->
        isspace (code b) = false ->
        cp_keyword (kw ++ b :: rest) true = None)
  /\ (forall s : Str, starts_nonblank s = false -> cp_keyword s true = None)
  /\ cp_keyword [] true = None.
Proof.
  split; [|split; [|split; [|split]]].
  - intros kw Hk Hl. unfold cp_keyword.
    replace (length kw) with (length kw + 0)%nat at 1 by lia.
    change 0 with (slen []) at 1.
    rewrite (keyword_scan_word kw kw [] [])
      by (auto; now rewrite app_nil_r).
    cbn [app]. cbn [keyword_scan].
    destruct (Z.eqb_spec (slen kw) 0); [lia|]. cbn [orb negb andb].
    rewrite advance_stop by (now rewrite Z.ltb_irrefl).
    rewrite substring_all. unfold substring_from.
    now rewrite Z.sub_diag, substring_nil.
  - intros kw b bl rest Hk Hl Hb Hr. unfold cp_keyword.
    set (str := kw ++ b :: bl ++ rest).
    assert (Hlen : length str = (length kw + S (length bl + length rest))%nat).
    { unfold str. rewrite !length_app. cbn [length]. rewrite length_app. lia. }
    rewrite Hlen at 1. change 0 with (slen []) at 1.
    rewrite (keyword_scan_word kw str [] (b :: bl ++ rest)) by auto.
    cbn [app].
    rewrite (keyword_scan_stop _ str kw (b :: bl ++ rest)); [|reflexivity|].
    2:{ cbn [cp_is_space forallb] in Hb. apply andb_true_iff in Hb as [Hb _].
        cbn [starts_nonblank]. now rewrite Hb. }
    destruct (Z.eqb_spec (slen kw) 0); [lia|]. cbn [orb negb andb].
    rewrite (advance_blanks_stop str kw (b :: bl) rest)
      by (auto; cbn [length]; lia).
    f_equal. f_equal.
    + apply substring_prefix.
    + unfold str.
      change (kw ++ b :: bl ++ rest) with (kw ++ (b :: bl) ++ rest).
      rewrite app_assoc. apply substring_from_app.
  - intros kw b rest Hk Hb Hs. unfold cp_keyword.
    set (str := kw ++ b :: rest).
    assert (Hlen : length str = (length kw + S (length rest))%nat).
    { unfold str. rewrite !length_app. cbn [length]. lia. }
    rewrite Hlen at 1. change 0 with (slen []) at 1.
    rewrite (keyword_scan_word kw str [] (b :: rest)) by auto.
    cbn [app]. now rewrite (keyword_scan_bad _ str kw b rest).
  - intros s Hs. unfold cp_keyword.
    change 0 with (slen []) at 1.
    rewrite (keyword_scan_stop _ s [] s) by auto. reflexivity.
  - reflexivity.
Qed.

Lemma cp_keyword_shape_witness :
  cp_keyword (lit "A.b_1:") true = Some (lit "A.b_1:", [])
  /\ cp_keyword (lit "MTU  1500 x") true = Some (lit "MTU", lit "1500 x")
  /\ cp_keyword (lit "a-b c") true = None
  /\ cp_keyword (lit " a") true = None.
Proof.
  destruct cp_keyword_shape as (A & B & C & D & _).
  split; [|split; [|split]].
  - apply (A (lit "A.b_1:")); reflexivity.
  - apply (B (lit "MTU") " "%byte (lit " ") (lit "1500 x")); reflexivity.
  - apply (C (lit "a") "-"%byte (lit "b c")); reflexivity.
  - apply (D (lit " a")); reflexivity.
Defined.
